(** * FlappyBird: a shallow embedding of [venv/FlappyBird.py]

    The simulation core of the game (classes [Passaro], [Cano], [Chao] and
    [Game]) is transcribed function by function.  Conventions:

    - a Python [int] is a [Z];
    - a Python [float] is a [Q].  Every float constant of the program
      (-10.5, 1.5, 16, 2, 50) is a dyadic rational and every operation on
      floats is an addition, a subtraction or a product with an integer, so
      binary64 computes these values exactly as long as they stay below
      2^53 (lemma [executar_exato]: the position of a bird is always a
      multiple of one half); the embedding is the exact arithmetic;
    - Python objects compared with [in] / [list.remove] have no [__eq__], so
      the comparison is object identity: every [Passaro] and [Cano] carries
      the identity [oid] it was allocated with, and [Game] carries the
      allocation counter;
    - [random.randrange] reads a tape of raw draws carried by the state;
    - a raised exception is the [Raise] result of the error monad [Res];
    - pygame surfaces and masks are grids of alpha values / bits. *)

From Stdlib Require Import ZArith QArith Qround Qabs List Bool Lia Lqa.
Import ListNotations.

Open Scope Z_scope.

(** ** Numbers *)

(** [a < b] on floats, as a boolean. *)
Definition Qltb (a b : Q) : bool :=
  Qnum a * QDen b <? Qnum b * QDen a.

(** Python's [round(f)] with one argument: nearest integer, ties to even. *)
Definition py_round (q : Q) : Z :=
  let f := Qfloor q in
  let r := (q - inject_Z f)%Q in
  if Qltb r (1 # 2) then f
  else if Qltb (1 # 2) r then f + 1
  else if Z.even f then f else f + 1.

(** ** Exceptions *)

Inductive Exc : Set :=
| ValueError.   (* "empty range for randrange()" *)

Inductive Res (A : Type) : Type :=
| Ok (a : A)
| Raise (e : Exc).

Arguments Ok {A} a.
Arguments Raise {A} e.

Definition bind {A B : Type} (m : Res A) (k : A -> Res B) : Res B :=
  match m with
  | Ok a => k a
  | Raise e => Raise e
  end.

Notation "x <- m ;; k" := (bind m (fun x => k))
  (at level 61, m at next level, right associativity).
Notation "' pat <- m ;; k" := (bind m (fun x => match x with pat => k end))
  (at level 61, pat pattern, m at next level, right associativity).

Definition is_ok {A : Type} (m : Res A) : bool :=
  match m with Ok _ => true | Raise _ => false end.

(** ** The random source *)

(** The generator: a tape of raw draws and the position of the next one. *)
Record Rng : Type := mkRng { tape : nat -> Z; cursor : nat }.

(** [Random._randbelow(n)]: an integer of [0, n). *)
Definition randbelow (n : Z) (g : Rng) : Z * Rng :=
  (tape g (cursor g) mod n, mkRng (tape g) (S (cursor g))).

(** [random.randrange(start, stop)]: [start + _randbelow(stop - start)],
    and [ValueError] when the range is empty. *)
Definition randrange (start stop : Z) (g : Rng) : Res (Z * Rng) :=
  let width := stop - start in
  if 0 <? width then
    let '(k, g') := randbelow width g in Ok (start + k, g')
  else Raise ValueError.

(** ** Configuration (class [Config], lines 25-55) *)

Record Config : Type := mkConfig {
  TELA_LARGURA : Z;
  TELA_ALTURA : Z;
  FPS : Z;
  IMPULSO_PULO : Q;
  GRAVIDADE_TERMO : Q;
  DESLOCAMENTO_MAX : Q;
  ROTACAO_MAXIMA : Z;
  VELOCIDADE_ROTACAO : Z;
  TEMPO_ANIMACAO : Z;
  ANGULO_MIN_ASA : Z;
  DISTANCIA_CANO : Z;
  VELOCIDADE_CANO : Z;
  CANO_ALTURA_MIN : Z;
  CANO_ALTURA_MAX : Z;
  VELOCIDADE_CHAO : Z
}.

Definition CFG : Config := {|
  TELA_LARGURA := 500;
  TELA_ALTURA := 800;
  FPS := 30;
  IMPULSO_PULO := - (21 # 2);
  GRAVIDADE_TERMO := 3 # 2;
  DESLOCAMENTO_MAX := 16;
  ROTACAO_MAXIMA := 25;
  VELOCIDADE_ROTACAO := 20;
  TEMPO_ANIMACAO := 5;
  ANGULO_MIN_ASA := -80;
  DISTANCIA_CANO := 200;
  VELOCIDADE_CANO := 5;
  CANO_ALTURA_MIN := 50;
  CANO_ALTURA_MAX := 450;
  VELOCIDADE_CHAO := 5
|}.

(** ** Surfaces and masks (pygame)

    pygame is not among the sources.  Surfaces and masks are modelled from
    what the spec says of silhouettes: "the set of opaque pixels of an
    entity's current visual frame". *)

(** Modelled from the spec: a pygame surface, as its size and the alpha
    value of each pixel. *)
Record Surface : Type := mkSurface {
  get_width : Z;
  get_height : Z;
  alpha_at : Z -> Z -> Z
}.

(** Modelled from the spec: [pygame.transform.flip(s, False, True)], the
    rows upside down (the upper barrier is the lower one reversed). *)
Definition flip_vertical (s : Surface) : Surface :=
  mkSurface (get_width s) (get_height s)
            (fun px py => alpha_at s px (get_height s - 1 - py)).

(** Modelled from the spec: a pygame mask (a silhouette), as its size and
    the bit of each pixel. *)
Record Mask : Type := mkMask {
  mask_w : Z;
  mask_h : Z;
  get_at : Z -> Z -> bool
}.

(** Modelled from the spec: [pygame.mask.from_surface(s)], the opaque
    pixels of [s]; a bit is set where alpha exceeds pygame's default
    threshold 127. *)
Definition from_surface (s : Surface) : Mask :=
  mkMask (get_width s) (get_height s) (fun px py => 127 <? alpha_at s px py).

Definition zrange (n : Z) : list Z := map Z.of_nat (seq 0 (Z.to_nat n)).

Definition coords (w h : Z) : list (Z * Z) :=
  flat_map (fun px => map (fun py => (px, py)) (zrange h)) (zrange w).

Definition inside (m : Mask) (px py : Z) : bool :=
  (0 <=? px) && (px <? mask_w m) && (0 <=? py) && (py <? mask_h m).

(** A point of [a] where a set bit of [a] lies over a set bit of [b], when
    the origin of [b] is at [off] from the origin of [a]. *)
Definition intersects (a b : Mask) (off : Z * Z) (pt : Z * Z) : bool :=
  let '(px, py) := pt in
  let '(dx, dy) := off in
  get_at a px py && inside b (px - dx) (py - dy)
  && get_at b (px - dx) (py - dy).

(** Modelled from the spec: pygame's [Mask.overlap(other, offset)] is not
    among the sources.  The spec (4.3) has it test "whether any opaque
    pixel of one silhouette overlaps an opaque pixel of the other at that
    offset": the result is the first such point of [a], or [None]. *)
Definition overlap (a b : Mask) (off : Z * Z) : option (Z * Z) :=
  find (intersects a b off) (coords (mask_w a) (mask_h a)).

(** Python's truth value of the result of [overlap]. *)
Definition truthy (o : option (Z * Z)) : bool :=
  match o with Some _ => true | None => false end.

(** Modelled from the spec: the collision oracle [overlaps] of section
    4.3, on two silhouettes, each at the integer position of its origin;
    the offset is the position of [b] minus the position of [a]. *)
Definition overlaps (a : Mask) (posA : Z * Z) (b : Mask) (posB : Z * Z)
  : bool :=
  truthy (overlap a b (fst posB - fst posA, snd posB - snd posA)).

(** ** Assets (class [Assets], lines 61-90) *)

Record Assets : Type := mkAssets {
  pipe : Surface;
  base : Surface;
  bg : Surface;
  bird1 : Surface;
  bird2 : Surface;
  bird3 : Surface
}.

Definition imagens_passaro (a : Assets) : Surface * Surface * Surface :=
  (bird1 a, bird2 a, bird3 a).

(** ** Lists of objects *)

(** [list.remove(o)] with identity as equality: drops the first element
    that is [o]. *)
Fixpoint remove_first {A : Type} (same : A -> bool) (l : list A) : list A :=
  match l with
  | [] => []
  | a :: l' => if same a then l' else a :: remove_first same l'
  end.

(** ** The bird (class [Passaro], lines 97-174) *)

Module Passaro.

Record t : Type := mk {
  oid : nat;
  x : Z;
  y : Q;
  assets : Assets;
  angulo : Z;
  velocidade : Q;
  altura_inicio_pulo : Q;
  tempo : Z;
  contagem_imagem : Z;
  imagem : Surface
}.

(** [Passaro.__init__] *)
Definition init (o : nat) (x0 y0 : Z) (a : Assets) : t :=
  {| oid := o; x := x0; y := inject_Z y0; assets := a;
     angulo := 0; velocidade := 0;
     altura_inicio_pulo := inject_Z y0; tempo := 0;
     contagem_imagem := 0; imagem := bird1 a |}.

(** [Passaro.pular] *)
Definition pular (cfg : Config) (p : t) : t :=
  {| oid := oid p; x := x p; y := y p; assets := assets p;
     angulo := angulo p;
     velocidade := IMPULSO_PULO cfg;
     altura_inicio_pulo := y p;
     tempo := 0;
     contagem_imagem := contagem_imagem p; imagem := imagem p |}.

(** Line 124: the displacement before it is limited. *)
Definition deslocamento_bruto (cfg : Config) (vel : Q) (tm : Z) : Q :=
  (GRAVIDADE_TERMO cfg * inject_Z (tm ^ 2) + vel * inject_Z tm)%Q.

(** Lines 127-130: the two [if]s that limit the displacement. *)
Definition limitar (cfg : Config) (d : Q) : Q :=
  let d1 := if Qltb (DESLOCAMENTO_MAX cfg) d then DESLOCAMENTO_MAX cfg
            else d in
  if Qltb d1 0 then (d1 - 2)%Q else d1.

(** The displacement [mover] applies at [tm] ticks after an impulse of
    velocity [vel]. *)
Definition deslocamento (cfg : Config) (vel : Q) (tm : Z) : Q :=
  limitar cfg (deslocamento_bruto cfg vel tm).

(** Lines 135-140: the new angle. *)
Definition girar (cfg : Config) (d y1 inicio : Q) (ang : Z) : Z :=
  if Qltb d 0 || Qltb y1 (inicio + 50)%Q then
    if ang <? ROTACAO_MAXIMA cfg then ROTACAO_MAXIMA cfg else ang
  else
    if ang >? ANGULO_MIN_ASA cfg then ang - VELOCIDADE_ROTACAO cfg
    else ang.

(** [Passaro.mover] *)
Definition mover (cfg : Config) (p : t) : t :=
  let tempo1 := tempo p + 1 in
  let d := deslocamento cfg (velocidade p) tempo1 in
  let y1 := (y p + d)%Q in
  {| oid := oid p; x := x p; y := y1; assets := assets p;
     angulo := girar cfg d y1 (altura_inicio_pulo p) (angulo p);
     velocidade := velocidade p;
     altura_inicio_pulo := altura_inicio_pulo p;
     tempo := tempo1;
     contagem_imagem := contagem_imagem p; imagem := imagem p |}.

(** [Passaro.desenhar]: the animation state it leaves (the blit itself is
    the renderer's). *)
Definition desenhar (cfg : Config) (p : t) : t :=
  let '(img0, img1, img2) := imagens_passaro (assets p) in
  let tq := TEMPO_ANIMACAO cfg in
  let ciclo := contagem_imagem p + 1 in
  let '(img, cont) :=
    if ciclo <? tq then (img0, ciclo)
    else if ciclo <? tq * 2 then (img1, ciclo)
    else if ciclo <? tq * 3 then (img2, ciclo)
    else if ciclo <? tq * 4 then (img1, ciclo)
    else (img0, 0) in
  let '(img, cont) :=
    if angulo p <=? ANGULO_MIN_ASA cfg then (img1, tq * 2)
    else (img, cont) in
  {| oid := oid p; x := x p; y := y p; assets := assets p;
     angulo := angulo p; velocidade := velocidade p;
     altura_inicio_pulo := altura_inicio_pulo p; tempo := tempo p;
     contagem_imagem := cont; imagem := img |}.

(** [Passaro.get_mask] *)
Definition get_mask (p : t) : Mask := from_surface (imagem p).

(** [a is b] *)
Definition same (a b : t) : bool := Nat.eqb (oid a) (oid b).

End Passaro.

(** ** The pipe pair (class [Cano], lines 177-214) *)

Module Cano.

Record t : Type := mk {
  oid : nat;
  x : Z;
  assets : Assets;
  altura : Z;
  pos_topo : Z;
  pos_base : Z;
  CANO_TOPO : Surface;
  CANO_BASE : Surface;
  passou : bool
}.

(** [Cano.definir_altura] *)
Definition definir_altura (cfg : Config) (c : t) (g : Rng)
  : Res (t * Rng) :=
  '(h, g') <- randrange (CANO_ALTURA_MIN cfg) (CANO_ALTURA_MAX cfg) g ;;
  Ok ({| oid := oid c; x := x c; assets := assets c;
         altura := h;
         pos_topo := h - get_height (CANO_TOPO c);
         pos_base := h + DISTANCIA_CANO cfg;
         CANO_TOPO := CANO_TOPO c; CANO_BASE := CANO_BASE c;
         passou := passou c |}, g').

(** [Cano.__init__] *)
Definition init (cfg : Config) (o : nat) (x0 : Z) (a : Assets) (g : Rng)
  : Res (t * Rng) :=
  definir_altura cfg
    {| oid := o; x := x0; assets := a;
       altura := 0; pos_topo := 0; pos_base := 0;
       CANO_TOPO := flip_vertical (pipe a);
       CANO_BASE := pipe a;
       passou := false |} g.

(** [Cano.mover] *)
Definition mover (cfg : Config) (c : t) : t :=
  {| oid := oid c; x := x c - VELOCIDADE_CANO cfg; assets := assets c;
     altura := altura c; pos_topo := pos_topo c; pos_base := pos_base c;
     CANO_TOPO := CANO_TOPO c; CANO_BASE := CANO_BASE c;
     passou := passou c |}.

(** The assignment [cano.passou = True] of line 315. *)
Definition marcar_passou (c : t) : t :=
  {| oid := oid c; x := x c; assets := assets c;
     altura := altura c; pos_topo := pos_topo c; pos_base := pos_base c;
     CANO_TOPO := CANO_TOPO c; CANO_BASE := CANO_BASE c;
     passou := true |}.

(** [Cano.colidir] *)
Definition colidir (c : t) (p : Passaro.t) : bool :=
  let passaro_mask := Passaro.get_mask p in
  let topo_mask := from_surface (CANO_TOPO c) in
  let base_mask := from_surface (CANO_BASE c) in
  let distancia_topo :=
    (x c - Passaro.x p, pos_topo c - py_round (Passaro.y p)) in
  let distancia_base :=
    (x c - Passaro.x p, pos_base c - py_round (Passaro.y p)) in
  let topo_ponto := overlap passaro_mask topo_mask distancia_topo in
  let base_ponto := overlap passaro_mask base_mask distancia_base in
  truthy topo_ponto || truthy base_ponto.

(** [a is b] *)
Definition same (a b : t) : bool := Nat.eqb (oid a) (oid b).

(** The lower edge of the upper barrier as drawn: the image [CANO_TOPO]
    is blitted with its top at [pos_topo]. *)
Definition borda_topo (c : t) : Z := pos_topo c + get_height (CANO_TOPO c).

(** The upper edge of the lower barrier as drawn. *)
Definition borda_base (c : t) : Z := pos_base c.

End Cano.

(** ** The ground (class [Chao], lines 217-240) *)

Module Chao.

Record t : Type := mk {
  y : Z;
  assets : Assets;
  VELOCIDADE : Z;
  LARGURA : Z;
  IMAGEM : Surface;
  x1 : Z;
  x2 : Z
}.

(** [Chao.__init__] *)
Definition init (cfg : Config) (y0 : Z) (a : Assets) : t :=
  {| y := y0; assets := a;
     VELOCIDADE := VELOCIDADE_CHAO cfg;
     LARGURA := get_width (base a);
     IMAGEM := base a;
     x1 := 0;
     x2 := get_width (base a) |}.

(** [Chao.mover] *)
Definition mover (c : t) : t :=
  let a1 := x1 c - VELOCIDADE c in
  let a2 := x2 c - VELOCIDADE c in
  let b1 := if a1 + LARGURA c <? 0 then a2 + LARGURA c else a1 in
  let b2 := if a2 + LARGURA c <? 0 then b1 + LARGURA c else a2 in
  {| y := y c; assets := assets c; VELOCIDADE := VELOCIDADE c;
     LARGURA := LARGURA c; IMAGEM := IMAGEM c; x1 := b1; x2 := b2 |}.

End Chao.

(** ** The session (class [Game], lines 268-381) *)

Inductive Tecla : Set := K_SPACE | K_r | K_ESCAPE | K_outra.

Inductive Evento : Set :=
| QUIT
| KEYDOWN (key : Tecla)
| OutroEvento.

Record Game : Type := mkGame {
  assets : Assets;
  passaros : list Passaro.t;
  chao : Chao.t;
  canos : list Cano.t;
  pontos : Z;
  rodando : bool;
  rng : Rng;          (* the state of the module [random] *)
  next_oid : nat      (* the identity of the next object allocated *)
}.

(** [o in l] and [l.remove(o)] for birds and pipes. *)
Definition contem_passaro (p : Passaro.t) (l : list Passaro.t) : bool :=
  existsb (Passaro.same p) l.

Definition remover_passaro (p : Passaro.t) (l : list Passaro.t)
  : list Passaro.t :=
  remove_first (Passaro.same p) l.

Definition contem_cano (c : Cano.t) (l : list Cano.t) : bool :=
  existsb (Cano.same c) l.

Definition remover_cano (c : Cano.t) (l : list Cano.t) : list Cano.t :=
  remove_first (Cano.same c) l.

(** [Game.reset] *)
Definition reset (cfg : Config) (g : Game) : Res Game :=
  let o := next_oid g in
  let passaro := Passaro.init o 230 350 (assets g) in
  let chao1 := Chao.init cfg 730 (assets g) in
  '(cano, r) <- Cano.init cfg (S o) 700 (assets g) (rng g) ;;
  Ok {| assets := assets g;
        passaros := [passaro];
        chao := chao1;
        canos := [cano];
        pontos := 0;
        rodando := true;
        rng := r;
        next_oid := S (S o) |}.

(** [Game.__init__]: the assets are loaded, then [reset] fills every other
    attribute (those given here are overwritten by it). *)
Definition Game_init (cfg : Config) (a : Assets) (r : Rng) : Res Game :=
  reset cfg {| assets := a; passaros := []; chao := Chao.init cfg 0 a;
               canos := []; pontos := 0; rodando := false;
               rng := r; next_oid := 0 |}.

Definition set_rodando (b : bool) (g : Game) : Game :=
  {| assets := assets g; passaros := passaros g; chao := chao g;
     canos := canos g; pontos := pontos g; rodando := b;
     rng := rng g; next_oid := next_oid g |}.

Definition set_passaros (l : list Passaro.t) (g : Game) : Game :=
  {| assets := assets g; passaros := l; chao := chao g;
     canos := canos g; pontos := pontos g; rodando := rodando g;
     rng := rng g; next_oid := next_oid g |}.

(** The body of the [for evento] loop of [Game.processar_eventos]. *)
Definition processar_evento (cfg : Config) (g : Game) (evento : Evento)
  : Res Game :=
  match evento with
  | QUIT => Ok (set_rodando false g)
  | KEYDOWN K_SPACE =>
      Ok (set_passaros (map (Passaro.pular cfg) (passaros g)) g)
  | KEYDOWN K_r => reset cfg g
  | KEYDOWN _ => Ok g
  | OutroEvento => Ok g
  end.

(** [Game.processar_eventos], on the events [pygame.event.get()] returns. *)
Fixpoint processar_eventos (cfg : Config) (evs : list Evento) (g : Game)
  : Res Game :=
  match evs with
  | [] => Ok g
  | e :: evs' =>
      g1 <- processar_evento cfg g e ;; processar_eventos cfg evs' g1
  end.

(** Lines 310-316: the body of the inner loop for bird [p] of the copy
    [list(self.passaros)].  The state is the live list [self.passaros], the
    pipe and the flag [adicionar_cano]. *)
Definition verificar_passaro (st : list Passaro.t * Cano.t * bool)
  (p : Passaro.t) : list Passaro.t * Cano.t * bool :=
  let '(vivos, cano, adicionar) := st in
  let vivos1 :=
    if Cano.colidir cano p then
      if contem_passaro p vivos then remover_passaro p vivos else vivos
    else vivos in
  if negb (Cano.passou cano) && (Passaro.x p >? Cano.x cano) then
    (vivos1, Cano.marcar_passou cano, true)
  else (vivos1, cano, adicionar).

(** The state of the loop over the pipes (lines 308-320). *)
Record Varredura : Type := mkVarredura {
  v_canos : list Cano.t;        (* the pipes already visited, as mutated *)
  v_passaros : list Passaro.t;  (* self.passaros *)
  v_adicionar : bool;           (* adicionar_cano *)
  v_remover : list Cano.t       (* remover *)
}.

(** Lines 309-320: the body of the outer loop for one pipe. *)
Definition verificar_cano (cfg : Config) (v : Varredura) (cano : Cano.t)
  : Varredura :=
  let copia := v_passaros v in
  let '(vivos, cano1, adicionar) :=
    fold_left verificar_passaro copia (v_passaros v, cano, v_adicionar v) in
  let cano2 := Cano.mover cfg cano1 in
  let remover1 :=
    if Cano.x cano2 + get_width (Cano.CANO_TOPO cano2) <? 0
    then v_remover v ++ [cano2] else v_remover v in
  mkVarredura (v_canos v ++ [cano2]) vivos adicionar remover1.

(** Lines 305-320. *)
Definition varrer_canos (cfg : Config) (ps : list Passaro.t)
  (cs : list Cano.t) : Varredura :=
  fold_left (verificar_cano cfg) cs (mkVarredura [] ps false []).

(** Lines 326-328. *)
Definition remover_canos (remover : list Cano.t) (cs : list Cano.t)
  : list Cano.t :=
  fold_left (fun l cano => if contem_cano cano l then remover_cano cano l
                           else l) remover cs.

(** Lines 331-334: the body of the loop for one bird of the copy. *)
Definition verificar_limite (ch : Chao.t) (vivos : list Passaro.t)
  (p : Passaro.t) : list Passaro.t :=
  if Qltb (inject_Z (Chao.y ch))
          (Passaro.y p + inject_Z (get_height (Passaro.imagem p)))%Q
     || Qltb (Passaro.y p) 0
  then if contem_passaro p vivos then remover_passaro p vivos else vivos
  else vivos.

Definition verificar_limites (ch : Chao.t) (ps : list Passaro.t)
  : list Passaro.t :=
  fold_left (verificar_limite ch) ps ps.

(** [Game.atualizar_estado] *)
Definition atualizar_estado (cfg : Config) (g : Game) : Res Game :=
  let movidos := map (Passaro.mover cfg) (passaros g) in
  let chao1 := Chao.mover (chao g) in
  let v := varrer_canos cfg movidos (canos g) in
  '(pontos1, canos1, r1, o1) <-
     (if v_adicionar v then
        '(novo, r) <- Cano.init cfg (next_oid g) (TELA_LARGURA cfg + 100)
                                (assets g) (rng g) ;;
        Ok (pontos g + 1, v_canos v ++ [novo], r, S (next_oid g))
      else Ok (pontos g, v_canos v, rng g, next_oid g)) ;;
  let canos2 := remover_canos (v_remover v) canos1 in
  let vivos := verificar_limites chao1 (v_passaros v) in
  Ok {| assets := assets g;
        passaros := vivos;
        chao := chao1;
        canos := canos2;
        pontos := pontos1;
        rodando := match vivos with [] => false | _ :: _ => rodando g end;
        rng := r1;
        next_oid := o1 |}.

(** [desenhar_tela]: what it changes in the session (the animation state of
    the birds). *)
Definition desenhar_tela (cfg : Config) (g : Game) : Game :=
  set_passaros (map (Passaro.desenhar cfg) (passaros g)) g.

(** One turn of the loop [while self.rodando] of [Game.run] (lines
    347-350), on the events of that turn. *)
Definition run_quadro (cfg : Config) (evs : list Evento) (g : Game)
  : Res Game :=
  g1 <- processar_eventos cfg evs g ;;
  g2 <- atualizar_estado cfg g1 ;;
  Ok (desenhar_tela cfg g2).

(** ** Runs *)

(** What can happen to a bird: the three methods that change it. *)
Inductive Acao : Set := AMover | APular | ADesenhar.

Definition aplicar (cfg : Config) (p : Passaro.t) (a : Acao) : Passaro.t :=
  match a with
  | AMover => Passaro.mover cfg p
  | APular => Passaro.pular cfg p
  | ADesenhar => Passaro.desenhar cfg p
  end.

Definition executar (cfg : Config) (acts : list Acao) (p : Passaro.t)
  : Passaro.t :=
  fold_left (aplicar cfg) acts p.

(** What can happen to a session: the three calls of the loop of
    [Game.run]. *)
Inductive Passo : Set :=
| PEventos (evs : list Evento)
| PAtualizar
| PDesenhar.

Definition passo (cfg : Config) (g : Game) (s : Passo) : Res Game :=
  match s with
  | PEventos evs => processar_eventos cfg evs g
  | PAtualizar => atualizar_estado cfg g
  | PDesenhar => Ok (desenhar_tela cfg g)
  end.

(** The sessions a run can be in. *)
Inductive alcancavel (cfg : Config) : Game -> Prop :=
| alc_init (a : Assets) (r : Rng) (g : Game) :
    Game_init cfg a r = Ok g -> alcancavel cfg g
| alc_passo (g : Game) (s : Passo) (g' : Game) :
    alcancavel cfg g -> passo cfg g s = Ok g' -> alcancavel cfg g'.

(** ** Observations on the pipes *)

(** The pipes not passed yet. *)
Definition nao_passados (cs : list Cano.t) : list Cano.t :=
  filter (fun c => negb (Cano.passou c)) cs.

(** The pipes of the session as the loop of lines 308-320 leaves them. *)
Definition canos_varridos (cfg : Config) (g : Game) : list Cano.t :=
  v_canos (varrer_canos cfg (map (Passaro.mover cfg) (passaros g)) (canos g)).

(** How many pipes have [passou] false in [antes] and true in [depois],
    the two lists holding the same pipes in the same order. *)
Definition virou (cc : Cano.t * Cano.t) : bool :=
  negb (Cano.passou (fst cc)) && Cano.passou (snd cc).

Definition transicoes (antes depois : list Cano.t) : nat :=
  length (filter virou (combine antes depois)).

(** The flag of the pipe of identity [o], when the session holds it. *)
Definition passou_de (o : nat) (cs : list Cano.t) : option bool :=
  option_map Cano.passou (find (fun c => Nat.eqb (Cano.oid c) o) cs).

(** Distinct live objects have distinct identities, allocated before the
    next one; and at most one pipe is not passed yet. *)
Definition bem_formado (g : Game) : Prop :=
  NoDup (map Passaro.oid (passaros g))
  /\ NoDup (map Cano.oid (canos g))
  /\ Forall (fun c => (Cano.oid c < next_oid g)%nat) (canos g)
  /\ (length (nao_passados (canos g)) <= 1)%nat.

(** ** Sample data *)

(** A surface with every pixel opaque. *)
Definition solida (w h : Z) : Surface := mkSurface w h (fun _ _ => 255).

Definition exemplo_assets : Assets :=
  mkAssets (solida 4 400) (solida 6 2) (solida 1 1)
           (solida 3 2) (solida 3 2) (solida 3 2).

Definition exemplo_rng : Rng := mkRng (fun _ => 310) 0.

Definition exemplo_passaro : Passaro.t :=
  Passaro.init 0 230 350 exemplo_assets.

(** ** The loops of [atualizar_estado] in closed form *)

(** The test of line 314 for pipe [cano] and bird [p]. *)
Definition cruza (cano : Cano.t) (p : Passaro.t) : bool :=
  negb (Cano.passou cano) && (Passaro.x p >? Cano.x cano).

(** Lines 310-313 for pipe [cano] and bird [p], on the live list. *)
Definition retirar_colidido (cano : Cano.t) (vivos : list Passaro.t)
  (p : Passaro.t) : list Passaro.t :=
  if Cano.colidir cano p then
    if contem_passaro p vivos then remover_passaro p vivos else vivos
  else vivos.

(** The pipe after the inner loop over the birds [copia]. *)
Definition cano_apos (cano : Cano.t) (copia : list Passaro.t) : Cano.t :=
  if existsb (cruza cano) copia then Cano.marcar_passou cano else cano.

(** What the outer loop does to one pipe: it moves it, after setting its
    flag or not. *)
Definition evolui (cfg : Config) (c c' : Cano.t) : Prop :=
  c' = Cano.mover cfg c
  \/ (Cano.passou c = false /\ c' = Cano.mover cfg (Cano.marcar_passou c)).

(** ** Histories *)

(** The sessions a sequence of calls goes through. *)
Fixpoint historico (cfg : Config) (sts : list Passo) (g : Game)
  : Res (list Game) :=
  match sts with
  | [] => Ok []
  | s :: sts' =>
      g1 <- passo cfg g s ;;
      h <- historico cfg sts' g1 ;;
      Ok (g1 :: h)
  end.

(** The pipe of identity [o] has its flag false in [a] and true in [b]. *)
Definition subiu (o : nat) (a b : Game) : bool :=
  match passou_de o (canos a), passou_de o (canos b) with
  | Some false, Some true => true
  | _, _ => false
  end.

(** How many times the flag of the pipe [o] goes from false to true along
    the history [h] that starts in [g]. *)
Fixpoint subidas (o : nat) (g : Game) (h : list Game) : nat :=
  match h with
  | [] => 0
  | g1 :: h' => (if subiu o g g1 then 1 else 0) + subidas o g1 h'
  end.

(** The life of the pipe of identity [o]: 0 not allocated yet, 1 in the
    session and not passed, 2 in the session and passed, 3 gone. *)
Definition fase (o : nat) (g : Game) : nat :=
  match passou_de o (canos g) with
  | Some false => 1
  | Some true => 2
  | None => if Nat.ltb o (next_oid g) then 3 else 0
  end.

(** Every pipe of [g'] is a pipe of [g] with the same gap, whose flag was
    not cleared, or was allocated after [g]. *)
Definition estavel (g g' : Game) : Prop :=
  (next_oid g <= next_oid g')%nat
  /\ forall c' : Cano.t,
      In c' (canos g') ->
      (exists c : Cano.t,
          In c (canos g)
          /\ Cano.oid c' = Cano.oid c
          /\ Cano.altura c' = Cano.altura c
          /\ Cano.pos_topo c' = Cano.pos_topo c
          /\ Cano.pos_base c' = Cano.pos_base c
          /\ (Cano.passou c = true -> Cano.passou c' = true))
      \/ (next_oid g <= Cano.oid c')%nat.

(** ** What a player sees of a session *)

(** The score, the run state, the position, angle and tick count of every
    bird, and the horizontal position and flag of every pipe. *)
Definition resumo (g : Game)
  : Z * bool * list (Z * Q * Z * Z) * list (Z * bool) :=
  (pontos g, rodando g,
   map (fun p => (Passaro.x p, Passaro.y p, Passaro.angulo p,
                  Passaro.tempo p)) (passaros g),
   map (fun c => (Cano.x c, Cano.passou c)) (canos g)).

(** ** More sample data *)

(** A configuration whose range of gap heights is empty. *)
Definition cfg_invalida : Config :=
  mkConfig 500 800 30 (- (21 # 2)) (3 # 2) 16 25 20 5 (-80) 200 5 450 450 5.

(** A pipe at x = 228 with its gap from 310 to 510, not passed yet. *)
Definition exemplo_cano : Cano.t :=
  Cano.mk 2 228 exemplo_assets 310 (-90) 510
          (flip_vertical (pipe exemplo_assets)) (pipe exemplo_assets) false.

(** A bird at the height of the upper barrier of [exemplo_cano]. *)
Definition exemplo_passaro_alto : Passaro.t :=
  Passaro.init 1 230 300 exemplo_assets.

(** A session with two birds to the right of the left edge of its only
    pipe: the first against its upper barrier, the second in its gap. *)
Definition exemplo_dois : Game :=
  mkGame exemplo_assets [exemplo_passaro_alto; exemplo_passaro]
         (Chao.init CFG 730 exemplo_assets) [exemplo_cano] 0 true
         exemplo_rng 3.

(** [n] turns of the loop of [Game.run] with no event. *)
Fixpoint quadros (cfg : Config) (n : nat) (g : Game) : Res Game :=
  match n with
  | O => Ok g
  | S k => g1 <- run_quadro cfg [] g ;; quadros cfg k g1
  end.

(** A second pipe not passed yet, at x = 200. *)
Definition exemplo_cano2 : Cano.t :=
  Cano.mk 3 200 exemplo_assets 310 (-90) 510
          (flip_vertical (pipe exemplo_assets)) (pipe exemplo_assets) false.

(** A session no run goes through: two pipes not passed yet, both to the
    left of the bird. *)
Definition exemplo_mal_formado : Game :=
  mkGame exemplo_assets [exemplo_passaro]
         (Chao.init CFG 730 exemplo_assets) [exemplo_cano; exemplo_cano2]
         0 true exemplo_rng 4.

(** A session whose only bird is about to reach the ground. *)
Definition exemplo_caindo : Game :=
  mkGame exemplo_assets [Passaro.init 0 230 729 exemplo_assets]
         (Chao.init CFG 730 exemplo_assets) [exemplo_cano] 0 true
         exemplo_rng 3.

(** ** Exactness of the floats *)

(** A multiple of one half. *)
Definition meio_inteiro (q : Q) : Prop := exists k : Z, q == k # 2.

(** The floats of a bird that binary64 holds exactly: its velocity is 0.0
    or the impulse, its position a multiple of one half. *)
Definition passaro_exato (p : Passaro.t) : Prop :=
  (Passaro.velocidade p = 0%Q \/ Passaro.velocidade p = IMPULSO_PULO CFG)
  /\ meio_inteiro (Passaro.y p).

(** ** Flights *)

(** The sum of the displacements of the first [n] ticks after the tick
    count was 0, at velocity [vel]. *)
Fixpoint trajetoria (cfg : Config) (vel : Q) (n : nat) : Q :=
  match n with
  | O => 0
  | S k => trajetoria cfg vel k
           + Passaro.deslocamento cfg vel (Z.of_nat (S k))
  end.

(** A bird as [executar] leaves it: the velocity is 0.0 or the impulse and
    the tick count is not negative. *)
Definition passaro_regular (p : Passaro.t) : Prop :=
  (Passaro.velocidade p = 0%Q \/ Passaro.velocidade p = IMPULSO_PULO CFG)
  /\ 0 <= Passaro.tempo p.

(** ** The ground and the wings *)

(** The two tiles of the ground are side by side, the left one starting
    between one tile width to the left of the window and its left edge. *)
Definition chao_regular (c : Chao.t) : Prop :=
  0 < Chao.VELOCIDADE c <= Chao.LARGURA c
  /\ ((Chao.x2 c = Chao.x1 c + Chao.LARGURA c
       /\ - Chao.LARGURA c <= Chao.x1 c <= 0)
      \/ (Chao.x1 c = Chao.x2 c + Chao.LARGURA c
          /\ - Chao.LARGURA c <= Chao.x2 c <= 0)).

(** The counter [contagem_imagem] after a draw that found it at [c], for a
    bird that is not diving. *)
Definition ciclo_asa (c : Z) : Z := if c + 1 <? 20 then c + 1 else 0.

(** The image chosen by a draw that found the counter at [c], for a bird
    that is not diving. *)
Definition imagem_asa (a : Assets) (c : Z) : Surface :=
  if c + 1 <? 5 then bird1 a
  else if c + 1 <? 10 then bird2 a
  else if c + 1 <? 15 then bird3 a
  else if c + 1 <? 20 then bird2 a
  else bird1 a.

(** A bird whose animation state is one a draw can leave. *)
Definition asa_regular (p : Passaro.t) : Prop :=
  0 <= Passaro.contagem_imagem p <= 19
  /\ (Passaro.imagem p = bird1 (Passaro.assets p)
      \/ Passaro.imagem p = bird2 (Passaro.assets p)
      \/ Passaro.imagem p = bird3 (Passaro.assets p)).

(** ** Whole runs *)

(** The session a sequence of calls ends in. *)
Fixpoint correr (cfg : Config) (sts : list Passo) (g : Game) : Res Game :=
  match sts with
  | [] => Ok g
  | s :: sts' => g1 <- passo cfg g s ;; correr cfg sts' g1
  end.

Definition e_tick (s : Passo) : bool :=
  match s with PAtualizar => true | _ => false end.

(** The number of ticks of a sequence of calls. *)
Definition n_ticks (sts : list Passo) : nat := length (filter e_tick sts).

(** A call that does not reset the session. *)
Definition sem_reset (s : Passo) : Prop :=
  match s with
  | PEventos evs => ~ In (KEYDOWN K_r) evs
  | _ => True
  end.

(** The test of line 319: the pipe is wholly to the left of the window. *)
Definition fora_da_tela (c : Cano.t) : bool :=
  Cano.x c + get_width (Cano.CANO_TOPO c) <? 0.

(** The pipe a tick of [g] appends when one is due. *)
Definition cano_novo (cfg : Config) (g : Game) : list Cano.t :=
  if v_adicionar (varrer_canos cfg (map (Passaro.mover cfg) (passaros g))
                               (canos g))
  then match Cano.init cfg (next_oid g) (TELA_LARGURA cfg + 100) (assets g)
                       (rng g) with
       | Ok (novo, _) => [novo]
       | Raise _ => []
       end
  else [].

(** The session has score 0, its birds are at x = 230 and its pipes at
    700 - 5 k or further right. *)
Definition antes_do_cano (k : Z) (g : Game) : Prop :=
  pontos g = 0
  /\ (forall p, In p (passaros g) -> Passaro.x p = 230)
  /\ (forall c, In c (canos g) -> 700 - 5 * k <= Cano.x c).

(** What an impulse leaves of a bird's physics. *)
Definition impulsionado (cfg : Config) (p : Passaro.t) : Prop :=
  Passaro.velocidade p = IMPULSO_PULO cfg
  /\ Passaro.tempo p = 0
  /\ Passaro.altura_inicio_pulo p = Passaro.y p.

(** What no event but a reset changes of a bird. *)
Definition corpo (p : Passaro.t)
  : nat * Z * Q * Z * Z * Surface :=
  (Passaro.oid p, Passaro.x p, Passaro.y p, Passaro.angulo p,
   Passaro.contagem_imagem p, Passaro.imagem p).

(** A session that is over. *)
Definition exemplo_fim : Game :=
  mkGame exemplo_assets [] (Chao.init CFG 730 exemplo_assets)
         [exemplo_cano] 3 false exemplo_rng 3.

(** A pipe already passed, about to leave the window. *)
Definition exemplo_cano_velho : Cano.t :=
  Cano.mk 5 (-3) exemplo_assets 310 (-90) 510
          (flip_vertical (pipe exemplo_assets)) (pipe exemplo_assets) true.

Definition exemplo_saindo : Game :=
  mkGame exemplo_assets [exemplo_passaro]
         (Chao.init CFG 730 exemplo_assets)
         [exemplo_cano_velho; exemplo_cano] 1 true exemplo_rng 6.

(** The flapping of a player who presses the space bar every thirteenth
    frame, 96 frames long. *)
Definition exemplo_jogada : list Passo :=
  flat_map (fun i => [PEventos (if Nat.eqb (Nat.modulo i 13) 0
                                then [KEYDOWN K_SPACE] else []);
                      PAtualizar; PDesenhar])
           (seq 0 96).

Definition exemplo_rng_150 : Rng := mkRng (fun _ => 150) 0.

(** The session of a player who has pressed no key for [n] frames: no bird
    is left and the run is over, or the bird has fallen freely for [n]
    ticks. *)
Definition ocioso (a : Assets) (n : nat) (g : Game) : Prop :=
  assets g = a
  /\ Chao.y (chao g) = 730
  /\ ((passaros g = [] /\ rodando g = false)
      \/ exists p : Passaro.t,
          passaros g = [p]
          /\ Passaro.assets p = a
          /\ Passaro.velocidade p = 0%Q
          /\ Passaro.tempo p = Z.of_nat n
          /\ Passaro.y p == 350 + trajetoria CFG 0 n
          /\ (Passaro.imagem p = bird1 a \/ Passaro.imagem p = bird2 a
              \/ Passaro.imagem p = bird3 a)).

(** A session as a run leaves it when the pipe image has a width: well
    formed, the birds at x = 230, and, while a bird is active, exactly one
    pipe not passed yet, at 225 or further right. *)
Definition sessao_regular (g : Game) : Prop :=
  bem_formado g
  /\ (forall p, In p (passaros g) -> Passaro.x p = 230)
  /\ 0 <= get_width (pipe (assets g))
  /\ (forall c, In c (canos g) ->
                get_width (Cano.CANO_TOPO c) = get_width (pipe (assets g)))
  /\ (passaros g <> [] ->
      length (nao_passados (canos g)) = 1%nat
      /\ forall c, In c (canos g) -> Cano.passou c = false ->
                   225 <= Cano.x c).

(** ** The program loop ([Game.run], lines 341-368)

    The loop never ends by itself; it is run on a script, the list of the
    events each call of [pygame.event.get()] returns, and stops where the
    script ends. *)

(** How the loop [for evento] of the game-over screen (lines 358-368)
    leaves: the program has returned, or the loop is over with the session
    and the flag [espera] as given. *)
Inductive Espera : Type :=
| Retorna
| Segue (g : Game) (espera : bool).

Fixpoint esperar (cfg : Config) (evs : list Evento) (g : Game)
  (espera : bool) : Res Espera :=
  match evs with
  | [] => Ok (Segue g espera)
  | QUIT :: _ => Ok Retorna
  | KEYDOWN K_r :: evs' => g1 <- reset cfg g ;; esperar cfg evs' g1 false
  | KEYDOWN K_ESCAPE :: _ => Ok Retorna
  | _ :: evs' => esperar cfg evs' g espera
  end.

(** Where the program is between two polls: in the loop
    [while self.rodando] or in the loop [while espera]. *)
Inductive Fase : Set := NoJogo | NaEspera.

(** How a script ends: [run] has returned, or the script is over with the
    program in a phase. *)
Inductive Fim : Type :=
| Retornou
| Parado (f : Fase) (g : Game).

Fixpoint run_de (cfg : Config) (script : list (list Evento)) (f : Fase)
  (g : Game) : Res Fim :=
  match script with
  | [] => Ok (Parado f g)
  | evs :: rest =>
      match f with
      | NoJogo =>
          g1 <- run_quadro cfg evs g ;;
          if rodando g1 then run_de cfg rest NoJogo g1
          else run_de cfg rest NaEspera g1
      | NaEspera =>
          e <- esperar cfg evs g true ;;
          match e with
          | Retorna => Ok Retornou
          | Segue g1 true => run_de cfg rest NaEspera g1
          | Segue g1 false => run_de cfg rest NoJogo (set_rodando true g1)
          end
      end
  end.

(** [Game.run] *)
Definition run (cfg : Config) (script : list (list Evento)) (g : Game)
  : Res Fim :=
  run_de cfg script NoJogo (set_rodando true g).

(** ** The image cache (class [Assets], lines 61-90)

    The file system and pygame are outside the program: the functions
    that join a directory and a file name, read and convert an image, and
    double its size are parameters. *)

From Stdlib Require String.
Import String.StringSyntax.
Delimit Scope string_scope with string.

Section Carregar.

(** [os.path.join] *)
Variable join : String.string -> String.string -> String.string.

(** [pygame.image.load(caminho).convert_alpha()]; [None] when it
    raises. *)
Variable load : String.string -> option Surface.

(** [pygame.transform.scale2x] *)
Variable scale2x : Surface -> Surface.

(** The attributes [imgs_dir] and [_cache] of [Assets]; the dictionary is
    the list of its items, the last inserted first. *)
Record Carregador : Type := mkCarregador {
  imgs_dir : String.string;
  _cache : list (String.string * Surface)
}.

(** [caminho in self._cache] and [self._cache[caminho]] *)
Definition cache_get (caminho : String.string)
  (cache : list (String.string * Surface)) : option Surface :=
  option_map snd (find (fun kv => String.eqb (fst kv) caminho) cache).

(** [Assets._carregar]; [None] when the image cannot be read. *)
Definition _carregar (filename : String.string) (dobrar : bool)
  (s : Carregador) : option (Surface * Carregador) :=
  let caminho := join (imgs_dir s) filename in
  match cache_get caminho (_cache s) with
  | Some surf => Some (surf, s)
  | None =>
      match load caminho with
      | None => None
      | Some surf =>
          let surf1 := if dobrar then scale2x surf else surf in
          Some (surf1,
                mkCarregador (imgs_dir s) ((caminho, surf1) :: _cache s))
      end
  end.

(** The six loads of [Assets.__init__], in their order. *)
Definition Assets_init (dir : String.string)
  : option (Assets * Carregador) :=
  let s0 := mkCarregador dir [] in
  match _carregar "pipe.png"%string true s0 with
  | None => None
  | Some (i_pipe, s1) =>
  match _carregar "base.png"%string true s1 with
  | None => None
  | Some (i_base, s2) =>
  match _carregar "bg.png"%string true s2 with
  | None => None
  | Some (i_bg, s3) =>
  match _carregar "bird1.png"%string true s3 with
  | None => None
  | Some (i_b1, s4) =>
  match _carregar "bird2.png"%string true s4 with
  | None => None
  | Some (i_b2, s5) =>
  match _carregar "bird3.png"%string true s5 with
  | None => None
  | Some (i_b3, s6) =>
      Some (mkAssets i_pipe i_base i_bg i_b1 i_b2 i_b3, s6)
  end end end end end end.

End Carregar.

(** Sample parameters: paths joined with a slash, a disk where every file
    is a 2 x 2 opaque image, and a [scale2x] that doubles the size. *)
Definition exemplo_join (d f : String.string) : String.string :=
  String.append d (String.append "/"%string f).

Definition exemplo_load (caminho : String.string) : option Surface :=
  Some (solida 2 2).

Definition exemplo_load_vazio (caminho : String.string) : option Surface :=
  None.

Definition exemplo_scale2x (s : Surface) : Surface :=
  mkSurface (2 * get_width s) (2 * get_height s)
            (fun px py => alpha_at s (px / 2) (py / 2)).

(** The test of line 332: the bird is below the ground or above the
    window. *)
Definition fora_dos_limites (ch : Chao.t) (p : Passaro.t) : bool :=
  Qltb (inject_Z (Chao.y ch))
       (Passaro.y p + inject_Z (get_height (Passaro.imagem p)))%Q
  || Qltb (Passaro.y p) 0.

(** ** Counting draws *)

(** The height [definir_altura] gives pipe [c] from the generator state
    [r]. *)
Definition altura_sorteada (cfg : Config) (c : Cano.t) (r : Rng)
  : option Z :=
  match Cano.definir_altura cfg c r with
  | Ok (c', _) => Some (Cano.altura c')
  | Raise _ => None
  end.

(** How many of the generator states [rs] make [_randbelow(n)] return
    [k]. *)
Definition vezes_randbelow (n k : Z) (rs : list Rng) : nat :=
  length (filter (fun r => fst (randbelow n r) =? k) rs).

(** How many of the generator states [rs] give pipe [c] the height [h]. *)
Definition vezes_altura (cfg : Config) (c : Cano.t) (h : Z)
  (rs : list Rng) : nat :=
  length (filter (fun r => match altura_sorteada cfg c r with
                           | Some h' => h' =? h
                           | None => false
                           end) rs).

(** [_randbelow(n)] is uniform over the generator states [rs]: each of its
    [n] results comes from the same number [m] of them. *)
Definition randbelow_uniforme (n : Z) (m : nat) (rs : list Rng) : Prop :=
  forall k : Z, 0 <= k < n -> vezes_randbelow n k rs = m.

(** One generator state for each raw draw of 0, ..., [n] - 1. *)
Definition geradores (n : Z) : list Rng :=
  map (fun v => mkRng (fun _ => v) 0) (zrange n).

(** A session whose only bird is against the upper barrier of its only
    pipe, to the right of the left edge of the pipe. *)
Definition exemplo_colisao : Game :=
  mkGame exemplo_assets [exemplo_passaro_alto]
         (Chao.init CFG 730 exemplo_assets) [exemplo_cano] 0 true
         exemplo_rng 3.

(** * Properties *)

(** ** Comparisons on floats *)

Lemma Qltb_lt (a b : Q) : Qltb a b = true <-> (a < b)%Q.
Proof. unfold Qltb, Qlt. apply Z.ltb_lt. Qed.

Lemma Qltb_ge (a b : Q) : Qltb a b = false <-> (b <= a)%Q.
Proof. unfold Qltb, Qle. rewrite Z.ltb_ge. reflexivity. Qed.

Lemma Qltb_cases (a b : Q) :
  (Qltb a b = true /\ (a < b)%Q) \/ (Qltb a b = false /\ (b <= a)%Q).
Proof.
  destruct (Qltb a b) eqn:E.
  - left. split; [reflexivity | now apply Qltb_lt].
  - right. split; [reflexivity | now apply Qltb_ge].
Qed.

Ltac qcases a b :=
  let E := fresh "E" in
  let H := fresh "H" in
  destruct (Qltb_cases a b) as [[E H] | [E H]]; rewrite E in *.

(** ** The physics of the bird *)

Section Fisica.

Variable cfg : Config.

(** The two [if]s of lines 127-130 never let the displacement above the
    maximum. *)
Lemma limitar_le_max (d : Q) :
  (Passaro.limitar cfg d <= DESLOCAMENTO_MAX cfg)%Q.
Proof.
  unfold Passaro.limitar.
  qcases (DESLOCAMENTO_MAX cfg) d.
  - qcases (DESLOCAMENTO_MAX cfg) 0%Q; lra.
  - qcases d 0%Q; lra.
Qed.

(** They keep the order of displacements. *)
Lemma limitar_monotone (d1 d2 : Q) :
  (d1 <= d2)%Q -> (Passaro.limitar cfg d1 <= Passaro.limitar cfg d2)%Q.
Proof.
  intros Hle. unfold Passaro.limitar.
  qcases (DESLOCAMENTO_MAX cfg) d1; qcases (DESLOCAMENTO_MAX cfg) d2;
    repeat match goal with
           | |- context [Qltb ?a ?b] => qcases a b
           end; lra.
Qed.

(** The raw displacement grows with the tick count as soon as the
    gravity term outweighs the velocity. *)
Lemma deslocamento_bruto_monotone (v : Q) (t1 t2 : Z) :
  (0 <= GRAVIDADE_TERMO cfg)%Q ->
  0 <= t1 <= t2 ->
  (0 <= GRAVIDADE_TERMO cfg * inject_Z (t1 + t2) + v)%Q ->
  (Passaro.deslocamento_bruto cfg v t1
   <= Passaro.deslocamento_bruto cfg v t2)%Q.
Proof.
  intros Hg [H0 H12] Hdom. unfold Passaro.deslocamento_bruto.
  rewrite !Z.pow_2_r, !inject_Z_mult.
  rewrite inject_Z_plus in Hdom.
  rewrite Zle_Qle in H0, H12. simpl inject_Z in H0.
  set (a := inject_Z t1) in *. set (b := inject_Z t2) in *.
  set (k := GRAVIDADE_TERMO cfg) in *.
  assert (Hfac : (k * (b * b) + v * b - (k * (a * a) + v * a)
                  == (b - a) * (k * (a + b) + v))%Q) by ring.
  assert (Hpos : (0 <= (b - a) * (k * (a + b) + v))%Q).
  { apply Qmult_le_0_compat; lra. }
  lra.
Qed.

End Fisica.

(** C2.  One call of [mover] adds 1 to the ticks since the impulse, takes
    the displacement [g * ticks^2 + v * ticks] at the new tick count,
    replaces it by the maximum when it exceeds the maximum, lowers it by 2
    when it is negative, and adds the result to the vertical position. *)
Theorem mover_displacement (p : Passaro.t) :
  let ticks := Passaro.tempo p + 1 in
  let d := (GRAVIDADE_TERMO CFG * inject_Z (ticks ^ 2)
            + Passaro.velocidade p * inject_Z ticks)%Q in
  let p' := Passaro.mover CFG p in
  Passaro.tempo p' = ticks
  /\ ((DESLOCAMENTO_MAX CFG < d)%Q ->
      Passaro.y p' == Passaro.y p + DESLOCAMENTO_MAX CFG)
  /\ ((d < 0)%Q -> Passaro.y p' == Passaro.y p + (d - 2))
  /\ ((0 <= d)%Q -> (d <= DESLOCAMENTO_MAX CFG)%Q ->
      Passaro.y p' == Passaro.y p + d).
Proof.
  intros ticks d p'. split; [reflexivity |].
  assert (Hy : Passaro.y p' = (Passaro.y p + Passaro.limitar CFG d)%Q)
    by reflexivity.
  rewrite Hy. unfold Passaro.limitar.
  change (DESLOCAMENTO_MAX CFG) with 16%Q.
  repeat split; intros;
    qcases 16%Q d;
    repeat match goal with
           | |- context [Qltb ?a ?b] => qcases a b
           end; try lra; try reflexivity.
Qed.


Lemma mover_displacement_witness :
  Passaro.y (Passaro.mover CFG (Passaro.pular CFG exemplo_passaro)) == 339.
Proof.
  destruct (mover_displacement (Passaro.pular CFG exemplo_passaro))
    as (_ & _ & H & _).
  rewrite H; [| vm_compute; reflexivity]. vm_compute. reflexivity.
Defined.

(** C7.  [mover] moves the bird by [deslocamento] at the new tick count;
    that displacement is never above the maximum 16, and from the tick
    where the gravity term [1.5 * t] has reached the size of the velocity
    it does not decrease with the ticks. *)
Theorem deslocamento_bounded_monotone :
  (forall p : Passaro.t,
      Passaro.y (Passaro.mover CFG p)
      = (Passaro.y p + Passaro.deslocamento CFG (Passaro.velocidade p)
                                            (Passaro.tempo p + 1))%Q)
  /\ (forall (v : Q) (t : Z), (Passaro.deslocamento CFG v t <= 16)%Q)
  /\ (forall (v : Q) (t1 t2 : Z),
         0 <= t1 <= t2 ->
         (Qabs v <= GRAVIDADE_TERMO CFG * inject_Z t1)%Q ->
         (Passaro.deslocamento CFG v t1 <= Passaro.deslocamento CFG v t2)%Q).
Proof.
  split; [reflexivity | split].
  - intros v t. apply (limitar_le_max CFG).
  - intros v t1 t2 Ht Hdom. unfold Passaro.deslocamento.
    apply limitar_monotone.
    assert (Hg : (0 <= GRAVIDADE_TERMO CFG)%Q) by (vm_compute; discriminate).
    apply deslocamento_bruto_monotone; [exact Hg | exact Ht |].
    rewrite inject_Z_plus.
    apply Qabs_Qle_condition in Hdom. destruct Hdom as [Hlo _].
    assert (H2 : (0 <= inject_Z t2)%Q).
    { change 0%Q with (inject_Z 0). rewrite <- Zle_Qle. lia. }
    assert (H3 : (0 <= GRAVIDADE_TERMO CFG * inject_Z t2)%Q)
      by (apply Qmult_le_0_compat; assumption).
    lra.
Qed.

(** After the impulse of -10.5 the gravity term dominates from tick 7 on:
    the displacement at tick 7 is at most the one at tick 9. *)
Lemma deslocamento_bounded_monotone_witness :
  (Passaro.deslocamento CFG (IMPULSO_PULO CFG) 7
   <= Passaro.deslocamento CFG (IMPULSO_PULO CFG) 9)%Q.
Proof.
  apply (proj2 (proj2 deslocamento_bounded_monotone)).
  - lia.
  - vm_compute. discriminate.
Defined.

(** Before that tick the displacement does decrease: -11 at tick 1, -17 at
    tick 2. *)
Lemma deslocamento_early_decrease :
  (Passaro.deslocamento CFG (IMPULSO_PULO CFG) 2
   < Passaro.deslocamento CFG (IMPULSO_PULO CFG) 1)%Q.
Proof. vm_compute. reflexivity. Qed.

(** ** The floats of the bird *)

Lemma meio_inteiro_eq (a b : Q) : a == b -> meio_inteiro a -> meio_inteiro b.
Proof. intros E [k Hk]. exists k. now rewrite <- E. Qed.

Lemma meio_inteiro_Z (n : Z) : meio_inteiro (inject_Z n).
Proof. exists (2 * n)%Z. unfold Qeq. cbn [Qnum Qden inject_Z]. lia. Qed.

Lemma meio_inteiro_plus (a b : Q) :
  meio_inteiro a -> meio_inteiro b -> meio_inteiro (a + b).
Proof.
  intros [k Hk] [l Hl]. exists (k + l)%Z. rewrite Hk, Hl.
  unfold Qeq, Qplus. cbn [Qnum Qden Pos.mul]. lia.
Qed.

Lemma meio_inteiro_mult_Z (a : Q) (n : Z) :
  meio_inteiro a -> meio_inteiro (a * inject_Z n).
Proof.
  intros [k Hk]. exists (k * n)%Z. rewrite Hk.
  unfold Qeq, Qmult. cbn [Qnum Qden Pos.mul inject_Z]. lia.
Qed.

Lemma limitar_meio_inteiro (d : Q) :
  meio_inteiro d -> meio_inteiro (Passaro.limitar CFG d).
Proof.
  intros Hd. unfold Passaro.limitar.
  change (DESLOCAMENTO_MAX CFG) with (inject_Z 16).
  assert (H2 : meio_inteiro (- inject_Z 2)) by (exists (-4)%Z; reflexivity).
  destruct (Qltb (inject_Z 16) d);
    match goal with |- context [Qltb ?a ?b] => destruct (Qltb a b) end;
    try assumption; try apply meio_inteiro_Z;
    apply meio_inteiro_plus; try assumption; apply meio_inteiro_Z.
Qed.

Lemma aplicar_exato (p : Passaro.t) (a : Acao) :
  passaro_exato p -> passaro_exato (aplicar CFG p a).
Proof.
  intros [Hv Hy]. destruct a.
  - split; [exact Hv |]. simpl.
    apply meio_inteiro_plus; [exact Hy |].
    apply limitar_meio_inteiro. unfold Passaro.deslocamento_bruto.
    apply meio_inteiro_plus.
    + apply meio_inteiro_mult_Z. exists 3%Z. reflexivity.
    + apply meio_inteiro_mult_Z.
      destruct Hv as [-> | ->]; [exists 0%Z | exists (-21)%Z]; reflexivity.
  - split; [now right | exact Hy].
  - unfold aplicar, Passaro.desenhar.
    repeat match goal with
           | |- context [if ?c then _ else _] => destruct c
           end; split; assumption.
Qed.

(** Whatever happens to a bird, its velocity is 0.0 or -10.5 and its
    position is a multiple of one half: the floats of the program are
    dyadic numbers, on which its additions and products are exact. *)
Lemma executar_exato (o : nat) (x0 y0 : Z) (a : Assets) (acts : list Acao) :
  passaro_exato (executar CFG acts (Passaro.init o x0 y0 a)).
Proof.
  unfold executar.
  assert (H : passaro_exato (Passaro.init o x0 y0 a)).
  { split; [now left | apply meio_inteiro_Z]. }
  revert H. generalize (Passaro.init o x0 y0 a) as p.
  induction acts as [| act acts IH]; intros p H; [exact H |].
  apply IH, aplicar_exato, H.
Qed.

(** ** The rotation of the bird *)

(** The angles a bird can have. *)
Lemma girar_angles (d y1 inicio : Q) (ang : Z) :
  In ang [25; 5; -15; -35; -55; -75; -95; 0; -20; -40; -60; -80] ->
  In (Passaro.girar CFG d y1 inicio ang)
     [25; 5; -15; -35; -55; -75; -95; 0; -20; -40; -60; -80].
Proof.
  intros Hin. unfold Passaro.girar.
  destruct (Qltb d 0 || Qltb y1 (inicio + 50)%Q);
    repeat (destruct Hin as [<- | Hin]; [vm_compute; tauto |]);
    destruct Hin.
Qed.

Lemma aplicar_angles (p : Passaro.t) (a : Acao) :
  In (Passaro.angulo p)
     [25; 5; -15; -35; -55; -75; -95; 0; -20; -40; -60; -80] ->
  In (Passaro.angulo (aplicar CFG p a))
     [25; 5; -15; -35; -55; -75; -95; 0; -20; -40; -60; -80].
Proof.
  intros Hin. destruct a.
  - apply girar_angles, Hin.
  - exact Hin.
  - unfold aplicar, Passaro.desenhar.
    repeat match goal with
           | |- context [if ?c then _ else _] => destruct c
           end; exact Hin.
Qed.

Lemma executar_angles (acts : list Acao) (p : Passaro.t) :
  In (Passaro.angulo p)
     [25; 5; -15; -35; -55; -75; -95; 0; -20; -40; -60; -80] ->
  In (Passaro.angulo (executar CFG acts p))
     [25; 5; -15; -35; -55; -75; -95; 0; -20; -40; -60; -80].
Proof.
  revert p. induction acts as [| a acts IH]; intros p Hin; [exact Hin |].
  apply IH, aplicar_angles, Hin.
Qed.

(** C3, as the code has it.  Whatever happens to a bird, its angle is at
    most the maximum 25 and at least -95; below the minimum -80 the only
    angle it takes is -95. *)
Theorem angulo_bounds (o : nat) (x0 y0 : Z) (a : Assets)
  (acts : list Acao) :
  let p := executar CFG acts (Passaro.init o x0 y0 a) in
  -95 <= Passaro.angulo p <= ROTACAO_MAXIMA CFG
  /\ (Passaro.angulo p < ANGULO_MIN_ASA CFG -> Passaro.angulo p = -95).
Proof.
  intro p.
  assert (Hin : In (Passaro.angulo p)
                   [25; 5; -15; -35; -55; -75; -95; 0; -20; -40; -60; -80]).
  { apply executar_angles. simpl. tauto. }
  change (ROTACAO_MAXIMA CFG) with 25. change (ANGULO_MIN_ASA CFG) with (-80).
  repeat (destruct Hin as [<- | Hin]; [lia |]). destruct Hin.
Qed.

(** C3, counterexample.  A new bird left to fall for ten ticks has the
    angle -95, below the minimum -80. *)
Lemma angulo_below_minimum :
  Passaro.angulo (executar CFG (repeat AMover 10) exemplo_passaro) = -95
  /\ Passaro.angulo (executar CFG (repeat AMover 10) exemplo_passaro)
     < ANGULO_MIN_ASA CFG.
Proof. split; vm_compute; reflexivity. Qed.

(** ** Lists of objects *)

Lemma remove_first_In {A : Type} (same : A -> bool) (l : list A) (a : A) :
  In a (remove_first same l) -> In a l.
Proof.
  induction l as [| b l IH]; simpl; [tauto |].
  destruct (same b); simpl; intuition.
Qed.

Lemma remove_first_In_map {A K : Type} (key : A -> K) (same : A -> bool)
  (l : list A) (k : K) :
  In k (map key (remove_first same l)) -> In k (map key l).
Proof.
  rewrite !in_map_iff. intros (a & Ha & Hin).
  exists a. split; [exact Ha | now apply remove_first_In in Hin].
Qed.

Lemma remove_first_NoDup {A K : Type} (key : A -> K) (same : A -> bool)
  (l : list A) :
  NoDup (map key l) -> NoDup (map key (remove_first same l)).
Proof.
  induction l as [| b l IH]; simpl; intros Hnd; [exact Hnd |].
  inversion Hnd as [| ? ? Hnot Hnd']; subst.
  destruct (same b); [exact Hnd' |].
  simpl. constructor; [| now apply IH].
  intros Hin. apply Hnot. now apply remove_first_In_map in Hin.
Qed.

Lemma remove_first_keeps {A : Type} (same : A -> bool) (l : list A) (a : A) :
  In a l -> same a = false -> In a (remove_first same l).
Proof.
  induction l as [| b l IH]; simpl; [tauto |].
  intros [-> | Hin] Hs.
  - rewrite Hs. now left.
  - destruct (same b); [exact Hin | right; now apply IH].
Qed.

Lemma remove_first_filter_length {A : Type} (same f : A -> bool)
  (l : list A) :
  (length (filter f (remove_first same l)) <= length (filter f l))%nat.
Proof.
  induction l as [| b l IH]; simpl; [lia |].
  destruct (same b); simpl; destruct (f b); simpl; lia.
Qed.

Lemma remove_first_Forall {A : Type} (same : A -> bool) (P : A -> Prop)
  (l : list A) :
  Forall P l -> Forall P (remove_first same l).
Proof.
  rewrite !Forall_forall. intros H a Ha. apply H.
  now apply remove_first_In in Ha.
Qed.

(** Removing an object from a list of distinct objects leaves no object
    of that identity. *)
Lemma remover_passaro_gone (p : Passaro.t) (l : list Passaro.t) :
  NoDup (map Passaro.oid l) ->
  ~ In (Passaro.oid p) (map Passaro.oid (remover_passaro p l)).
Proof.
  unfold remover_passaro.
  induction l as [| q l IH]; simpl; intros Hnd; [tauto |].
  inversion Hnd as [| ? ? Hnot Hnd']; subst.
  unfold Passaro.same at 1.
  destruct (Nat.eqb_spec (Passaro.oid p) (Passaro.oid q)) as [E | E].
  - rewrite E. exact Hnot.
  - simpl. intros [H | H]; [congruence | now apply IH].
Qed.

Lemma contem_passaro_false (p : Passaro.t) (l : list Passaro.t) :
  contem_passaro p l = false -> ~ In (Passaro.oid p) (map Passaro.oid l).
Proof.
  unfold contem_passaro. intros Hex Hin.
  apply in_map_iff in Hin. destruct Hin as (q & Hq & Hin).
  assert (Hc : existsb (Passaro.same p) l = true).
  { apply existsb_exists. exists q. split; [exact Hin |].
    unfold Passaro.same. rewrite Hq. apply Nat.eqb_refl. }
  congruence.
Qed.

(** ** The inner loop *)

Lemma retirar_colidido_In (cano : Cano.t) (vivos : list Passaro.t)
  (p q : Passaro.t) :
  In q (retirar_colidido cano vivos p) -> In q vivos.
Proof.
  unfold retirar_colidido, remover_passaro.
  destruct (Cano.colidir cano p); [| tauto].
  destruct (contem_passaro p vivos); [| tauto].
  apply remove_first_In.
Qed.

Lemma retirar_colidido_NoDup (cano : Cano.t) (vivos : list Passaro.t)
  (p : Passaro.t) :
  NoDup (map Passaro.oid vivos) ->
  NoDup (map Passaro.oid (retirar_colidido cano vivos p)).
Proof.
  unfold retirar_colidido, remover_passaro. intros Hnd.
  destruct (Cano.colidir cano p); [| exact Hnd].
  destruct (contem_passaro p vivos); [| exact Hnd].
  now apply remove_first_NoDup.
Qed.

Lemma retirar_colidido_gone (cano : Cano.t) (vivos : list Passaro.t)
  (p : Passaro.t) :
  NoDup (map Passaro.oid vivos) ->
  Cano.colidir cano p = true ->
  ~ In (Passaro.oid p) (map Passaro.oid (retirar_colidido cano vivos p)).
Proof.
  unfold retirar_colidido. intros Hnd ->.
  destruct (contem_passaro p vivos) eqn:E.
  - now apply remover_passaro_gone.
  - now apply contem_passaro_false.
Qed.

Lemma fold_retirar_In (cano : Cano.t) (copia vivos : list Passaro.t)
  (q : Passaro.t) :
  In q (fold_left (retirar_colidido cano) copia vivos) -> In q vivos.
Proof.
  revert vivos. induction copia as [| p copia IH]; simpl; intros vivos H;
    [exact H |].
  apply IH in H. now apply retirar_colidido_In in H.
Qed.

Lemma fold_retirar_NoDup (cano : Cano.t) (copia vivos : list Passaro.t) :
  NoDup (map Passaro.oid vivos) ->
  NoDup (map Passaro.oid (fold_left (retirar_colidido cano) copia vivos)).
Proof.
  revert vivos. induction copia as [| p copia IH]; simpl; intros vivos H;
    [exact H |].
  apply IH. now apply retirar_colidido_NoDup.
Qed.

Lemma fold_retirar_oid (cano : Cano.t) (copia vivos : list Passaro.t)
  (o : nat) :
  In o (map Passaro.oid (fold_left (retirar_colidido cano) copia vivos)) ->
  In o (map Passaro.oid vivos).
Proof.
  rewrite !in_map_iff. intros (q & Hq & Hin).
  exists q. split; [exact Hq | now apply fold_retirar_In in Hin].
Qed.

(** A bird of the copy that collides is in the live list no more when the
    loop ends. *)
Lemma fold_retirar_gone (cano : Cano.t) (copia vivos : list Passaro.t)
  (p : Passaro.t) :
  NoDup (map Passaro.oid vivos) ->
  In p copia ->
  Cano.colidir cano p = true ->
  ~ In (Passaro.oid p)
       (map Passaro.oid (fold_left (retirar_colidido cano) copia vivos)).
Proof.
  revert vivos. induction copia as [| q copia IH]; simpl;
    intros vivos Hnd Hin Hcol; [tauto |].
  destruct Hin as [-> | Hin].
  - intros H. apply fold_retirar_oid in H.
    now apply (retirar_colidido_gone cano vivos p).
  - apply IH; [now apply retirar_colidido_NoDup | exact Hin | exact Hcol].
Qed.

(** A bird that collides with no pipe of identity its own stays. *)
Lemma fold_retirar_keeps (cano : Cano.t) (copia vivos : list Passaro.t)
  (p : Passaro.t) :
  In p vivos ->
  (forall q, In q copia -> Passaro.oid q = Passaro.oid p ->
             Cano.colidir cano q = false) ->
  In p (fold_left (retirar_colidido cano) copia vivos).
Proof.
  revert vivos. induction copia as [| q copia IH]; simpl;
    intros vivos Hin Hsafe; [exact Hin |].
  apply IH; [| intros; apply Hsafe; auto].
  unfold retirar_colidido.
  destruct (Cano.colidir cano q) eqn:Hcol; [| exact Hin].
  destruct (contem_passaro q vivos); [| exact Hin].
  apply remove_first_keeps; [exact Hin |].
  unfold Passaro.same.
  destruct (Nat.eqb_spec (Passaro.oid q) (Passaro.oid p)) as [E | E];
    [| reflexivity].
  rewrite (Hsafe q (or_introl eq_refl) E) in Hcol. discriminate.
Qed.

(** The inner loop in closed form. *)
Lemma fold_verificar_passaro (copia vivos : list Passaro.t) (cano : Cano.t)
  (adicionar : bool) :
  fold_left verificar_passaro copia (vivos, cano, adicionar)
  = (fold_left (retirar_colidido cano) copia vivos,
     cano_apos cano copia,
     adicionar || existsb (cruza cano) copia).
Proof.
  revert vivos cano adicionar.
  induction copia as [| p copia IH]; intros vivos cano adicionar.
  - simpl. unfold cano_apos. simpl. now rewrite orb_false_r.
  - cbn [fold_left]. unfold verificar_passaro at 2.
    fold (retirar_colidido cano vivos p). fold (cruza cano p).
    unfold cano_apos. cbn [existsb].
    destruct (cruza cano p) eqn:Hc.
    + rewrite IH. unfold cano_apos.
      assert (Hno : existsb (cruza (Cano.marcar_passou cano)) copia = false).
      { clear. induction copia as [| q copia IHc]; [reflexivity |].
        simpl. exact IHc. }
      rewrite Hno. simpl. rewrite !orb_true_r. reflexivity.
    + rewrite IH. unfold cano_apos. simpl. reflexivity.
Qed.

(** ** The outer loop *)

Lemma verificar_cano_eq (cfg : Config) (v : Varredura) (cano : Cano.t) :
  verificar_cano cfg v cano
  = let cano2 := Cano.mover cfg (cano_apos cano (v_passaros v)) in
    mkVarredura
      (v_canos v ++ [cano2])
      (fold_left (retirar_colidido cano) (v_passaros v) (v_passaros v))
      (v_adicionar v || existsb (cruza cano) (v_passaros v))
      (if Cano.x cano2 + get_width (Cano.CANO_TOPO cano2) <? 0
       then v_remover v ++ [cano2] else v_remover v).
Proof.
  unfold verificar_cano. rewrite fold_verificar_passaro. reflexivity.
Qed.

Lemma cano_apos_evolui (cfg : Config) (c : Cano.t) (ps : list Passaro.t) :
  evolui cfg c (Cano.mover cfg (cano_apos c ps))
  /\ virou (c, Cano.mover cfg (cano_apos c ps)) = existsb (cruza c) ps.
Proof.
  unfold cano_apos, evolui, virou.
  destruct (existsb (cruza c) ps) eqn:E.
  - apply existsb_exists in E. destruct E as (p & _ & Hp).
    unfold cruza in Hp. apply andb_true_iff in Hp. destruct Hp as [Hp _].
    apply negb_true_iff in Hp. split.
    + right. split; [exact Hp | reflexivity].
    + simpl. rewrite Hp. reflexivity.
  - split; [now left |]. simpl. now destruct (Cano.passou c).
Qed.

Lemma evolui_oid (cfg : Config) (c c' : Cano.t) :
  evolui cfg c c' -> Cano.oid c' = Cano.oid c.
Proof. intros [-> | [_ ->]]; reflexivity. Qed.

Lemma evolui_gap (cfg : Config) (c c' : Cano.t) :
  evolui cfg c c' ->
  Cano.altura c' = Cano.altura c
  /\ Cano.pos_topo c' = Cano.pos_topo c
  /\ Cano.pos_base c' = Cano.pos_base c.
Proof. intros [-> | [_ ->]]; repeat split. Qed.

Lemma evolui_passou (cfg : Config) (c c' : Cano.t) :
  evolui cfg c c' -> Cano.passou c = true -> Cano.passou c' = true.
Proof. intros [-> | [H ->]]; simpl; congruence. Qed.

Lemma transicoes_cons (c c' : Cano.t) (cs cs' : list Cano.t) :
  transicoes (c :: cs) (c' :: cs')
  = ((if virou (c, c') then 1 else 0) + transicoes cs cs')%nat.
Proof.
  unfold transicoes. simpl. destruct (virou (c, c')); reflexivity.
Qed.

(** What the loop over the pipes [cs] makes of the state [v]. *)
Lemma fold_verificar_cano (cfg : Config) (cs : list Cano.t) (v : Varredura) :
  let v' := fold_left (verificar_cano cfg) cs v in
  exists cs' rs : list Cano.t,
    v_canos v' = v_canos v ++ cs'
    /\ Forall2 (evolui cfg) cs cs'
    /\ v_adicionar v' = v_adicionar v || (0 <? transicoes cs cs')%nat
    /\ v_remover v' = v_remover v ++ rs
    /\ incl rs cs'
    /\ (forall q, In q (v_passaros v') -> In q (v_passaros v))
    /\ (NoDup (map Passaro.oid (v_passaros v)) ->
        NoDup (map Passaro.oid (v_passaros v'))).
Proof.
  revert v. induction cs as [| c cs IH]; intros v; cbn zeta.
  - exists [], []. simpl. rewrite !app_nil_r, orb_false_r.
    repeat split; auto using incl_refl.
  - cbn [fold_left]. rewrite verificar_cano_eq. cbn zeta.
    set (c2 := Cano.mover cfg (cano_apos c (v_passaros v))).
    match goal with
    | |- context [fold_left _ cs ?w] => specialize (IH w)
    end.
    cbn zeta in IH.
    destruct IH as (cs' & rs & Hc & Hev & Had & Hr & Hin & Hps & Hnd).
    cbn [v_canos v_adicionar v_remover v_passaros] in Hc, Had, Hr, Hps, Hnd.
    destruct (cano_apos_evolui cfg c (v_passaros v)) as [Hev1 Hfl].
    fold c2 in Hev1, Hfl.
    exists (c2 :: cs').
    exists ((if Cano.x c2 + get_width (Cano.CANO_TOPO c2) <? 0
             then [c2] else []) ++ rs).
    repeat split.
    + rewrite Hc, <- app_assoc. reflexivity.
    + constructor; assumption.
    + rewrite Had, transicoes_cons, Hfl, <- orb_assoc. f_equal.
      destruct (existsb (cruza c) (v_passaros v)); simpl; [reflexivity |].
      reflexivity.
    + rewrite Hr.
      destruct (Cano.x c2 + get_width (Cano.CANO_TOPO c2) <? 0);
        [rewrite <- app_assoc |]; reflexivity.
    + intros a Ha. apply in_app_or in Ha. destruct Ha as [Ha | Ha].
      * destruct (Cano.x c2 + get_width (Cano.CANO_TOPO c2) <? 0);
          [| destruct Ha].
        destruct Ha as [<- | []]. now left.
      * right. now apply Hin.
    + intros q Hq. apply Hps in Hq. now apply fold_retirar_In in Hq.
    + intros H. apply Hnd. now apply fold_retirar_NoDup.
Qed.

(** The loop of lines 305-320 on the whole session. *)
Lemma varrer_canos_spec (cfg : Config) (ps : list Passaro.t)
  (cs : list Cano.t) :
  let v := varrer_canos cfg ps cs in
  Forall2 (evolui cfg) cs (v_canos v)
  /\ v_adicionar v = (0 <? transicoes cs (v_canos v))%nat
  /\ incl (v_remover v) (v_canos v)
  /\ (forall q, In q (v_passaros v) -> In q ps)
  /\ (NoDup (map Passaro.oid ps) -> NoDup (map Passaro.oid (v_passaros v))).
Proof.
  cbn zeta. unfold varrer_canos.
  destruct (fold_verificar_cano cfg cs (mkVarredura [] ps false []))
    as (cs' & rs & Hc & Hev & Had & Hr & Hin & Hps & Hnd).
  cbn [v_canos v_adicionar v_remover v_passaros app orb] in *.
  rewrite Hc, Had, Hr. repeat split; assumption.
Qed.

(** ** The random draw and the construction of a pipe *)

Lemma randrange_ok (start stop : Z) (g : Rng) :
  start < stop ->
  exists k : Z,
    randrange start stop g = Ok (k, mkRng (tape g) (S (cursor g)))
    /\ start <= k < stop.
Proof.
  intros Hlt. unfold randrange, randbelow.
  destruct (Z.ltb_spec 0 (stop - start)) as [Hw | Hw]; [| lia].
  eexists. split; [reflexivity |].
  pose proof (Z.mod_pos_bound (tape g (cursor g)) (stop - start) Hw). lia.
Qed.

Lemma randrange_empty (start stop : Z) (g : Rng) :
  stop <= start -> randrange start stop g = Raise ValueError.
Proof.
  intros Hle. unfold randrange.
  destruct (Z.ltb_spec 0 (stop - start)) as [Hw | Hw]; [lia | reflexivity].
Qed.

(** Every value of the half-open range is drawn by some generator. *)
Lemma randrange_reaches (start stop v : Z) :
  start <= v < stop ->
  exists g' : Rng,
    randrange start stop (mkRng (fun _ => v - start) 0) = Ok (v, g').
Proof.
  intros Hv. unfold randrange, randbelow. simpl.
  destruct (Z.ltb_spec 0 (stop - start)) as [Hw | Hw]; [| lia].
  eexists. rewrite Z.mod_small by lia. f_equal. f_equal. lia.
Qed.

Lemma definir_altura_ok (cfg : Config) (c : Cano.t) (g : Rng) :
  CANO_ALTURA_MIN cfg < CANO_ALTURA_MAX cfg ->
  exists h : Z,
    CANO_ALTURA_MIN cfg <= h < CANO_ALTURA_MAX cfg
    /\ Cano.definir_altura cfg c g
       = Ok (Cano.mk (Cano.oid c) (Cano.x c) (Cano.assets c) h
                     (h - get_height (Cano.CANO_TOPO c))
                     (h + DISTANCIA_CANO cfg)
                     (Cano.CANO_TOPO c) (Cano.CANO_BASE c) (Cano.passou c),
             mkRng (tape g) (S (cursor g))).
Proof.
  intros Hlt. unfold Cano.definir_altura.
  destruct (randrange_ok _ _ g Hlt) as (h & -> & Hh).
  exists h. split; [exact Hh | reflexivity].
Qed.

Lemma Cano_init_ok (cfg : Config) (o : nat) (x0 : Z) (a : Assets) (g : Rng) :
  CANO_ALTURA_MIN cfg < CANO_ALTURA_MAX cfg ->
  exists (c : Cano.t) (g' : Rng),
    Cano.init cfg o x0 a g = Ok (c, g')
    /\ Cano.oid c = o /\ Cano.x c = x0 /\ Cano.passou c = false
    /\ CANO_ALTURA_MIN cfg <= Cano.altura c < CANO_ALTURA_MAX cfg.
Proof.
  intros Hlt. unfold Cano.init.
  match goal with
  | |- context [Cano.definir_altura cfg ?c0 g] =>
      destruct (definir_altura_ok cfg c0 g Hlt) as (h & Hh & ->)
  end.
  do 2 eexists. split; [reflexivity |]. simpl. auto.
Qed.

Lemma Cano_init_raise (cfg : Config) (o : nat) (x0 : Z) (a : Assets)
  (g : Rng) :
  CANO_ALTURA_MAX cfg <= CANO_ALTURA_MIN cfg ->
  Cano.init cfg o x0 a g = Raise ValueError.
Proof.
  intros Hle. unfold Cano.init, Cano.definir_altura.
  now rewrite randrange_empty.
Qed.

Lemma CFG_range : CANO_ALTURA_MIN CFG < CANO_ALTURA_MAX CFG.
Proof. reflexivity. Qed.

(** ** [reset] *)

Lemma reset_ok (cfg : Config) (g : Game) :
  CANO_ALTURA_MIN cfg < CANO_ALTURA_MAX cfg ->
  exists (c : Cano.t) (r : Rng),
    Cano.init cfg (S (next_oid g)) 700 (assets g) (rng g) = Ok (c, r)
    /\ reset cfg g
       = Ok (mkGame (assets g)
                    [Passaro.init (next_oid g) 230 350 (assets g)]
                    (Chao.init cfg 730 (assets g))
                    [c] 0 true r (S (S (next_oid g)))).
Proof.
  intros Hlt. unfold reset.
  destruct (Cano_init_ok cfg (S (next_oid g)) 700 (assets g) (rng g) Hlt)
    as (c & r & Hc & _).
  exists c, r. rewrite Hc. split; reflexivity.
Qed.

Lemma reset_bem_formado (cfg : Config) (g g' : Game) :
  reset cfg g = Ok g' -> bem_formado g'.
Proof.
  unfold reset.
  destruct (Cano.init cfg (S (next_oid g)) 700 (assets g) (rng g))
    as [[c r] | e] eqn:Hc; simpl; [| discriminate].
  intros [= <-]. unfold bem_formado. simpl.
  assert (Ho : Cano.oid c = S (next_oid g)).
  { unfold Cano.init, Cano.definir_altura in Hc.
    destruct (randrange _ _ _) as [[h r'] | e]; simpl in Hc;
      [| discriminate].
    injection Hc as <- _. reflexivity. }
  repeat split.
  - repeat constructor. simpl. tauto.
  - repeat constructor. simpl. tauto.
  - constructor; [rewrite Ho; lia | constructor].
  - unfold nao_passados. simpl. destruct (Cano.passou c); simpl; lia.
Qed.

(** ** [remover_canos] *)

Lemma remover_canos_In (rs cs : list Cano.t) (c : Cano.t) :
  In c (remover_canos rs cs) -> In c cs.
Proof.
  unfold remover_canos. revert cs.
  induction rs as [| r rs IH]; simpl; intros cs H; [exact H |].
  apply IH in H. destruct (contem_cano r cs); [| exact H].
  now apply remove_first_In in H.
Qed.

Lemma remover_canos_NoDup (rs cs : list Cano.t) :
  NoDup (map Cano.oid cs) -> NoDup (map Cano.oid (remover_canos rs cs)).
Proof.
  unfold remover_canos. revert cs.
  induction rs as [| r rs IH]; simpl; intros cs H; [exact H |].
  apply IH. destruct (contem_cano r cs); [| exact H].
  now apply remove_first_NoDup.
Qed.

Lemma remover_canos_nao_passados (rs cs : list Cano.t) :
  (length (nao_passados (remover_canos rs cs))
   <= length (nao_passados cs))%nat.
Proof.
  unfold remover_canos, nao_passados. revert cs.
  induction rs as [| r rs IH]; simpl; intros cs; [lia |].
  etransitivity; [apply IH |].
  destruct (contem_cano r cs); [| lia].
  apply remove_first_filter_length.
Qed.

(** ** [atualizar_estado], field by field *)

Lemma atualizar_estado_inv (cfg : Config) (g g' : Game) :
  atualizar_estado cfg g = Ok g' ->
  let v := varrer_canos cfg (map (Passaro.mover cfg) (passaros g)) (canos g) in
  passaros g' = verificar_limites (Chao.mover (chao g)) (v_passaros v)
  /\ rodando g' = match passaros g' with
                  | [] => false
                  | _ :: _ => rodando g
                  end
  /\ (if v_adicionar v then
        exists (novo : Cano.t) (r : Rng),
          Cano.init cfg (next_oid g) (TELA_LARGURA cfg + 100) (assets g)
                    (rng g) = Ok (novo, r)
          /\ pontos g' = pontos g + 1
          /\ canos g' = remover_canos (v_remover v) (v_canos v ++ [novo])
          /\ next_oid g' = S (next_oid g)
      else
        pontos g' = pontos g
        /\ canos g' = remover_canos (v_remover v) (v_canos v)
        /\ next_oid g' = next_oid g).
Proof.
  unfold atualizar_estado. cbn zeta.
  set (v := varrer_canos cfg (map (Passaro.mover cfg) (passaros g)) (canos g)).
  destruct (v_adicionar v) eqn:Had.
  - destruct (Cano.init cfg (next_oid g) (TELA_LARGURA cfg + 100) (assets g)
                        (rng g)) as [[novo r] | e] eqn:Hn; simpl;
      [| discriminate].
    intros [= <-]. simpl. repeat split.
    exists novo, r. repeat split.
  - simpl. intros [= <-]. simpl. repeat split.
Qed.

Lemma atualizar_estado_ok (cfg : Config) (g : Game) :
  CANO_ALTURA_MIN cfg < CANO_ALTURA_MAX cfg ->
  exists g' : Game, atualizar_estado cfg g = Ok g'.
Proof.
  intros Hlt. unfold atualizar_estado. cbn zeta.
  destruct (v_adicionar _).
  - destruct (Cano_init_ok cfg (next_oid g) (TELA_LARGURA cfg + 100)
                           (assets g) (rng g) Hlt) as (c & r & -> & _).
    simpl. eexists. reflexivity.
  - simpl. eexists. reflexivity.
Qed.

(** ** Well-formed sessions *)

Lemma evolui_oids (cfg : Config) (cs cs' : list Cano.t) :
  Forall2 (evolui cfg) cs cs' -> map Cano.oid cs' = map Cano.oid cs.
Proof.
  induction 1 as [| c c' cs cs' Hev _ IH]; simpl; [reflexivity |].
  now rewrite IH, (evolui_oid cfg c c' Hev).
Qed.

(** Each transition takes one pipe out of those not passed. *)
Lemma evolui_nao_passados (cfg : Config) (cs cs' : list Cano.t) :
  Forall2 (evolui cfg) cs cs' ->
  (length (nao_passados cs') + transicoes cs cs'
   = length (nao_passados cs))%nat.
Proof.
  induction 1 as [| c c' cs cs' Hev _ IH]; [reflexivity |].
  rewrite transicoes_cons. unfold nao_passados in *. simpl.
  unfold virou. simpl.
  destruct Hev as [-> | [Hp ->]].
  - simpl. destruct (Cano.passou c); simpl; lia.
  - simpl. rewrite Hp. simpl. lia.
Qed.

Lemma evolui_In (cfg : Config) (cs cs' : list Cano.t) (c' : Cano.t) :
  Forall2 (evolui cfg) cs cs' -> In c' cs' ->
  exists c : Cano.t, In c cs /\ evolui cfg c c'.
Proof.
  induction 1 as [| c0 c0' cs cs' Hev _ IH]; simpl; [tauto |].
  intros [<- | Hin].
  - exists c0. auto.
  - destruct (IH Hin) as (c & Hc & He). exists c. auto.
Qed.

Lemma Cano_init_inv (cfg : Config) (o : nat) (x0 : Z) (a : Assets)
  (r r' : Rng) (c : Cano.t) :
  Cano.init cfg o x0 a r = Ok (c, r') ->
  Cano.oid c = o /\ Cano.x c = x0 /\ Cano.passou c = false
  /\ Cano.pos_topo c = Cano.altura c - get_height (Cano.CANO_TOPO c)
  /\ Cano.pos_base c = Cano.altura c + DISTANCIA_CANO cfg
  /\ CANO_ALTURA_MIN cfg <= Cano.altura c < CANO_ALTURA_MAX cfg.
Proof.
  unfold Cano.init, Cano.definir_altura, randrange, randbelow.
  destruct (Z.ltb_spec 0 (CANO_ALTURA_MAX cfg - CANO_ALTURA_MIN cfg))
    as [Hw | Hw]; simpl; [| discriminate].
  intros [= <- _]. simpl. repeat split; try reflexivity.
  - pose proof (Z.mod_pos_bound (tape r (cursor r)) _ Hw). lia.
  - pose proof (Z.mod_pos_bound (tape r (cursor r)) _ Hw). lia.
Qed.

Lemma fold_verificar_limite_In (ch : Chao.t) (copia vivos : list Passaro.t)
  (q : Passaro.t) :
  In q (fold_left (verificar_limite ch) copia vivos) -> In q vivos.
Proof.
  revert vivos.
  induction copia as [| p copia IH]; simpl; intros vivos H; [exact H |].
  apply IH in H. unfold verificar_limite in H.
  destruct (_ || _); [| exact H].
  destruct (contem_passaro p vivos); [| exact H].
  now apply remove_first_In in H.
Qed.

Lemma verificar_limites_In (ch : Chao.t) (ps : list Passaro.t)
  (q : Passaro.t) :
  In q (verificar_limites ch ps) -> In q ps.
Proof. apply fold_verificar_limite_In. Qed.

Lemma fold_verificar_limite_NoDup (ch : Chao.t)
  (copia vivos : list Passaro.t) :
  NoDup (map Passaro.oid vivos) ->
  NoDup (map Passaro.oid (fold_left (verificar_limite ch) copia vivos)).
Proof.
  revert vivos.
  induction copia as [| p copia IH]; simpl; intros vivos H; [exact H |].
  apply IH. unfold verificar_limite.
  destruct (_ || _); [| exact H].
  destruct (contem_passaro p vivos); [| exact H].
  now apply remove_first_NoDup.
Qed.

Lemma verificar_limites_NoDup (ch : Chao.t) (ps : list Passaro.t) :
  NoDup (map Passaro.oid ps) ->
  NoDup (map Passaro.oid (verificar_limites ch ps)).
Proof. apply fold_verificar_limite_NoDup. Qed.

Lemma map_oid_mover (cfg : Config) (ps : list Passaro.t) :
  map Passaro.oid (map (Passaro.mover cfg) ps) = map Passaro.oid ps.
Proof. rewrite map_map. reflexivity. Qed.

Lemma map_oid_pular (cfg : Config) (ps : list Passaro.t) :
  map Passaro.oid (map (Passaro.pular cfg) ps) = map Passaro.oid ps.
Proof. rewrite map_map. reflexivity. Qed.

Lemma map_oid_desenhar (cfg : Config) (ps : list Passaro.t) :
  map Passaro.oid (map (Passaro.desenhar cfg) ps) = map Passaro.oid ps.
Proof.
  rewrite map_map. apply map_ext. intros p. unfold Passaro.desenhar.
  repeat match goal with
         | |- context [if ?c then _ else _] => destruct c
         end; reflexivity.
Qed.

(** One tick keeps the session well formed and its pipes stable, and adds
    to the score the number of transitions of the flag, which is 0 or 1. *)
Lemma atualizar_estado_step (cfg : Config) (g g' : Game) :
  bem_formado g ->
  atualizar_estado cfg g = Ok g' ->
  bem_formado g'
  /\ estavel g g'
  /\ (transicoes (canos g) (canos_varridos cfg g) <= 1)%nat
  /\ pontos g' = pontos g
                 + Z.of_nat (transicoes (canos g) (canos_varridos cfg g)).
Proof.
  intros (Hbp & Hbc & Hbo & Hbn) Hok.
  apply atualizar_estado_inv in Hok. cbn zeta in Hok.
  destruct Hok as (Hps & _ & Hcase).
  unfold canos_varridos.
  set (v := varrer_canos cfg (map (Passaro.mover cfg) (passaros g))
                         (canos g)) in *.
  destruct (varrer_canos_spec cfg (map (Passaro.mover cfg) (passaros g))
                              (canos g))
    as (Hev & Had & Hrem & Hsub & Hnd).
  fold v in Hev, Had, Hrem, Hsub, Hnd.
  pose proof (evolui_oids cfg _ _ Hev) as Hoids.
  pose proof (evolui_nao_passados cfg _ _ Hev) as Hcount.
  assert (Hbirds : NoDup (map Passaro.oid (passaros g'))).
  { rewrite Hps. apply verificar_limites_NoDup, Hnd.
    now rewrite map_oid_mover. }
  assert (Hold : forall c', In c' (v_canos v) ->
            exists c, In c (canos g) /\ Cano.oid c' = Cano.oid c
              /\ Cano.altura c' = Cano.altura c
              /\ Cano.pos_topo c' = Cano.pos_topo c
              /\ Cano.pos_base c' = Cano.pos_base c
              /\ (Cano.passou c = true -> Cano.passou c' = true)).
  { intros c' Hin. destruct (evolui_In cfg _ _ c' Hev Hin) as (c & Hc & He).
    exists c. split; [exact Hc |]. split; [now apply (evolui_oid cfg) |].
    destruct (evolui_gap cfg c c' He) as (H1 & H2 & H3).
    repeat split; try assumption. now apply (evolui_passou cfg). }
  assert (Hlt : Forall (fun c => (Cano.oid c < next_oid g)%nat) (v_canos v)).
  { apply Forall_forall. intros c' Hin.
    destruct (Hold c' Hin) as (c & Hc & Ho & _). rewrite Ho.
    rewrite Forall_forall in Hbo. now apply Hbo. }
  destruct (v_adicionar v) eqn:Hv.
  - destruct Hcase as (novo & r & Hinit & Hpts & Hcs & Hnext).
    apply Cano_init_inv in Hinit.
    destruct Hinit as (Hno & _ & Hnp & _).
    symmetry in Had. apply Nat.ltb_lt in Had.
    assert (Ht : transicoes (canos g) (v_canos v) = 1%nat) by lia.
    rewrite Ht. repeat split; try assumption; try lia.
    + rewrite Hcs. apply remover_canos_NoDup. rewrite map_app. simpl.
      apply NoDup_app.
      * now rewrite Hoids.
      * repeat constructor. simpl. tauto.
      * intros o Ho [<- | []]. apply in_map_iff in Ho.
        destruct Ho as (c & Hc & Hin). rewrite Forall_forall in Hlt.
        specialize (Hlt c Hin). lia.
    + rewrite Hcs, Hnext. apply Forall_forall. intros c Hin.
      apply remover_canos_In in Hin. apply in_app_or in Hin.
      destruct Hin as [Hin | [<- | []]]; [| lia].
      rewrite Forall_forall in Hlt. specialize (Hlt c Hin). lia.
    + rewrite Hcs.
      etransitivity; [apply remover_canos_nao_passados |].
      unfold nao_passados in *. rewrite filter_app, length_app. simpl.
      rewrite Hnp. simpl. lia.
    + intros c' Hin. rewrite Hcs in Hin. apply remover_canos_In in Hin.
      apply in_app_or in Hin. destruct Hin as [Hin | [<- | []]].
      * left. now apply Hold.
      * right. lia.
  - destruct Hcase as (Hpts & Hcs & Hnext).
    symmetry in Had. apply Nat.ltb_ge in Had.
    assert (Ht : transicoes (canos g) (v_canos v) = 0%nat) by lia.
    rewrite Ht. repeat split; try assumption; try lia.
    + rewrite Hcs. apply remover_canos_NoDup. now rewrite Hoids.
    + rewrite Hcs, Hnext. apply Forall_forall. intros c Hin.
      apply remover_canos_In in Hin.
      rewrite Forall_forall in Hlt. now apply Hlt.
    + rewrite Hcs.
      etransitivity; [apply remover_canos_nao_passados |]. lia.
    + intros c' Hin. rewrite Hcs in Hin. apply remover_canos_In in Hin.
      left. now apply Hold.
Qed.

Lemma estavel_refl (g : Game) : estavel g g.
Proof.
  split; [lia |]. intros c Hin. left. exists c. repeat split; auto.
Qed.

Lemma estavel_same_canos (g g' : Game) :
  canos g' = canos g -> next_oid g' = next_oid g -> estavel g g'.
Proof.
  intros Hc Hn. split; [lia |]. intros c Hin. rewrite Hc in Hin.
  left. exists c. repeat split; auto.
Qed.

Lemma estavel_trans (g1 g2 g3 : Game) :
  estavel g1 g2 -> estavel g2 g3 -> estavel g1 g3.
Proof.
  intros [Hn1 H1] [Hn2 H2]. split; [lia |].
  intros c3 Hin.
  destruct (H2 c3 Hin) as [(c2 & Hc2 & Ho & Ha & Ht & Hb & Hp) | Hnew];
    [| right; lia].
  destruct (H1 c2 Hc2) as [(c1 & Hc1 & Ho1 & Ha1 & Ht1 & Hb1 & Hp1) | Hnew];
    [| right; lia].
  left. exists c1. repeat split; try congruence. auto.
Qed.

Lemma reset_estavel (cfg : Config) (g g' : Game) :
  reset cfg g = Ok g' -> estavel g g'.
Proof.
  unfold reset.
  destruct (Cano.init cfg (S (next_oid g)) 700 (assets g) (rng g))
    as [[c r] | e] eqn:Hc; simpl; [| discriminate].
  intros [= <-]. apply Cano_init_inv in Hc. destruct Hc as (Ho & _).
  split; simpl; [lia |].
  intros c' [<- | []]. right. lia.
Qed.

Lemma processar_evento_step (cfg : Config) (g g' : Game) (e : Evento) :
  bem_formado g ->
  processar_evento cfg g e = Ok g' ->
  bem_formado g' /\ estavel g g'.
Proof.
  intros Hbf. destruct e as [| [| | |] |]; simpl; intros H.
  - injection H as <-.
    split; [exact Hbf | now apply estavel_same_canos].
  - injection H as <-. split; [| now apply estavel_same_canos].
    destruct Hbf as (Hp & Hrest). split; [| exact Hrest].
    change (NoDup (map Passaro.oid (map (Passaro.pular cfg) (passaros g)))).
    now rewrite map_oid_pular.
  - split; [now apply (reset_bem_formado cfg g)
           | now apply (reset_estavel cfg)].
  - injection H as <-. split; [exact Hbf | apply estavel_refl].
  - injection H as <-. split; [exact Hbf | apply estavel_refl].
  - injection H as <-. split; [exact Hbf | apply estavel_refl].
Qed.

Lemma processar_eventos_step (cfg : Config) (evs : list Evento)
  (g g' : Game) :
  bem_formado g ->
  processar_eventos cfg evs g = Ok g' ->
  bem_formado g' /\ estavel g g'.
Proof.
  revert g. induction evs as [| e evs IH]; simpl; intros g Hbf H.
  - injection H as <-. split; [exact Hbf | apply estavel_refl].
  - destruct (processar_evento cfg g e) as [g1 | ex] eqn:He; simpl in H;
      [| discriminate].
    destruct (processar_evento_step cfg g g1 e Hbf He) as [Hbf1 Hs1].
    destruct (IH g1 Hbf1 H) as [Hbf' Hs2].
    split; [exact Hbf' | now apply (estavel_trans g g1 g')].
Qed.

Lemma passo_step (cfg : Config) (g g' : Game) (s : Passo) :
  bem_formado g ->
  passo cfg g s = Ok g' ->
  bem_formado g' /\ estavel g g'.
Proof.
  intros Hbf. destruct s as [evs | |]; simpl; intros H.
  - now apply (processar_eventos_step cfg evs).
  - destruct (atualizar_estado_step cfg g g' Hbf H) as (H1 & H2 & _).
    auto.
  - injection H as <-. split; [| now apply estavel_same_canos].
    destruct Hbf as (Hp & Hrest). split; [| exact Hrest].
    change (NoDup (map Passaro.oid
                       (map (Passaro.desenhar cfg) (passaros g)))).
    now rewrite map_oid_desenhar.
Qed.

(** Every session of a run is well formed. *)
Lemma alcancavel_bem_formado (cfg : Config) (g : Game) :
  alcancavel cfg g -> bem_formado g.
Proof.
  induction 1 as [a r g Hinit | g s g' _ IH Hs].
  - unfold Game_init in Hinit. now apply reset_bem_formado in Hinit.
  - now apply (passo_step cfg g g' s).
Qed.

(** The sample session with two birds is well formed. *)
Lemma exemplo_dois_bem_formado : bem_formado exemplo_dois.
Proof.
  unfold bem_formado. simpl. repeat split.
  - repeat constructor; simpl; intuition discriminate.
  - repeat constructor; simpl; intuition.
  - repeat constructor.
  - lia.
Defined.

(** The sample session with one bird against a barrier is well formed. *)
Lemma exemplo_colisao_bem_formado : bem_formado exemplo_colisao.
Proof.
  unfold bem_formado. simpl. repeat split.
  - repeat constructor; simpl; intuition.
  - repeat constructor; simpl; intuition.
  - repeat constructor.
  - lia.
Defined.

(** ** The gap of a pipe *)

(** The height drawn is the minimum plus the result of [_randbelow]. *)
Lemma altura_sorteada_eq (c : Cano.t) (r : Rng) :
  altura_sorteada CFG c r
  = Some (CANO_ALTURA_MIN CFG
          + fst (randbelow (CANO_ALTURA_MAX CFG - CANO_ALTURA_MIN CFG) r)).
Proof. reflexivity. Qed.

Lemma randbelow_range (n : Z) (r : Rng) :
  0 < n -> 0 <= fst (randbelow n r) < n.
Proof. intros Hn. unfold randbelow. simpl. now apply Z.mod_pos_bound. Qed.

Lemma vezes_altura_eq (c : Cano.t) (h : Z) (rs : list Rng) :
  vezes_altura CFG c h rs
  = vezes_randbelow (CANO_ALTURA_MAX CFG - CANO_ALTURA_MIN CFG)
                    (h - CANO_ALTURA_MIN CFG) rs.
Proof.
  unfold vezes_altura, vezes_randbelow. f_equal. apply filter_ext.
  intros r. rewrite altura_sorteada_eq.
  set (k := fst (randbelow (CANO_ALTURA_MAX CFG - CANO_ALTURA_MIN CFG) r)).
  destruct (Z.eqb_spec (CANO_ALTURA_MIN CFG + k) h),
           (Z.eqb_spec k (h - CANO_ALTURA_MIN CFG)); (reflexivity || lia).
Qed.

Lemma vezes_randbelow_fora (n k : Z) (rs : list Rng) :
  0 < n -> ~ 0 <= k < n -> vezes_randbelow n k rs = 0%nat.
Proof.
  intros Hn Hk. unfold vezes_randbelow.
  induction rs as [| r rs IH]; [reflexivity |]. cbn [filter].
  pose proof (randbelow_range n r Hn) as Hr.
  destruct (Z.eqb_spec (fst (randbelow n r)) k); [lia | exact IH].
Qed.

(** Where [_randbelow] is uniform, every height of the half-open range is
    drawn equally often and no other height is drawn. *)
Lemma vezes_altura_uniforme (c : Cano.t) (rs : list Rng) (m : nat)
  (h : Z) :
  randbelow_uniforme (CANO_ALTURA_MAX CFG - CANO_ALTURA_MIN CFG) m rs ->
  vezes_altura CFG c h rs
  = if (CANO_ALTURA_MIN CFG <=? h) && (h <? CANO_ALTURA_MAX CFG)
    then m else 0%nat.
Proof.
  intros Hu. rewrite vezes_altura_eq.
  destruct (Z.leb_spec (CANO_ALTURA_MIN CFG) h) as [H1 | H1];
    destruct (Z.ltb_spec h (CANO_ALTURA_MAX CFG)) as [H2 | H2]; cbn [andb];
    try (apply vezes_randbelow_fora; [reflexivity | lia]).
  apply Hu. lia.
Qed.

Lemma seq_add_map (a s b : nat) :
  seq (a + s) b = map (Nat.add a) (seq s b).
Proof.
  revert s. induction b as [| b IH]; intros s; [reflexivity |].
  simpl. f_equal. rewrite <- IH. f_equal. lia.
Qed.

Lemma zrange_app (a b : nat) :
  zrange (Z.of_nat (a + b))
  = zrange (Z.of_nat a)
    ++ map (fun i => Z.of_nat a + i) (zrange (Z.of_nat b)).
Proof.
  unfold zrange. rewrite !Nat2Z.id, seq_app, map_app. f_equal.
  rewrite Nat.add_0_l. rewrite <- (Nat.add_0_r a) at 1.
  rewrite seq_add_map, !map_map. apply map_ext.
  intros i. lia.
Qed.

Lemma length_filter_map {A B : Type} (f : B -> bool) (g : A -> B)
  (l : list A) :
  length (filter f (map g l)) = length (filter (fun x => f (g x)) l).
Proof.
  induction l as [| x l IH]; [reflexivity |]. simpl.
  destruct (f (g x)); simpl; now rewrite IH.
Qed.

(** Each number below [n] is once in [zrange n]. *)
Lemma zrange_uma_vez (k : Z) (n : nat) :
  0 <= k ->
  length (filter (fun v => v =? k) (zrange (Z.of_nat n)))
  = if k <? Z.of_nat n then 1%nat else 0%nat.
Proof.
  intros Hk. induction n as [| n IH].
  - simpl. destruct (Z.ltb_spec k 0); [lia | reflexivity].
  - replace (S n) with (n + 1)%nat by lia.
    rewrite zrange_app, filter_app, length_app, IH.
    change (zrange (Z.of_nat 1)) with [0]. cbn [map filter].
    destruct (Z.ltb_spec k (Z.of_nat n)),
             (Z.ltb_spec k (Z.of_nat (n + 1))),
             (Z.eqb_spec (Z.of_nat n + 0) k); simpl; lia.
Qed.

(** Among the first [m * n] numbers each residue modulo [n] is met [m]
    times. *)
Lemma residuos_uniformes (n m : nat) (k : Z) :
  0 <= k < Z.of_nat n ->
  length (filter (fun v => v mod Z.of_nat n =? k)
                 (zrange (Z.of_nat (m * n))))
  = m.
Proof.
  intros Hk. induction m as [| m IH]; [reflexivity |].
  replace (S m * n)%nat with (m * n + n)%nat by lia.
  rewrite zrange_app, filter_app, length_app, IH, length_filter_map.
  rewrite (filter_ext_in _ (fun v => v =? k)).
  - rewrite zrange_uma_vez by lia.
    destruct (Z.ltb_spec k (Z.of_nat n)); lia.
  - intros i Hi. unfold zrange in Hi. apply in_map_iff in Hi.
    destruct Hi as (j & <- & Hj). apply in_seq in Hj.
    rewrite Nat2Z.inj_mul, Z.add_comm, Z_mod_plus_full.
    rewrite Z.mod_small; [reflexivity | lia].
Qed.

(** Over the raw draws of [m] whole periods [_randbelow(n)] is uniform. *)
Lemma geradores_uniforme (n : Z) (m : nat) :
  0 < n -> randbelow_uniforme n m (geradores (n * Z.of_nat m)).
Proof.
  intros Hn k Hk. unfold vezes_randbelow, geradores.
  rewrite length_filter_map.
  change (length (filter (fun v => v mod n =? k)
                         (zrange (n * Z.of_nat m))) = m).
  replace n with (Z.of_nat (Z.to_nat n)) by lia.
  replace (Z.of_nat (Z.to_nat n) * Z.of_nat m)
    with (Z.of_nat (m * Z.to_nat n)) by lia.
  apply residuos_uniformes. lia.
Qed.

(** C4, as the code has it.  For every state of the random source,
    [definir_altura] succeeds and draws the gap height in the half-open
    range from the minimum 50 to the maximum 450, the maximum left out;
    every height of that range is drawn by some state of the source; the
    lower edge of the upper barrier is above the upper edge of the lower
    barrier, at the gap distance 200 from it; no step of a session changes
    the height or the edges of a pipe it keeps; and the draw is uniform
    on that range: over any generator states on which [_randbelow(400)]
    is uniform, each height from 50 to 449 is drawn equally often and no
    other height is drawn, as it is over the raw draws of any number of
    whole periods. *)
Theorem definir_altura_gap :
  (forall (c : Cano.t) (r : Rng),
      exists (c' : Cano.t) (r' : Rng),
        Cano.definir_altura CFG c r = Ok (c', r')
        /\ CANO_ALTURA_MIN CFG <= Cano.altura c' < CANO_ALTURA_MAX CFG
        /\ Cano.borda_topo c' < Cano.borda_base c'
        /\ Cano.borda_base c' - Cano.borda_topo c' = DISTANCIA_CANO CFG)
  /\ (forall (c : Cano.t) (h : Z),
         CANO_ALTURA_MIN CFG <= h < CANO_ALTURA_MAX CFG ->
         exists (r r' : Rng) (c' : Cano.t),
           Cano.definir_altura CFG c r = Ok (c', r')
           /\ Cano.altura c' = h)
  /\ (forall (g g' : Game) (s : Passo) (c c' : Cano.t),
         bem_formado g ->
         passo CFG g s = Ok g' ->
         In c (canos g) -> In c' (canos g') ->
         Cano.oid c' = Cano.oid c ->
         Cano.altura c' = Cano.altura c
         /\ Cano.pos_topo c' = Cano.pos_topo c
         /\ Cano.pos_base c' = Cano.pos_base c)
  /\ (forall (c : Cano.t) (rs : list Rng) (m : nat) (h : Z),
         randbelow_uniforme (CANO_ALTURA_MAX CFG - CANO_ALTURA_MIN CFG)
                            m rs ->
         vezes_altura CFG c h rs
         = if (CANO_ALTURA_MIN CFG <=? h) && (h <? CANO_ALTURA_MAX CFG)
           then m else 0%nat)
  /\ (forall (c : Cano.t) (m : nat) (h : Z),
         vezes_altura CFG c h
           (geradores ((CANO_ALTURA_MAX CFG - CANO_ALTURA_MIN CFG)
                       * Z.of_nat m))
         = if (CANO_ALTURA_MIN CFG <=? h) && (h <? CANO_ALTURA_MAX CFG)
           then m else 0%nat).
Proof.
  split; [| split; [| split; [| split]]].
  - intros c r.
    destruct (definir_altura_ok CFG c r CFG_range) as (h & Hh & ->).
    do 2 eexists. split; [reflexivity |].
    unfold Cano.borda_topo, Cano.borda_base. simpl.
    change (DISTANCIA_CANO CFG) with 200.
    repeat split; try apply Hh; lia.
  - intros c h Hh.
    destruct (randrange_reaches _ _ h Hh) as (r' & Hr).
    exists (mkRng (fun _ => h - CANO_ALTURA_MIN CFG) 0), r'.
    unfold Cano.definir_altura. rewrite Hr. simpl.
    eexists. split; reflexivity.
  - intros g g' s c c' Hbf Hs Hc Hc' Ho.
    destruct (passo_step CFG g g' s Hbf Hs) as [_ [_ Hst]].
    destruct Hbf as (_ & Hnd & Hlt & _).
    destruct (Hst c' Hc') as [(c0 & Hc0 & Ho0 & Ha & Ht & Hb & _) | Hnew].
    + assert (c0 = c) as ->; [| auto].
      clear - Hnd Hc Hc0 Ho Ho0.
      assert (E : Cano.oid c0 = Cano.oid c) by congruence. clear Ho Ho0.
      induction (canos g) as [| d l IH]; [destruct Hc |].
      simpl in Hnd. inversion Hnd as [| ? ? Hnot Hnd']; subst.
      destruct Hc as [-> | Hc], Hc0 as [-> | Hc0]; auto.
      * exfalso. apply Hnot. rewrite <- E. now apply in_map.
      * exfalso. apply Hnot. rewrite E. now apply in_map.
    + rewrite Forall_forall in Hlt. specialize (Hlt c Hc). lia.
  - intros c rs m h Hu. now apply vezes_altura_uniforme.
  - intros c m h. apply vezes_altura_uniforme.
    apply geradores_uniforme. reflexivity.
Qed.

(** The theorem on a tick of [exemplo_dois]: the pipe, now flagged and
    moved, still has its gap at 310; and over the 400 raw draws of one
    period the height 310 is drawn once and the maximum 450 never. *)
Lemma definir_altura_gap_witness :
  (exists g' : Game,
      passo CFG exemplo_dois PAtualizar = Ok g'
      /\ forall c' : Cano.t,
          In c' (canos g') -> Cano.oid c' = Cano.oid exemplo_cano ->
          Cano.altura c' = 310)
  /\ vezes_altura CFG exemplo_cano 310 (geradores 400) = 1%nat
  /\ vezes_altura CFG exemplo_cano 450 (geradores 400) = 0%nat.
Proof.
  destruct definir_altura_gap as (_ & _ & H & Hu & Hg).
  split; [| split].
  - destruct (atualizar_estado_ok CFG exemplo_dois CFG_range) as (g' & Hok).
    exists g'. split; [exact Hok |].
    intros c' Hin Ho.
    destruct (H exemplo_dois g' PAtualizar exemplo_cano c') as (Ha & _).
    + exact exemplo_dois_bem_formado.
    + exact Hok.
    + simpl. now left.
    + exact Hin.
    + exact Ho.
    + exact Ha.
  - exact (Hu exemplo_cano (geradores 400) 1%nat 310
              (geradores_uniforme 400 1 eq_refl)).
  - exact (Hg exemplo_cano 1%nat 450).
Defined.

(** C4, counterexample.  The maximum 450 belongs to the inclusive range
    and no state of the random source draws it. *)
Lemma definir_altura_never_max :
  exists h : Z,
    CANO_ALTURA_MIN CFG <= h <= CANO_ALTURA_MAX CFG
    /\ forall (c c' : Cano.t) (r r' : Rng),
        Cano.definir_altura CFG c r = Ok (c', r') -> Cano.altura c' <> h.
Proof.
  exists 450. split; [vm_compute; split; discriminate |].
  intros c c' r r' H.
  destruct (definir_altura_ok CFG c r CFG_range) as (h & Hh & Heq).
  rewrite Heq in H. injection H as <- _. simpl.
  change (CANO_ALTURA_MAX CFG) with 450 in Hh. lia.
Qed.

(** ** Construction and reset *)

(** C6.  A reset request, from any session, succeeds and leaves the score
    0, the state running, one bird at (230, 350) with angle 0 and tick
    count 0, and one pipe at 700, not passed: what the construction of the
    session leaves. *)
Theorem reset_restores (g : Game) :
  exists g' : Game,
    processar_eventos CFG [KEYDOWN K_r] g = Ok g'
    /\ reset CFG g = Ok g'
    /\ resumo g' = (0, true, [(230, 350%Q, 0, 0)], [(700, false)])
    /\ (forall (a : Assets) (r : Rng),
           exists g0 : Game,
             Game_init CFG a r = Ok g0 /\ resumo g0 = resumo g').
Proof.
  destruct (reset_ok CFG g CFG_range) as (c & r & Hc & Hr).
  eexists. split.
  { change (processar_eventos CFG [KEYDOWN K_r] g)
      with (g1 <- reset CFG g ;; Ok g1).
    rewrite Hr. reflexivity. }
  split; [exact Hr |].
  apply Cano_init_inv in Hc. destruct Hc as (_ & Hx & Hp & _).
  split.
  - unfold resumo. simpl. rewrite Hx, Hp. reflexivity.
  - intros a r0. unfold Game_init.
    match goal with
    | |- context [reset CFG ?g0] =>
        destruct (reset_ok CFG g0 CFG_range) as (c0 & r1 & Hc0 & Hr0)
    end.
    eexists. split; [exact Hr0 |].
    apply Cano_init_inv in Hc0. destruct Hc0 as (_ & Hx0 & Hp0 & _).
    unfold resumo. simpl. rewrite Hx, Hx0, Hp, Hp0. reflexivity.
Qed.

(** C9.  When the minimum gap height is not below the maximum, the
    construction of the session raises: the pipe it creates cannot draw
    its gap. *)
Theorem Game_init_fails_fast (cfg : Config) (a : Assets) (r : Rng) :
  CANO_ALTURA_MIN cfg >= CANO_ALTURA_MAX cfg ->
  Game_init cfg a r = Raise ValueError.
Proof.
  intros Hge. unfold Game_init, reset.
  rewrite Cano_init_raise by lia. reflexivity.
Qed.

Lemma Game_init_fails_fast_witness :
  Game_init cfg_invalida exemplo_assets exemplo_rng = Raise ValueError.
Proof.
  apply Game_init_fails_fast. vm_compute. discriminate.
Defined.

(** With the minimum below the maximum the construction succeeds. *)
Lemma Game_init_ok (cfg : Config) (a : Assets) (r : Rng) :
  CANO_ALTURA_MIN cfg < CANO_ALTURA_MAX cfg ->
  exists g : Game, Game_init cfg a r = Ok g.
Proof.
  intros Hlt. unfold Game_init.
  match goal with
  | |- context [reset cfg ?g0] =>
      destruct (reset_ok cfg g0 Hlt) as (c0 & r1 & _ & Hr0)
  end.
  eexists. exact Hr0.
Qed.

(** ** The run state *)

Lemma processar_eventos_rodando (cfg : Config) (evs : list Evento)
  (g g' : Game) :
  processar_eventos cfg evs g = Ok g' ->
  rodando g' = false ->
  rodando g = false \/ In QUIT evs.
Proof.
  revert g. induction evs as [| e evs IH]; simpl; intros g H Hr.
  - injection H as <-. now left.
  - destruct (processar_evento cfg g e) as [g1 | ex] eqn:He; simpl in H;
      [| discriminate].
    destruct (IH g1 H Hr) as [H1 | Hin]; [| now right; right].
    destruct e as [| [| | |] |]; simpl in He;
      try (injection He as <-; now left).
    + right. now left.
    + exfalso. unfold reset in He.
      destruct (Cano.init _ _ _ _ _) as [[c r] | ex]; simpl in He;
        [| discriminate].
      injection He as <-. discriminate H1.
Qed.

(** C5, as the code has it.  A tick of a running session ends the run
    exactly when it leaves no active bird; events end the run only by a
    QUIT event, and a QUIT event ends it with the birds it finds; drawing
    never ends it. *)
Theorem rodando_over :
  (forall g g' : Game,
      atualizar_estado CFG g = Ok g' ->
      rodando g = true ->
      (rodando g' = false <-> passaros g' = []))
  /\ (forall (evs : list Evento) (g g' : Game),
         processar_eventos CFG evs g = Ok g' ->
         rodando g = true ->
         rodando g' = false -> In QUIT evs)
  /\ (forall g : Game,
         exists g' : Game,
           processar_eventos CFG [QUIT] g = Ok g'
           /\ rodando g' = false
           /\ passaros g' = passaros g)
  /\ (forall g : Game, rodando (desenhar_tela CFG g) = rodando g).
Proof.
  split; [| split; [| split]].
  - intros g g' H Hrun. apply atualizar_estado_inv in H. cbn zeta in H.
    destruct H as (_ & Hrod & _). rewrite Hrod.
    destruct (passaros g'); split; congruence.
  - intros evs g g' H Hrun Hover.
    destruct (processar_eventos_rodando CFG evs g g' H Hover) as [H1 | H1];
      [congruence | exact H1].
  - intros g. eexists. repeat split.
  - reflexivity.
Qed.

(** The theorem on a tick of [exemplo_caindo]: the bird reaches the
    ground, no bird is left and the run is over. *)
Lemma rodando_over_witness :
  exists g' : Game,
    atualizar_estado CFG exemplo_caindo = Ok g'
    /\ passaros g' = []
    /\ rodando g' = false.
Proof.
  destruct (atualizar_estado_ok CFG exemplo_caindo CFG_range) as (g' & Hok).
  exists g'. split; [exact Hok |].
  assert (Hp : passaros g' = []).
  { revert Hok. vm_compute. intros [= <-]. reflexivity. }
  split; [exact Hp |].
  destruct rodando_over as (H & _).
  apply (H exemplo_caindo g' Hok eq_refl). exact Hp.
Defined.

(** C5, counterexample.  A QUIT event during the first frame ends the
    run while the bird is still active at the end of that frame. *)
Lemma rodando_over_with_bird :
  exists g g' : Game,
    Game_init CFG exemplo_assets exemplo_rng = Ok g
    /\ run_quadro CFG [QUIT] g = Ok g'
    /\ rodando g = true
    /\ rodando g' = false
    /\ length (passaros g') = 1%nat.
Proof.
  do 2 eexists. split; [vm_compute; reflexivity |].
  split; [vm_compute; reflexivity |].
  repeat split.
Qed.

(** ** The collision oracle *)

Lemma zrange_In (n k : Z) : In k (zrange n) <-> 0 <= k < n.
Proof.
  unfold zrange. rewrite in_map_iff. split.
  - intros (i & <- & Hin). apply in_seq in Hin. lia.
  - intros Hk. exists (Z.to_nat k). split; [lia |]. apply in_seq. lia.
Qed.

Lemma coords_In (w h px py : Z) :
  In (px, py) (coords w h) <-> (0 <= px < w /\ 0 <= py < h).
Proof.
  unfold coords. rewrite in_flat_map. split.
  - intros (qx & Hqx & Hin). apply in_map_iff in Hin.
    destruct Hin as (qy & [= <- <-] & Hqy).
    apply zrange_In in Hqx. apply zrange_In in Hqy. auto.
  - intros [Hx Hy]. exists px. split; [now apply zrange_In |].
    apply in_map_iff. exists py. split; [reflexivity | now apply zrange_In].
Qed.

Lemma inside_iff (m : Mask) (px py : Z) :
  inside m px py = true <-> (0 <= px < mask_w m /\ 0 <= py < mask_h m).
Proof.
  unfold inside. rewrite !andb_true_iff, !Z.leb_le, !Z.ltb_lt. lia.
Qed.

Lemma truthy_find (f : Z * Z -> bool) (l : list (Z * Z)) :
  truthy (find f l) = existsb f l.
Proof.
  induction l as [| a l IH]; simpl; [reflexivity |].
  destruct (f a); simpl; [reflexivity | exact IH].
Qed.

(** [overlap] finds a point exactly when a set bit of [a] lies over a set
    bit of [b]. *)
Lemma overlap_iff (a b : Mask) (dx dy : Z) :
  truthy (overlap a b (dx, dy)) = true
  <-> exists px py : Z,
      inside a px py = true /\ get_at a px py = true
      /\ inside b (px - dx) (py - dy) = true
      /\ get_at b (px - dx) (py - dy) = true.
Proof.
  unfold overlap. rewrite truthy_find, existsb_exists. split.
  - intros ([px py] & Hin & Hint). apply coords_In in Hin.
    unfold intersects in Hint. rewrite !andb_true_iff in Hint.
    exists px, py. rewrite inside_iff. tauto.
  - intros (px & py & Hia & Ha & Hib & Hb).
    exists (px, py). split.
    + apply coords_In. now apply inside_iff.
    + unfold intersects. now rewrite Ha, Hib, Hb.
Qed.

Lemma overlap_negate (a b : Mask) (dx dy : Z) :
  truthy (overlap a b (dx, dy)) = truthy (overlap b a (- dx, - dy)).
Proof.
  apply eq_true_iff_eq. rewrite !overlap_iff. split.
  - intros (px & py & Hia & Ha & Hib & Hb).
    exists (px - dx), (py - dy).
    replace (px - dx - - dx) with px by lia.
    replace (py - dy - - dy) with py by lia. auto.
  - intros (px & py & Hib & Hb & Hia & Ha).
    exists (px - - dx), (py - - dy).
    replace (px - - dx - dx) with px by lia.
    replace (py - - dy - dy) with py by lia. auto.
Qed.

(** C8.  The collision test gives the same answer when the two
    silhouettes change places, the offset then being the opposite one;
    and [colidir] is that test on the bird and each barrier. *)
Theorem overlaps_symmetric :
  (forall (a : Mask) (posA : Z * Z) (b : Mask) (posB : Z * Z),
      overlaps a posA b posB = overlaps b posB a posA)
  /\ (forall (a b : Mask) (dx dy : Z),
         truthy (overlap a b (dx, dy)) = truthy (overlap b a (- dx, - dy)))
  /\ (forall (c : Cano.t) (p : Passaro.t),
         Cano.colidir c p
         = overlaps (Passaro.get_mask p)
                    (Passaro.x p, py_round (Passaro.y p))
                    (from_surface (Cano.CANO_TOPO c))
                    (Cano.x c, Cano.pos_topo c)
           || overlaps (Passaro.get_mask p)
                       (Passaro.x p, py_round (Passaro.y p))
                       (from_surface (Cano.CANO_BASE c))
                       (Cano.x c, Cano.pos_base c)).
Proof.
  split; [| split].
  - intros a [ax ay] b [bx by_]. unfold overlaps. simpl.
    rewrite overlap_negate. f_equal. f_equal. f_equal; lia.
  - apply overlap_negate.
  - reflexivity.
Qed.

(** ** The flag of a pipe along a run *)

Lemma cano_oid_inj (cs : list Cano.t) (c d : Cano.t) :
  NoDup (map Cano.oid cs) -> In c cs -> In d cs ->
  Cano.oid c = Cano.oid d -> c = d.
Proof.
  induction cs as [| e cs IH]; simpl; intros Hnd Hc Hd E; [destruct Hc |].
  inversion Hnd as [| ? ? Hnot Hnd']; subst.
  destruct Hc as [-> | Hc], Hd as [-> | Hd]; auto.
  - exfalso. apply Hnot. rewrite E. now apply in_map.
  - exfalso. apply Hnot. rewrite <- E. now apply in_map.
Qed.

Lemma passaro_oid_inj (ps : list Passaro.t) (p q : Passaro.t) :
  NoDup (map Passaro.oid ps) -> In p ps -> In q ps ->
  Passaro.oid p = Passaro.oid q -> p = q.
Proof.
  induction ps as [| e ps IH]; simpl; intros Hnd Hp Hq E; [destruct Hp |].
  inversion Hnd as [| ? ? Hnot Hnd']; subst.
  destruct Hp as [-> | Hp], Hq as [-> | Hq]; auto.
  - exfalso. apply Hnot. rewrite E. now apply in_map.
  - exfalso. apply Hnot. rewrite <- E. now apply in_map.
Qed.

Lemma passou_de_Some (o : nat) (cs : list Cano.t) (b : bool) :
  passou_de o cs = Some b ->
  exists c : Cano.t, In c cs /\ Cano.oid c = o /\ Cano.passou c = b.
Proof.
  unfold passou_de.
  destruct (find (fun c => Nat.eqb (Cano.oid c) o) cs) as [c |] eqn:E;
    simpl; [| discriminate].
  intros [= <-]. apply find_some in E. destruct E as [Hin Ho].
  apply Nat.eqb_eq in Ho. exists c. auto.
Qed.

Lemma passou_de_None (o : nat) (cs : list Cano.t) :
  passou_de o cs = None -> ~ In o (map Cano.oid cs).
Proof.
  unfold passou_de.
  destruct (find (fun c => Nat.eqb (Cano.oid c) o) cs) as [c |] eqn:E;
    simpl; [discriminate |].
  intros _ Hin. apply in_map_iff in Hin. destruct Hin as (c & Ho & Hin).
  apply (find_none _ _ E) in Hin. apply Nat.eqb_neq in Hin. congruence.
Qed.

Lemma passou_de_In (cs : list Cano.t) (c : Cano.t) :
  NoDup (map Cano.oid cs) -> In c cs ->
  passou_de (Cano.oid c) cs = Some (Cano.passou c).
Proof.
  intros Hnd Hin.
  destruct (passou_de (Cano.oid c) cs) as [b |] eqn:E.
  - apply passou_de_Some in E. destruct E as (d & Hd & Ho & <-).
    now rewrite (cano_oid_inj cs d c Hnd Hd Hin Ho).
  - apply passou_de_None in E. exfalso. apply E. now apply in_map.
Qed.

Lemma fase_le_3 (o : nat) (g : Game) : (fase o g <= 3)%nat.
Proof.
  unfold fase. destruct (passou_de o (canos g)) as [[|] |]; try lia.
  destruct (Nat.ltb o (next_oid g)); lia.
Qed.

(** A pipe is allocated, then passed, then gone, in that order. *)
Lemma fase_monotone (o : nat) (g g' : Game) :
  bem_formado g -> estavel g g' -> (fase o g <= fase o g')%nat.
Proof.
  intros (_ & Hnd & Hlt & _) [Hnext Hst].
  rewrite Forall_forall in Hlt.
  unfold fase at 2.
  destruct (passou_de o (canos g')) as [b' |] eqn:E'.
  - apply passou_de_Some in E'. destruct E' as (c' & Hc' & Ho' & Hb').
    destruct (Hst c' Hc') as [(c & Hc & Ho & _ & _ & _ & Hp) | Hnew].
    + unfold fase. rewrite <- Ho', Ho, (passou_de_In _ c Hnd Hc).
      destruct (Cano.passou c).
      * rewrite <- Hb', Hp by reflexivity. lia.
      * destruct b'; lia.
    + unfold fase. destruct (passou_de o (canos g)) as [b |] eqn:E.
      * apply passou_de_Some in E. destruct E as (c & Hc & Ho & _).
        specialize (Hlt c Hc). lia.
      * destruct (Nat.ltb_spec o (next_oid g)); [lia |].
        destruct b'; lia.
  - destruct (Nat.ltb_spec o (next_oid g')); [apply fase_le_3 |].
    unfold fase. destruct (passou_de o (canos g)) as [b |] eqn:E.
    + apply passou_de_Some in E. destruct E as (c & Hc & Ho & _).
      specialize (Hlt c Hc). lia.
    + destruct (Nat.ltb_spec o (next_oid g)); lia.
Qed.

Lemma subiu_fase (o : nat) (a b : Game) :
  subiu o a b = true -> fase o a = 1%nat /\ fase o b = 2%nat.
Proof.
  unfold subiu, fase.
  destruct (passou_de o (canos a)) as [[|] |]; try discriminate.
  destruct (passou_de o (canos b)) as [[|] |]; try discriminate.
  auto.
Qed.

Lemma historico_cons (cfg : Config) (s : Passo) (sts : list Passo)
  (g : Game) (h : list Game) :
  historico cfg (s :: sts) g = Ok h ->
  exists (g1 : Game) (h1 : list Game),
    passo cfg g s = Ok g1 /\ historico cfg sts g1 = Ok h1 /\ h = g1 :: h1.
Proof.
  cbn [historico].
  destruct (passo cfg g s) as [g1 | e]; simpl; [| discriminate].
  destruct (historico cfg sts g1) as [h1 | e] eqn:E; simpl; [| discriminate].
  intros [= <-]. exists g1, h1. repeat split. exact E.
Qed.

(** Once a pipe is passed or gone, its flag rises no more. *)
Lemma subidas_after (cfg : Config) (o : nat) (sts : list Passo) (g : Game)
  (h : list Game) :
  bem_formado g -> (2 <= fase o g)%nat ->
  historico cfg sts g = Ok h -> subidas o g h = 0%nat.
Proof.
  revert g h. induction sts as [| s sts IH]; intros g h Hbf Hf Hh.
  - injection Hh as <-. reflexivity.
  - apply historico_cons in Hh.
    destruct Hh as (g1 & h1 & Hs & Hh1 & ->).
    destruct (passo_step cfg g g1 s Hbf Hs) as [Hbf1 Hst].
    pose proof (fase_monotone o g g1 Hbf Hst) as Hm.
    cbn [subidas]. rewrite (IH g1 h1 Hbf1) by (assumption || lia).
    destruct (subiu o g g1) eqn:E; [| reflexivity].
    apply subiu_fase in E. lia.
Qed.

Lemma subidas_once (cfg : Config) (o : nat) (sts : list Passo) (g : Game)
  (h : list Game) :
  bem_formado g ->
  historico cfg sts g = Ok h -> (subidas o g h <= 1)%nat.
Proof.
  revert g h. induction sts as [| s sts IH]; intros g h Hbf Hh.
  - injection Hh as <-. simpl. lia.
  - apply historico_cons in Hh.
    destruct Hh as (g1 & h1 & Hs & Hh1 & ->).
    destruct (passo_step cfg g g1 s Hbf Hs) as [Hbf1 Hst].
    cbn [subidas]. destruct (subiu o g g1) eqn:E.
    + apply subiu_fase in E. destruct E as [_ E2].
      rewrite (subidas_after cfg o sts g1 h1 Hbf1) by (assumption || lia).
      lia.
    + specialize (IH g1 h1 Hbf1 Hh1). lia.
Qed.

(** ** A rise of the flag is the work of a tick *)

(** Events keep the pipes as they are or replace them by new ones. *)
Lemma processar_eventos_canos (cfg : Config) (evs : list Evento)
  (g g' : Game) :
  processar_eventos cfg evs g = Ok g' ->
  (next_oid g <= next_oid g')%nat
  /\ forall c' : Cano.t,
      In c' (canos g') ->
      In c' (canos g) \/ (next_oid g <= Cano.oid c')%nat.
Proof.
  revert g. induction evs as [| e evs IH]; simpl; intros g H.
  - injection H as <-. split; [lia | auto].
  - destruct (processar_evento cfg g e) as [g1 | ex] eqn:He; simpl in H;
      [| discriminate].
    destruct (IH g1 H) as [Hn Hc].
    assert (H1 : (next_oid g <= next_oid g1)%nat
                 /\ forall c1, In c1 (canos g1) ->
                      In c1 (canos g) \/ (next_oid g <= Cano.oid c1)%nat).
    { destruct e as [| [| | |] |]; simpl in He;
        try (injection He as <-; split; [simpl; lia | auto]).
      unfold reset in He.
      destruct (Cano.init cfg (S (next_oid g)) 700 (assets g) (rng g))
        as [[c r] | ex] eqn:Hi; simpl in He; [| discriminate].
      injection He as <-. apply Cano_init_inv in Hi.
      destruct Hi as (Ho & _). simpl. split; [lia |].
      intros c1 [<- | []]. right. lia. }
    destruct H1 as [Hn1 Hc1]. split; [lia |].
    intros c' Hin. destruct (Hc c' Hin) as [Hin1 | Hnew]; [| right; lia].
    apply Hc1, Hin1.
Qed.

Lemma subiu_inv (o : nat) (g g' : Game) :
  subiu o g g' = true ->
  exists c c' : Cano.t,
    In c (canos g) /\ In c' (canos g')
    /\ Cano.oid c = o /\ Cano.oid c' = o
    /\ Cano.passou c = false /\ Cano.passou c' = true.
Proof.
  unfold subiu.
  destruct (passou_de o (canos g)) as [[|] |] eqn:E; try discriminate.
  destruct (passou_de o (canos g')) as [[|] |] eqn:E'; try discriminate.
  intros _. apply passou_de_Some in E, E'.
  destruct E as (c & Hc & Ho & Hp), E' as (c' & Hc' & Ho' & Hp').
  exists c, c'. auto 10.
Qed.

(** A pipe whose flag is false before the loop and true after it counts
    as a transition. *)
Lemma evolui_virou (cfg : Config) (cs cs' : list Cano.t) (c c' : Cano.t) :
  Forall2 (evolui cfg) cs cs' ->
  NoDup (map Cano.oid cs) ->
  In c cs -> In c' cs' -> Cano.oid c' = Cano.oid c ->
  Cano.passou c = false -> Cano.passou c' = true ->
  (1 <= transicoes cs cs')%nat.
Proof.
  intros Hev. revert c c'.
  induction Hev as [| d d' cs cs' Hd Hev IH]; intros c c' Hnd Hc Hc' Ho Hp Hp';
    [destruct Hc |].
  rewrite transicoes_cons. simpl in Hnd.
  inversion Hnd as [| ? ? Hnot Hnd']; subst.
  pose proof (evolui_oids cfg _ _ Hev) as Hoids.
  pose proof (evolui_oid cfg d d' Hd) as Hod.
  destruct Hc as [-> | Hc], Hc' as [-> | Hc'].
  - unfold virou. simpl. rewrite Hp, Hp'. simpl. lia.
  - exfalso. apply Hnot. rewrite <- Ho, <- Hoids. now apply in_map.
  - exfalso. apply Hnot. rewrite <- Hod, Ho. now apply in_map.
  - specialize (IH c c' Hnd' Hc Hc' Ho Hp Hp'). lia.
Qed.

Lemma passo_subiu (cfg : Config) (o : nat) (g g' : Game) (s : Passo) :
  bem_formado g ->
  passo cfg g s = Ok g' ->
  subiu o g g' = true ->
  s = PAtualizar /\ pontos g' = pontos g + 1.
Proof.
  intros Hbf Hs Hup.
  apply subiu_inv in Hup.
  destruct Hup as (c & c' & Hc & Hc' & Ho & Ho' & Hp & Hp').
  pose proof Hbf as (_ & Hnd & Hlt & _). rewrite Forall_forall in Hlt.
  destruct s as [evs | |]; simpl in Hs.
  - exfalso. apply processar_eventos_canos in Hs. destruct Hs as [_ Hcs].
    destruct (Hcs c' Hc') as [Hin | Hnew].
    + assert (c' = c) by (apply (cano_oid_inj (canos g)); congruence).
      congruence.
    + specialize (Hlt c Hc). lia.
  - split; [reflexivity |].
    destruct (atualizar_estado_step cfg g g' Hbf Hs) as (_ & _ & Hle & Hpts).
    assert (Hge : (1 <= transicoes (canos g) (canos_varridos cfg g))%nat).
    { apply atualizar_estado_inv in Hs. cbn zeta in Hs.
      destruct Hs as (_ & _ & Hcase).
      destruct (varrer_canos_spec cfg (map (Passaro.mover cfg) (passaros g))
                                  (canos g)) as (Hev & _).
      unfold canos_varridos.
      apply (evolui_virou cfg _ _ c c' Hev Hnd Hc); try congruence.
      destruct (v_adicionar _).
      - destruct Hcase as (novo & r & Hi & _ & Hcs & _).
        rewrite Hcs in Hc'. apply remover_canos_In in Hc'.
        apply in_app_or in Hc'. destruct Hc' as [Hin | [<- | []]];
          [exact Hin |].
        apply Cano_init_inv in Hi. destruct Hi as (_ & _ & Hf & _).
        congruence.
      - destruct Hcase as (_ & Hcs & _).
        rewrite Hcs in Hc'. now apply remover_canos_In in Hc'. }
    rewrite Hpts. lia.
  - exfalso. injection Hs as <-. simpl in Hc'.
    assert (c' = c) by (apply (cano_oid_inj (canos g)); congruence).
    congruence.
Qed.

(** C1.  Every session of a run is well formed, and in a well-formed
    session, whatever the number of its birds: a tick adds to the score
    the number of pipes whose flag its loop turns from false to true, and
    that number is 0 or 1 however many birds cross a pipe in the tick;
    along any sequence of calls the flag of a pipe goes from false to true
    at most once; and every call that makes the flag of a pipe go from
    false to true is a tick that adds exactly 1 to the score. *)
Theorem passou_once_score_once :
  (forall g : Game, alcancavel CFG g -> bem_formado g)
  /\ (forall g : Game,
         bem_formado g ->
         (forall g' : Game,
             atualizar_estado CFG g = Ok g' ->
             (transicoes (canos g) (canos_varridos CFG g) <= 1)%nat
             /\ pontos g'
                = pontos g
                  + Z.of_nat (transicoes (canos g) (canos_varridos CFG g)))
         /\ (forall (o : nat) (sts : list Passo) (h : list Game),
                historico CFG sts g = Ok h -> (subidas o g h <= 1)%nat)
         /\ (forall (o : nat) (s : Passo) (g' : Game),
                passo CFG g s = Ok g' ->
                subiu o g g' = true ->
                s = PAtualizar /\ pontos g' = pontos g + 1)).
Proof.
  split; [exact (alcancavel_bem_formado CFG) |].
  intros g Hbf. split; [| split].
  - intros g' H.
    destruct (atualizar_estado_step CFG g g' Hbf H) as (_ & _ & H1 & H2).
    auto.
  - intros o sts h H. now apply (subidas_once CFG o sts g h).
  - intros o s g' Hs Hup. now apply (passo_subiu CFG o g g' s).
Qed.

(** The theorem on a session where two birds cross the pipe in the same
    tick: the score goes from 0 to 1. *)
Lemma passou_once_score_once_witness :
  exists g' : Game,
    atualizar_estado CFG exemplo_dois = Ok g'
    /\ subiu 2 exemplo_dois g' = true
    /\ pontos g' = 1.
Proof.
  destruct (atualizar_estado_ok CFG exemplo_dois CFG_range) as (g' & Hok).
  exists g'. split; [exact Hok |].
  assert (Hup : subiu 2 exemplo_dois g' = true).
  { revert Hok. vm_compute. intros [= <-]. reflexivity. }
  split; [exact Hup |].
  destruct passou_once_score_once as [_ H].
  destruct (H exemplo_dois exemplo_dois_bem_formado) as (_ & _ & H3).
  destruct (H3 2%nat PAtualizar g' Hok Hup) as [_ Hp].
  rewrite Hp. reflexivity.
Defined.

(** ** Birds that the loop over the pipes keeps *)

(** A bird that collides with none of the pipes [pre] is still active
    after the loop has visited them. *)
Lemma fold_verificar_cano_keeps (cfg : Config) (pre : list Cano.t)
  (v : Varredura) (p : Passaro.t) :
  NoDup (map Passaro.oid (v_passaros v)) ->
  In p (v_passaros v) ->
  (forall d, In d pre -> Cano.colidir d p = false) ->
  let v' := fold_left (verificar_cano cfg) pre v in
  In p (v_passaros v') /\ NoDup (map Passaro.oid (v_passaros v')).
Proof.
  revert v. induction pre as [| d pre IH]; intros v Hnd Hin Hsafe; cbn zeta.
  - auto.
  - cbn [fold_left]. apply IH.
    + rewrite verificar_cano_eq. cbn zeta. cbn [v_passaros].
      now apply fold_retirar_NoDup.
    + rewrite verificar_cano_eq. cbn zeta. cbn [v_passaros].
      apply fold_retirar_keeps; [exact Hin |].
      intros q Hq Ho.
      rewrite (passaro_oid_inj _ q p Hnd Hq Hin Ho).
      apply Hsafe. now left.
    + intros e He. apply Hsafe. now right.
Qed.

(** ** Remarks *)

(** The angle -95 is met in play: ten frames after the construction, with
    no key pressed, the bird is still active and the run still on. *)
Lemma angulo_below_minimum_in_play :
  exists g : Game,
    (g0 <- Game_init CFG exemplo_assets exemplo_rng ;; quadros CFG 10 g0)
    = Ok g
    /\ rodando g = true
    /\ map Passaro.angulo (passaros g) = [-95].
Proof. eexists. split; [vm_compute; reflexivity |]. split; reflexivity. Qed.

(** Why the score needs a well-formed session: were two pipes not passed
    yet crossed in the same tick, both flags would rise and the score
    would go up by 1 only. *)
Lemma mal_formado_one_point :
  ~ bem_formado exemplo_mal_formado
  /\ transicoes (canos exemplo_mal_formado)
                (canos_varridos CFG exemplo_mal_formado) = 2%nat
  /\ exists g' : Game,
      atualizar_estado CFG exemplo_mal_formado = Ok g' /\ pontos g' = 1.
Proof.
  split; [| split].
  - intros (_ & _ & _ & H). vm_compute in H. lia.
  - vm_compute. reflexivity.
  - eexists. split; [vm_compute; reflexivity | reflexivity].
Qed.

(** * More properties *)

(** ** Flights of the bird *)

Lemma iter_mover_fields (cfg : Config) (n : nat) (p : Passaro.t) :
  let q := Nat.iter n (Passaro.mover cfg) p in
  Passaro.tempo q = Passaro.tempo p + Z.of_nat n
  /\ Passaro.velocidade q = Passaro.velocidade p
  /\ Passaro.altura_inicio_pulo q = Passaro.altura_inicio_pulo p
  /\ Passaro.x q = Passaro.x p
  /\ Passaro.oid q = Passaro.oid p.
Proof.
  induction n as [| n IH]; cbn zeta.
  - simpl. repeat split. lia.
  - change (Nat.iter (S n) (Passaro.mover cfg) p)
      with (Passaro.mover cfg (Nat.iter n (Passaro.mover cfg) p)).
    cbn zeta in IH. destruct IH as (Ht & Hv & Ha & Hx & Ho).
    repeat split; try assumption.
    change (Passaro.tempo (Nat.iter n (Passaro.mover cfg) p) + 1
            = Passaro.tempo p + Z.of_nat (S n)).
    lia.
Qed.

(** The position after [n] ticks from a tick count of 0. *)
Lemma iter_mover_y (cfg : Config) (n : nat) (p : Passaro.t) :
  Passaro.tempo p = 0 ->
  Passaro.y (Nat.iter n (Passaro.mover cfg) p)
  == Passaro.y p + trajetoria cfg (Passaro.velocidade p) n.
Proof.
  intros H0. induction n as [| n IH].
  - simpl. ring.
  - cbn [trajetoria].
    destruct (iter_mover_fields cfg n p) as (Ht & Hv & _).
    cbn zeta in Ht, Hv.
    change (Nat.iter (S n) (Passaro.mover cfg) p)
      with (Passaro.mover cfg (Nat.iter n (Passaro.mover cfg) p)).
    set (q := Nat.iter n (Passaro.mover cfg) p) in *.
    change (Passaro.y (Passaro.mover cfg q))
      with (Passaro.y q + Passaro.deslocamento cfg (Passaro.velocidade q)
                                               (Passaro.tempo q + 1))%Q.
    rewrite IH, Ht, Hv, H0.
    replace (0 + Z.of_nat n + 1) with (Z.of_nat (S n)) by lia. ring.
Qed.

(** From the seventh tick after an impulse the bird does not rise. *)
Lemma deslocamento_impulso_nonneg (t : Z) :
  7 <= t -> (0 <= Passaro.deslocamento CFG (IMPULSO_PULO CFG) t)%Q.
Proof.
  intros Ht. unfold Passaro.deslocamento, Passaro.deslocamento_bruto.
  rewrite Z.pow_2_r, inject_Z_mult.
  assert (H7 : (7 <= inject_Z t)%Q).
  { change 7%Q with (inject_Z 7). now rewrite <- Zle_Qle. }
  set (a := inject_Z t) in *.
  change (GRAVIDADE_TERMO CFG) with (3 # 2)%Q.
  change (IMPULSO_PULO CFG) with (- (21 # 2))%Q.
  assert (Hraw : (0 <= (3 # 2) * (a * a) + - (21 # 2) * a)%Q).
  { assert (E : ((3 # 2) * (a * a) + - (21 # 2) * a
                 == (3 # 2) * a * (a - 7))%Q) by ring.
    rewrite E. apply Qmult_le_0_compat; lra. }
  set (d := ((3 # 2) * (a * a) + - (21 # 2) * a)%Q) in *.
  unfold Passaro.limitar. change (DESLOCAMENTO_MAX CFG) with 16%Q.
  qcases 16%Q d.
  - vm_compute. discriminate.
  - qcases d 0%Q; lra.
Qed.

Lemma trajetoria_impulso_6 : trajetoria CFG (IMPULSO_PULO CFG) 6 == - 96.
Proof. vm_compute. reflexivity. Qed.

Lemma trajetoria_impulso_low (n : nat) :
  (- 96 <= trajetoria CFG (IMPULSO_PULO CFG) n)%Q.
Proof.
  destruct (Nat.le_gt_cases 6 n) as [Hn | Hn].
  - induction Hn as [| m Hm IH].
    + rewrite trajetoria_impulso_6. lra.
    + cbn [trajetoria].
      pose proof (deslocamento_impulso_nonneg (Z.of_nat (S m))) as Hd.
      assert (H7 : 7 <= Z.of_nat (S m)) by lia. specialize (Hd H7). lra.
  - do 6 (destruct n as [| n]; [vm_compute; discriminate |]). lia.
Qed.

(** X1.  After an impulse the bird is, six ticks later, 96 above the
    height of the impulse, and at no later tick higher than that, whatever
    its state before the impulse. *)
Theorem pular_apex (p : Passaro.t) (n : nat) :
  Passaro.y (Nat.iter 6 (Passaro.mover CFG) (Passaro.pular CFG p))
  == Passaro.y p - 96
  /\ (Passaro.y p - 96
      <= Passaro.y (Nat.iter n (Passaro.mover CFG) (Passaro.pular CFG p)))%Q.
Proof.
  split.
  - rewrite iter_mover_y by reflexivity.
    change (Passaro.velocidade (Passaro.pular CFG p)) with (IMPULSO_PULO CFG).
    rewrite trajetoria_impulso_6. change (Passaro.y (Passaro.pular CFG p))
      with (Passaro.y p). ring.
  - rewrite iter_mover_y by reflexivity.
    change (Passaro.velocidade (Passaro.pular CFG p)) with (IMPULSO_PULO CFG).
    change (Passaro.y (Passaro.pular CFG p)) with (Passaro.y p).
    pose proof (trajetoria_impulso_low n). lra.
Qed.

(** ** The size of a step *)

Lemma aplicar_regular (p : Passaro.t) (a : Acao) :
  passaro_regular p -> passaro_regular (aplicar CFG p a).
Proof.
  intros [Hv Ht]. destruct a.
  - split; [exact Hv | simpl; lia].
  - split; [now right | simpl; lia].
  - unfold aplicar, Passaro.desenhar.
    repeat match goal with
           | |- context [if ?c then _ else _] => destruct c
           end; split; assumption.
Qed.

Lemma executar_regular (acts : list Acao) (p : Passaro.t) :
  passaro_regular p -> passaro_regular (executar CFG acts p).
Proof.
  revert p. induction acts as [| a acts IH]; intros p H; [exact H |].
  apply IH, aplicar_regular, H.
Qed.

(** The displacement of a regular bird is between -20 and 16. *)
Lemma deslocamento_regular (v : Q) (t : Z) :
  v = 0%Q \/ v = IMPULSO_PULO CFG -> 1 <= t ->
  (- 20 <= Passaro.deslocamento CFG v t <= 16)%Q.
Proof.
  intros Hv Ht. split; [| apply (limitar_le_max CFG)].
  unfold Passaro.deslocamento, Passaro.deslocamento_bruto.
  rewrite Z.pow_2_r, inject_Z_mult.
  assert (H34 : (0 <= (inject_Z t - 3) * (inject_Z t - 4))%Q).
  { assert (E : ((inject_Z t - 3) * (inject_Z t - 4)
                 == inject_Z ((t - 3) * (t - 4)))%Q).
    { rewrite inject_Z_mult. unfold Zminus. rewrite !inject_Z_plus.
      simpl inject_Z. ring. }
    rewrite E. change 0%Q with (inject_Z 0). rewrite <- Zle_Qle.
    destruct (Z.le_gt_cases t 3);
      [apply Z.mul_nonpos_nonpos | apply Z.mul_nonneg_nonneg]; lia. }
  assert (H1 : (1 <= inject_Z t)%Q).
  { change 1%Q with (inject_Z 1). now rewrite <- Zle_Qle. }
  set (a := inject_Z t) in *.
  change (GRAVIDADE_TERMO CFG) with (3 # 2)%Q.
  assert (Hraw : (- 18 <= (3 # 2) * (a * a) + v * a)%Q).
  { destruct Hv as [-> | ->].
    - assert (0 <= a * a)%Q by (apply Qmult_le_0_compat; lra). lra.
    - change (IMPULSO_PULO CFG) with (- (21 # 2))%Q.
      assert (E : ((a - 3) * (a - 4) == a * a - 7 * a + 12)%Q) by ring.
      rewrite E in H34. lra. }
  set (d := ((3 # 2) * (a * a) + v * a)%Q) in *.
  unfold Passaro.limitar. change (DESLOCAMENTO_MAX CFG) with 16%Q.
  qcases 16%Q d.
  - vm_compute. discriminate.
  - qcases d 0%Q; lra.
Qed.

(** X2.  Whatever has happened to a bird since its creation, one physics
    update moves it by at most 20 upwards and at most 16 downwards. *)
Theorem mover_step_bounded (o : nat) (x0 y0 : Z) (a : Assets)
  (acts : list Acao) :
  let p := executar CFG acts (Passaro.init o x0 y0 a) in
  (Passaro.y p - 20 <= Passaro.y (Passaro.mover CFG p)
   /\ Passaro.y (Passaro.mover CFG p) <= Passaro.y p + 16)%Q.
Proof.
  intro p.
  assert (Hreg : passaro_regular p).
  { apply executar_regular. split; [now left | simpl; lia]. }
  destruct Hreg as [Hv Ht].
  change (Passaro.y (Passaro.mover CFG p))
    with (Passaro.y p + Passaro.deslocamento CFG (Passaro.velocidade p)
                                             (Passaro.tempo p + 1))%Q.
  assert (H1 : 1 <= Passaro.tempo p + 1) by lia.
  pose proof (deslocamento_regular _ _ Hv H1). lra.
Qed.

(** ** The ground *)

Lemma Chao_mover_regular (c : Chao.t) :
  chao_regular c ->
  chao_regular (Chao.mover c)
  /\ Chao.y (Chao.mover c) = Chao.y c
  /\ Chao.LARGURA (Chao.mover c) = Chao.LARGURA c
  /\ Chao.VELOCIDADE (Chao.mover c) = Chao.VELOCIDADE c.
Proof.
  intros [Hv Hpos]. split; [| repeat split].
  unfold chao_regular, Chao.mover. cbn [Chao.VELOCIDADE Chao.LARGURA
    Chao.x1 Chao.x2].
  split; [exact Hv |].
  set (L := Chao.LARGURA c) in *. set (V := Chao.VELOCIDADE c) in *.
  destruct (Z.ltb_spec (Chao.x1 c - V + L) 0) as [H1 | H1];
    match goal with
    | |- context [?u <? 0] => destruct (Z.ltb_spec u 0) as [H2 | H2]
    end; lia.
Qed.

Lemma Chao_iter_regular (n : nat) (c : Chao.t) :
  chao_regular c ->
  chao_regular (Nat.iter n Chao.mover c)
  /\ Chao.y (Nat.iter n Chao.mover c) = Chao.y c
  /\ Chao.LARGURA (Nat.iter n Chao.mover c) = Chao.LARGURA c.
Proof.
  intros Hc. induction n as [| n IH]; [simpl; auto |].
  change (Nat.iter (S n) Chao.mover c)
    with (Chao.mover (Nat.iter n Chao.mover c)).
  destruct IH as (Hr & Hy & HL).
  destruct (Chao_mover_regular _ Hr) as (Hr' & Hy' & HL' & _).
  split; [exact Hr' | split; congruence].
Qed.

(** X3.  When the scroll speed is positive and at most the width of the
    ground image, the ground keeps its height and, after any number of
    moves, its two tiles are side by side with the left one starting at
    most one tile width to the left of the window: every column from 0 to
    the tile width is covered by a tile. *)
Theorem chao_covers (cfg : Config) (y0 : Z) (a : Assets) (n : nat) :
  0 < VELOCIDADE_CHAO cfg <= get_width (base a) ->
  let c := Nat.iter n Chao.mover (Chao.init cfg y0 a) in
  Chao.y c = y0
  /\ chao_regular c
  /\ forall px : Z,
      0 <= px < get_width (base a) ->
      Chao.x1 c <= px < Chao.x1 c + get_width (base a)
      \/ Chao.x2 c <= px < Chao.x2 c + get_width (base a).
Proof.
  intros Hv c.
  assert (H0 : chao_regular (Chao.init cfg y0 a)).
  { unfold chao_regular. simpl. split; [exact Hv | left; lia]. }
  destruct (Chao_iter_regular n _ H0) as (Hr & Hy & HL). fold c in Hr, Hy, HL.
  simpl in Hy, HL. split; [exact Hy |]. split; [exact Hr |].
  intros px Hpx. destruct Hr as [_ Hpos]. rewrite HL in Hpos. lia.
Qed.

Lemma chao_covers_witness :
  let c := Nat.iter 7 Chao.mover (Chao.init CFG 730 exemplo_assets) in
  Chao.x1 c <= 3 < Chao.x1 c + 6 \/ Chao.x2 c <= 3 < Chao.x2 c + 6.
Proof.
  assert (H : 0 < VELOCIDADE_CHAO CFG <= get_width (base exemplo_assets))
    by (simpl; lia).
  destruct (chao_covers CFG 730 exemplo_assets 7 H) as (_ & _ & Hc).
  apply (Hc 3). simpl. lia.
Defined.

(** ** The wings *)

Lemma desenhar_asa (p : Passaro.t) :
  Passaro.angulo p > ANGULO_MIN_ASA CFG ->
  Passaro.desenhar CFG p
  = Passaro.mk (Passaro.oid p) (Passaro.x p) (Passaro.y p)
               (Passaro.assets p) (Passaro.angulo p) (Passaro.velocidade p)
               (Passaro.altura_inicio_pulo p) (Passaro.tempo p)
               (ciclo_asa (Passaro.contagem_imagem p))
               (imagem_asa (Passaro.assets p) (Passaro.contagem_imagem p)).
Proof.
  intros Hang. unfold Passaro.desenhar, ciclo_asa, imagem_asa,
    imagens_passaro.
  change (TEMPO_ANIMACAO CFG) with 5.
  assert (E : (Passaro.angulo p <=? ANGULO_MIN_ASA CFG) = false)
    by (apply Z.leb_gt; lia).
  rewrite E. set (k := Passaro.contagem_imagem p + 1).
  change (5 * 2) with 10. change (5 * 3) with 15. change (5 * 4) with 20.
  destruct (Z.ltb_spec k 5); [destruct (Z.ltb_spec k 20); [reflexivity | lia] |].
  destruct (Z.ltb_spec k 10); [destruct (Z.ltb_spec k 20); [reflexivity | lia] |].
  destruct (Z.ltb_spec k 15); [destruct (Z.ltb_spec k 20); [reflexivity | lia] |].
  destruct (Z.ltb_spec k 20); reflexivity.
Qed.

Lemma desenhar_regular (p : Passaro.t) :
  asa_regular p -> asa_regular (Passaro.desenhar CFG p).
Proof.
  intros [Hc Hi]. unfold asa_regular, Passaro.desenhar, imagens_passaro.
  change (TEMPO_ANIMACAO CFG) with 5.
  change (5 * 2) with 10. change (5 * 3) with 15. change (5 * 4) with 20.
  repeat match goal with
         | |- context [?u <? ?v] => destruct (Z.ltb_spec u v)
         | |- context [?u <=? ?v] => destruct (Z.leb_spec u v)
         end; cbn [Passaro.contagem_imagem Passaro.imagem Passaro.assets];
    split; try lia; tauto.
Qed.

Lemma aplicar_asa_regular (p : Passaro.t) (a : Acao) :
  asa_regular p -> asa_regular (aplicar CFG p a).
Proof.
  intros H. destruct a; [exact H | exact H | now apply desenhar_regular].
Qed.

Lemma ciclo_asa_period (c : Z) :
  0 <= c <= 19 -> Nat.iter 20 ciclo_asa c = c.
Proof.
  intros Hc.
  assert (H : In c (map Z.of_nat (seq 0 20))).
  { apply in_map_iff. exists (Z.to_nat c). split; [lia |].
    apply in_seq. lia. }
  simpl in H.
  repeat (destruct H as [<- | H]; [vm_compute; reflexivity |]). destruct H.
Qed.

Lemma iter_desenhar_asa (n : nat) (p : Passaro.t) :
  Passaro.angulo p > ANGULO_MIN_ASA CFG ->
  Nat.iter (S n) (Passaro.desenhar CFG) p
  = Passaro.mk (Passaro.oid p) (Passaro.x p) (Passaro.y p)
               (Passaro.assets p) (Passaro.angulo p) (Passaro.velocidade p)
               (Passaro.altura_inicio_pulo p) (Passaro.tempo p)
               (Nat.iter (S n) ciclo_asa (Passaro.contagem_imagem p))
               (imagem_asa (Passaro.assets p)
                  (Nat.iter n ciclo_asa (Passaro.contagem_imagem p))).
Proof.
  intros Hang. induction n as [| n IH].
  - simpl. now apply desenhar_asa.
  - change (Nat.iter (S (S n)) (Passaro.desenhar CFG) p)
      with (Passaro.desenhar CFG (Nat.iter (S n) (Passaro.desenhar CFG) p)).
    rewrite IH. rewrite desenhar_asa by exact Hang. reflexivity.
Qed.

(** X4.  Whatever happens to a bird, its animation counter stays between
    0 and 19 and its image is one of the three bird images; and while the
    bird is not diving (angle above -80) the animation has period 20: the
    twenty-first draw leaves the bird exactly as the first one did. *)
Theorem asa_periodic :
  (forall (o : nat) (x0 y0 : Z) (a : Assets) (acts : list Acao),
      asa_regular (executar CFG acts (Passaro.init o x0 y0 a)))
  /\ (forall p : Passaro.t,
         Passaro.angulo p > ANGULO_MIN_ASA CFG ->
         0 <= Passaro.contagem_imagem p <= 19 ->
         Nat.iter 21 (Passaro.desenhar CFG) p = Passaro.desenhar CFG p).
Proof.
  split.
  - intros o x0 y0 a acts. unfold executar.
    assert (H : asa_regular (Passaro.init o x0 y0 a)).
    { split; simpl; [lia | tauto]. }
    revert H. generalize (Passaro.init o x0 y0 a) as p.
    induction acts as [| act acts IH]; intros p H; [exact H |].
    apply IH, aplicar_asa_regular, H.
  - intros p Hang Hc.
    rewrite (iter_desenhar_asa 20 p Hang), (desenhar_asa p Hang).
    change (Nat.iter 21 ciclo_asa (Passaro.contagem_imagem p))
      with (ciclo_asa (Nat.iter 20 ciclo_asa (Passaro.contagem_imagem p))).
    now rewrite ciclo_asa_period.
Qed.

Lemma asa_periodic_witness :
  Nat.iter 21 (Passaro.desenhar CFG) exemplo_passaro
  = Passaro.desenhar CFG exemplo_passaro.
Proof.
  apply (proj2 asa_periodic); simpl; lia.
Defined.

(** ** The pipes a tick keeps *)

Lemma filter_filter_and {A : Type} (f g : A -> bool) (l : list A) :
  filter f (filter g l) = filter (fun a => g a && f a) l.
Proof.
  induction l as [| a l IH]; simpl; [reflexivity |].
  destruct (g a); simpl; [destruct (f a) |]; now rewrite IH.
Qed.

Lemma filter_In_map {A K : Type} (key : A -> K) (f : A -> bool)
  (l : list A) (k : K) :
  In k (map key (filter f l)) -> In k (map key l).
Proof.
  rewrite !in_map_iff. intros (a & Ha & Hin). apply filter_In in Hin.
  exists a. tauto.
Qed.

Lemma filter_NoDup_map {A K : Type} (key : A -> K) (f : A -> bool)
  (l : list A) :
  NoDup (map key l) -> NoDup (map key (filter f l)).
Proof.
  induction l as [| a l IH]; simpl; intros Hnd; [exact Hnd |].
  inversion Hnd as [| ? ? Hnot Hnd']; subst.
  destruct (f a); [| now apply IH].
  simpl. constructor; [| now apply IH].
  intros Hin. apply Hnot. now apply filter_In_map in Hin.
Qed.

(** Among distinct objects, [remove] drops every object of that
    identity. *)
Lemma remover_cano_filter (r : Cano.t) (cs : list Cano.t) :
  NoDup (map Cano.oid cs) ->
  (if contem_cano r cs then remover_cano r cs else cs)
  = filter (fun c => negb (Cano.same r c)) cs.
Proof.
  unfold contem_cano, remover_cano.
  induction cs as [| c cs IH]; simpl; intros Hnd; [reflexivity |].
  inversion Hnd as [| ? ? Hnot Hnd']; subst.
  destruct (Cano.same r c) eqn:E; simpl.
  - assert (Hno : existsb (Cano.same r) cs = false).
    { destruct (existsb (Cano.same r) cs) eqn:Ex; [| reflexivity].
      exfalso. apply existsb_exists in Ex. destruct Ex as (d & Hd & Hs).
      apply Hnot. unfold Cano.same in E, Hs.
      apply Nat.eqb_eq in E, Hs. rewrite <- E, Hs. now apply in_map. }
    specialize (IH Hnd'). rewrite Hno in IH. exact IH.
  - specialize (IH Hnd').
    destruct (existsb (Cano.same r) cs); simpl; f_equal; exact IH.
Qed.

Lemma remover_canos_filter (rs cs : list Cano.t) :
  NoDup (map Cano.oid cs) ->
  remover_canos rs cs
  = filter (fun c => negb (existsb (fun r => Cano.same r c) rs)) cs.
Proof.
  unfold remover_canos. revert cs.
  induction rs as [| r rs IH]; intros cs Hnd.
  - simpl. induction cs as [| c cs IHc]; simpl; [reflexivity |].
    inversion Hnd; subst. now rewrite <- IHc.
  - cbn [fold_left]. rewrite (remover_cano_filter r cs Hnd).
    rewrite IH by now apply filter_NoDup_map.
    rewrite filter_filter_and. apply filter_ext. intros c. simpl.
    now rewrite negb_orb.
Qed.

(** The list [remover] holds the visited pipes that are off the
    window. *)
Lemma fold_verificar_cano_remover (cfg : Config) (cs : list Cano.t)
  (v : Varredura) :
  let v' := fold_left (verificar_cano cfg) cs v in
  exists cs' : list Cano.t,
    v_canos v' = v_canos v ++ cs'
    /\ v_remover v' = v_remover v ++ filter fora_da_tela cs'.
Proof.
  revert v. induction cs as [| c cs IH]; intros v; cbn zeta.
  - exists []. simpl. now rewrite !app_nil_r.
  - cbn [fold_left]. rewrite verificar_cano_eq. cbn zeta.
    set (c2 := Cano.mover cfg (cano_apos c (v_passaros v))).
    match goal with
    | |- context [fold_left _ cs ?w] => specialize (IH w)
    end.
    cbn zeta in IH. destruct IH as (cs' & Hc & Hr).
    cbn [v_canos v_remover] in Hc, Hr.
    exists (c2 :: cs'). split.
    + rewrite Hc, <- app_assoc. reflexivity.
    + rewrite Hr. cbn [filter]. fold (fora_da_tela c2).
      destruct (fora_da_tela c2); [rewrite <- app_assoc |]; reflexivity.
Qed.

Lemma varrer_canos_remover (cfg : Config) (ps : list Passaro.t)
  (cs : list Cano.t) :
  v_remover (varrer_canos cfg ps cs)
  = filter fora_da_tela (v_canos (varrer_canos cfg ps cs)).
Proof.
  unfold varrer_canos.
  destruct (fold_verificar_cano_remover cfg cs (mkVarredura [] ps false []))
    as (cs' & Hc & Hr).
  cbn zeta in Hc, Hr. cbn [v_canos v_remover app] in Hc, Hr.
  now rewrite Hc, Hr.
Qed.

(** What a tick leaves of the pipes: the swept pipes that are not off the
    window, in their order, then the new pipe if one is due. *)
Lemma atualizar_estado_canos (cfg : Config) (g g' : Game) :
  bem_formado g ->
  atualizar_estado cfg g = Ok g' ->
  canos g'
  = filter (fun c => negb (fora_da_tela c)) (canos_varridos cfg g)
    ++ cano_novo cfg g.
Proof.
  intros Hbf Hok. pose proof Hbf as (_ & Hnd & Hlt & _).
  apply atualizar_estado_inv in Hok. cbn zeta in Hok.
  destruct Hok as (_ & _ & Hcase).
  unfold canos_varridos, cano_novo.
  set (v := varrer_canos cfg (map (Passaro.mover cfg) (passaros g))
                         (canos g)) in *.
  destruct (varrer_canos_spec cfg (map (Passaro.mover cfg) (passaros g))
                              (canos g)) as (Hev & _).
  fold v in Hev.
  pose proof (evolui_oids cfg _ _ Hev) as Hoids.
  assert (Hnd' : NoDup (map Cano.oid (v_canos v))) by now rewrite Hoids.
  assert (Hrs : v_remover v = filter fora_da_tela (v_canos v))
    by apply varrer_canos_remover.
  assert (Hsame : forall c, In c (v_canos v) ->
            existsb (fun r => Cano.same r c) (v_remover v) = fora_da_tela c).
  { intros c Hc. rewrite Hrs. destruct (fora_da_tela c) eqn:Ef.
    - apply existsb_exists. exists c. split.
      + apply filter_In. auto.
      + unfold Cano.same. apply Nat.eqb_refl.
    - destruct (existsb _ _) eqn:Ex; [| reflexivity].
      apply existsb_exists in Ex. destruct Ex as (r & Hr & Hs).
      apply filter_In in Hr. destruct Hr as [Hr Hf].
      unfold Cano.same in Hs. apply Nat.eqb_eq in Hs.
      rewrite (cano_oid_inj _ r c Hnd' Hr Hc Hs) in Hf. congruence. }
  assert (Hfil : filter (fun c => negb (existsb (fun r => Cano.same r c)
                                               (v_remover v))) (v_canos v)
                 = filter (fun c => negb (fora_da_tela c)) (v_canos v)).
  { apply filter_ext_in. intros c Hc. now rewrite Hsame. }
  destruct (v_adicionar v).
  - destruct Hcase as (novo & r & Hi & _ & Hcs & _). rewrite Hi.
    apply Cano_init_inv in Hi. destruct Hi as (Ho & _).
    assert (Hfresh : ~ In (Cano.oid novo) (map Cano.oid (v_canos v))).
    { rewrite Hoids, Ho. intros Hin. apply in_map_iff in Hin.
      destruct Hin as (c & Hc & Hin). rewrite Forall_forall in Hlt.
      specialize (Hlt c Hin). lia. }
    rewrite Hcs, remover_canos_filter.
    + rewrite filter_app, Hfil. f_equal. cbn [filter].
      assert (Hn : existsb (fun r0 => Cano.same r0 novo) (v_remover v)
                   = false).
      { destruct (existsb _ _) eqn:Ex; [| reflexivity].
        exfalso. apply existsb_exists in Ex. destruct Ex as (r0 & Hr0 & Hs).
        rewrite Hrs in Hr0. apply filter_In in Hr0. destruct Hr0 as [Hr0 _].
        unfold Cano.same in Hs. apply Nat.eqb_eq in Hs.
        apply Hfresh. rewrite <- Hs. now apply in_map. }
      now rewrite Hn.
    + rewrite map_app. simpl. apply NoDup_app; [exact Hnd' | |].
      * repeat constructor. simpl. tauto.
      * intros o Hin [<- | []]. now apply Hfresh.
  - destruct Hcase as (_ & Hcs & _).
    rewrite Hcs, remover_canos_filter by exact Hnd'.
    now rewrite Hfil, app_nil_r.
Qed.

(** X5.  In a well-formed session a tick removes exactly the pipes that
    have wholly left the window: the pipes it leaves are the swept pipes
    not off the window, in their order, followed by the new pipe when one
    is due; so no visible pipe is dropped, and each pipe left off the
    window is the one just created. *)
Theorem atualizar_estado_reaps (g g' : Game) :
  bem_formado g ->
  atualizar_estado CFG g = Ok g' ->
  canos g'
  = filter (fun c => negb (fora_da_tela c)) (canos_varridos CFG g)
    ++ cano_novo CFG g
  /\ (forall c : Cano.t,
         In c (canos_varridos CFG g) -> fora_da_tela c = false ->
         In c (canos g'))
  /\ (forall c : Cano.t,
         In c (canos g') -> fora_da_tela c = true ->
         In c (cano_novo CFG g)).
Proof.
  intros Hbf Hok.
  pose proof (atualizar_estado_canos CFG g g' Hbf Hok) as Hcs.
  split; [exact Hcs |]. split.
  - intros c Hc Hf. rewrite Hcs. apply in_or_app. left.
    apply filter_In. split; [exact Hc | now rewrite Hf].
  - intros c Hc Hf. rewrite Hcs in Hc. apply in_app_or in Hc.
    destruct Hc as [Hc | Hc]; [| exact Hc].
    apply filter_In in Hc. destruct Hc as [_ Hc]. rewrite Hf in Hc.
    discriminate.
Qed.

Lemma exemplo_saindo_bem_formado : bem_formado exemplo_saindo.
Proof.
  unfold bem_formado. simpl. repeat split.
  - repeat constructor; simpl; intuition.
  - repeat constructor; simpl; intuition discriminate.
  - repeat constructor.
  - lia.
Defined.

(** The theorem on a session whose first pipe leaves the window while the
    bird crosses the second: the tick leaves the second pipe and the new
    one. *)
Lemma atualizar_estado_reaps_witness :
  exists g' : Game,
    atualizar_estado CFG exemplo_saindo = Ok g'
    /\ map Cano.oid (canos g') = [2; 6]%nat.
Proof.
  destruct (atualizar_estado_ok CFG exemplo_saindo CFG_range) as (g' & Hok).
  exists g'. split; [exact Hok |].
  destruct (atualizar_estado_reaps exemplo_saindo g'
              exemplo_saindo_bem_formado Hok) as (Hcs & _).
  rewrite Hcs. vm_compute. reflexivity.
Defined.

(** ** Ticks in which no bird crosses a pipe *)

Lemma existsb_false {A : Type} (f : A -> bool) (l : list A) :
  (forall a, In a l -> f a = false) -> existsb f l = false.
Proof.
  intros H. destruct (existsb f l) eqn:E; [| reflexivity].
  apply existsb_exists in E. destruct E as (a & Ha & Hf).
  rewrite (H a Ha) in Hf. discriminate.
Qed.

Lemma fold_verificar_cano_sem_cruzar (cfg : Config) (cs : list Cano.t)
  (v : Varredura) :
  (forall c p, In c cs -> In p (v_passaros v) -> cruza c p = false) ->
  let v' := fold_left (verificar_cano cfg) cs v in
  v_adicionar v' = v_adicionar v
  /\ v_canos v' = v_canos v ++ map (Cano.mover cfg) cs.
Proof.
  revert v. induction cs as [| c cs IH]; intros v Hno; cbn zeta.
  - simpl. now rewrite app_nil_r.
  - cbn [fold_left]. rewrite verificar_cano_eq. cbn zeta.
    assert (Hex : existsb (cruza c) (v_passaros v) = false).
    { apply existsb_false. intros p Hp. apply Hno; [now left | exact Hp]. }
    unfold cano_apos. rewrite Hex, orb_false_r.
    match goal with
    | |- context [fold_left _ cs ?w] => specialize (IH w)
    end.
    cbn zeta in IH. cbn [v_passaros v_adicionar v_canos] in IH.
    destruct IH as [Ha Hc].
    { intros d p Hd Hp. apply fold_retirar_In in Hp.
      apply Hno; [now right | exact Hp]. }
    split; [exact Ha |]. rewrite Hc, <- app_assoc. reflexivity.
Qed.

(** A bird still active after the loop that was to the right of a pipe
    not passed yet has made the loop ask for a new pipe. *)
Lemma fold_verificar_cano_cruzou (cfg : Config) (cs : list Cano.t)
  (v : Varredura) (c : Cano.t) (p : Passaro.t) :
  In c cs ->
  In p (v_passaros (fold_left (verificar_cano cfg) cs v)) ->
  cruza c p = true ->
  v_adicionar (fold_left (verificar_cano cfg) cs v) = true.
Proof.
  revert v. induction cs as [| d cs IH]; intros v Hc Hp Hcr; [destruct Hc |].
  cbn [fold_left] in *.
  destruct Hc as [-> | Hc]; [| now apply IH].
  destruct (fold_verificar_cano cfg cs (verificar_cano cfg v c))
    as (cs' & rs & _ & _ & Had & _ & _ & Hps & _).
  cbn zeta in Had, Hps. rewrite Had.
  apply Hps in Hp. rewrite verificar_cano_eq in Hp |- *. cbn zeta in *.
  cbn [v_passaros v_adicionar] in *.
  apply fold_retirar_In in Hp.
  assert (Hex : existsb (cruza c) (v_passaros v) = true).
  { apply existsb_exists. exists p. auto. }
  rewrite Hex, orb_true_r. reflexivity.
Qed.

(** Every bird a tick leaves is a bird it found, moved. *)
Lemma atualizar_estado_passaros (cfg : Config) (g g' : Game)
  (q : Passaro.t) :
  atualizar_estado cfg g = Ok g' ->
  In q (passaros g') ->
  exists p : Passaro.t, In p (passaros g) /\ q = Passaro.mover cfg p.
Proof.
  intros Hok Hq. apply atualizar_estado_inv in Hok. cbn zeta in Hok.
  destruct Hok as (Hps & _). rewrite Hps in Hq.
  apply verificar_limites_In in Hq.
  destruct (varrer_canos_spec cfg (map (Passaro.mover cfg) (passaros g))
                              (canos g)) as (_ & _ & _ & Hsub & _).
  apply Hsub in Hq. apply in_map_iff in Hq.
  destruct Hq as (p & Hp & Hin). exists p. auto.
Qed.

(** A tick in which no bird is to the right of a pipe not passed yet
    leaves the score as it is and only moves the pipes. *)
Lemma atualizar_estado_sem_cruzar (cfg : Config) (g g' : Game) :
  (forall c p, In c (canos g) -> In p (passaros g) ->
               Cano.passou c = true \/ Passaro.x p <= Cano.x c) ->
  atualizar_estado cfg g = Ok g' ->
  pontos g' = pontos g
  /\ next_oid g' = next_oid g
  /\ canos_varridos cfg g = map (Cano.mover cfg) (canos g)
  /\ forall c', In c' (canos g') ->
       exists c, In c (canos g) /\ c' = Cano.mover cfg c.
Proof.
  intros Hno Hok. apply atualizar_estado_inv in Hok. cbn zeta in Hok.
  destruct Hok as (_ & _ & Hcase). unfold canos_varridos.
  destruct (fold_verificar_cano_sem_cruzar cfg (canos g)
              (mkVarredura [] (map (Passaro.mover cfg) (passaros g))
                           false [])) as [Ha Hc].
  { cbn [v_passaros]. intros c p1 Hc Hp1. apply in_map_iff in Hp1.
    destruct Hp1 as (p & <- & Hp). unfold cruza.
    destruct (Hno c p Hc Hp) as [H | H].
    - now rewrite H.
    - apply andb_false_iff. right.
      change (Passaro.x (Passaro.mover cfg p)) with (Passaro.x p).
      destruct (Z.gtb_spec (Passaro.x p) (Cano.x c)); [lia | reflexivity]. }
  cbn zeta in Ha, Hc. cbn [v_adicionar v_canos app] in Ha, Hc.
  fold (varrer_canos cfg (map (Passaro.mover cfg) (passaros g)) (canos g))
    in Ha, Hc.
  rewrite Ha in Hcase. destruct Hcase as (Hp & Hcs & Hn).
  repeat split; try assumption.
  intros c' Hin. rewrite Hcs in Hin. apply remover_canos_In in Hin.
  rewrite Hc in Hin. apply in_map_iff in Hin.
  destruct Hin as (c & <- & Hin). exists c. auto.
Qed.

(** ** No point before the first pipe arrives *)

Lemma antes_do_cano_weaken (k k' : Z) (g : Game) :
  k <= k' -> antes_do_cano k g -> antes_do_cano k' g.
Proof.
  intros Hk (Hp & Hb & Hc). repeat split; try assumption.
  intros c Hin. specialize (Hc c Hin). lia.
Qed.

Lemma reset_antes (k : Z) (g g' : Game) :
  0 <= k -> reset CFG g = Ok g' -> antes_do_cano k g'.
Proof.
  intros Hk Hr. destruct (reset_ok CFG g CFG_range) as (c & r & Hc & Hr').
  rewrite Hr' in Hr. injection Hr as <-.
  apply Cano_init_inv in Hc. destruct Hc as (_ & Hx & _).
  repeat split; cbn [passaros canos].
  - intros p [<- | []]. reflexivity.
  - intros c' [<- | []]. lia.
Qed.

Lemma processar_eventos_antes (k : Z) (evs : list Evento) (g g' : Game) :
  0 <= k -> antes_do_cano k g ->
  processar_eventos CFG evs g = Ok g' -> antes_do_cano k g'.
Proof.
  intros Hk. revert g. induction evs as [| e evs IH]; simpl; intros g Ha H.
  - now injection H as <-.
  - destruct (processar_evento CFG g e) as [g1 | ex] eqn:He; simpl in H;
      [| discriminate].
    apply (IH g1); [| exact H].
    destruct e as [| [| | |] |]; simpl in He;
      try (injection He as <-; exact Ha).
    + injection He as <-. destruct Ha as (Hp & Hb & Hc).
      repeat split; try assumption.
      intros p Hin. simpl in Hin. apply in_map_iff in Hin.
      destruct Hin as (p0 & <- & Hin). rewrite <- (Hb p0 Hin). reflexivity.
    + now apply (reset_antes k g).
Qed.

Lemma atualizar_estado_antes (k : Z) (g g' : Game) :
  0 <= k <= 94 -> antes_do_cano k g ->
  atualizar_estado CFG g = Ok g' -> antes_do_cano (k + 1) g'.
Proof.
  intros Hk (Hp & Hb & Hc) Hok.
  destruct (atualizar_estado_sem_cruzar CFG g g') as (Hp' & _ & _ & Hcs);
    [| exact Hok |].
  { intros c p Hin Hpin. right. rewrite (Hb p Hpin).
    specialize (Hc c Hin). lia. }
  repeat split.
  - congruence.
  - intros q Hq.
    destruct (atualizar_estado_passaros CFG g g' q Hok Hq) as (p & Hpin & ->).
    change (Passaro.x p = 230). now apply Hb.
  - intros c' Hin. destruct (Hcs c' Hin) as (c & Hcin & ->).
    specialize (Hc c Hcin). change (Cano.x (Cano.mover CFG c))
      with (Cano.x c - 5). lia.
Qed.

Lemma correr_antes (sts : list Passo) (k : Z) (g g' : Game) :
  0 <= k -> k + Z.of_nat (n_ticks sts) <= 95 ->
  antes_do_cano k g ->
  correr CFG sts g = Ok g' ->
  antes_do_cano (k + Z.of_nat (n_ticks sts)) g'.
Proof.
  revert k g. induction sts as [| s sts IH]; intros k g Hk Hn Ha H.
  - injection H as <-. simpl. now rewrite Z.add_0_r.
  - cbn [correr] in H.
    destruct (passo CFG g s) as [g1 | ex] eqn:Hs; simpl in H;
      [| discriminate].
    destruct s as [evs | |]; simpl in Hs.
    + change (n_ticks (PEventos evs :: sts)) with (n_ticks sts) in *.
      apply (IH k g1); try assumption.
      now apply (processar_eventos_antes k evs g).
    + change (n_ticks (PAtualizar :: sts)) with (S (n_ticks sts)) in *.
      replace (k + Z.of_nat (S (n_ticks sts)))
        with (k + 1 + Z.of_nat (n_ticks sts)) by lia.
      apply (IH (k + 1) g1); try lia; [| exact H].
      apply (atualizar_estado_antes k g); [lia | exact Ha | exact Hs].
    + change (n_ticks (PDesenhar :: sts)) with (n_ticks sts) in *.
      apply (IH k g1); try assumption.
      injection Hs as <-. destruct Ha as (Hp & Hb & Hc).
      repeat split; try assumption.
      intros p Hin. simpl in Hin. apply in_map_iff in Hin.
      destruct Hin as (p0 & <- & Hin). rewrite <- (Hb p0 Hin).
      unfold Passaro.desenhar.
      repeat match goal with
             | |- context [if ?c then _ else _] => destruct c
             end; reflexivity.
Qed.

Lemma correr_antes_init (a : Assets) (r : Rng) (sts : list Passo)
  (g : Game) :
  (g0 <- Game_init CFG a r ;; correr CFG sts g0) = Ok g ->
  (n_ticks sts <= 95)%nat ->
  antes_do_cano (Z.of_nat (n_ticks sts)) g.
Proof.
  intros Hrun Hn.
  destruct (Game_init CFG a r) as [g0 | ex] eqn:Hi; simpl in Hrun;
    [| discriminate].
  assert (H0 : antes_do_cano 0 g0).
  { unfold Game_init in Hi. apply (reset_antes 0 _ _ (Z.le_refl 0) Hi). }
  apply (correr_antes sts 0 g0 g) in H0; try lia; [| exact Hrun].
  exact H0.
Qed.

(** X6.  Whatever the player does, the score is 0 as long as at most 95
    ticks have run since the construction: the birds stay at x = 230 and
    the pipe created at 700 moves 5 to the left per tick, so no bird is to
    its right before the 96th tick (a reset puts a pipe at 700 again).
    The 96th tick can score: a player flapping every thirteenth frame has
    1 point after it. *)
Theorem no_point_before_tick_96 :
  (forall (a : Assets) (r : Rng) (sts : list Passo) (g : Game),
      (g0 <- Game_init CFG a r ;; correr CFG sts g0) = Ok g ->
      (n_ticks sts <= 95)%nat ->
      pontos g = 0
      /\ (forall p, In p (passaros g) -> Passaro.x p = 230)
      /\ (forall c, In c (canos g) ->
                    700 - 5 * Z.of_nat (n_ticks sts) <= Cano.x c))
  /\ (exists g : Game,
         (g0 <- Game_init CFG exemplo_assets exemplo_rng_150 ;;
          correr CFG exemplo_jogada g0) = Ok g
         /\ n_ticks exemplo_jogada = 96%nat
         /\ pontos g = 1).
Proof.
  split.
  - intros a r sts g Hrun Hn. exact (correr_antes_init a r sts g Hrun Hn).
  - eexists. split; [vm_compute; reflexivity |].
    split; [vm_compute; reflexivity | reflexivity].
Qed.

Lemma no_point_before_tick_96_witness :
  exists g : Game,
    (g0 <- Game_init CFG exemplo_assets exemplo_rng ;;
     correr CFG [PEventos [KEYDOWN K_SPACE]; PAtualizar; PDesenhar;
                 PAtualizar] g0) = Ok g
    /\ pontos g = 0.
Proof.
  destruct (g0 <- Game_init CFG exemplo_assets exemplo_rng ;;
            correr CFG [PEventos [KEYDOWN K_SPACE]; PAtualizar; PDesenhar;
                        PAtualizar] g0) as [g | ex] eqn:H.
  - exists g. split; [reflexivity |].
    assert (Hn : (n_ticks [PEventos [KEYDOWN K_SPACE]; PAtualizar; PDesenhar;
                           PAtualizar] <= 95)%nat)
      by (unfold n_ticks; simpl; lia).
    exact (proj1 (proj1 no_point_before_tick_96 _ _ _ _ H Hn)).
  - exfalso. revert H. vm_compute. discriminate.
Defined.

(** ** Events that are not a reset *)

Lemma pular_impulsionado (cfg : Config) (p : Passaro.t) :
  impulsionado cfg (Passaro.pular cfg p).
Proof. repeat split. Qed.

Lemma processar_eventos_sem_reset (cfg : Config) (evs : list Evento)
  (g : Game) :
  ~ In (KEYDOWN K_r) evs ->
  exists g' : Game,
    processar_eventos cfg evs g = Ok g'
    /\ assets g' = assets g /\ chao g' = chao g /\ canos g' = canos g
    /\ pontos g' = pontos g /\ rng g' = rng g /\ next_oid g' = next_oid g
    /\ map corpo (passaros g') = map corpo (passaros g)
    /\ (In QUIT evs -> rodando g' = false)
    /\ (~ In QUIT evs -> rodando g' = rodando g)
    /\ (In (KEYDOWN K_SPACE) evs -> Forall (impulsionado cfg) (passaros g'))
    /\ (~ In (KEYDOWN K_SPACE) evs -> passaros g' = passaros g).
Proof.
  revert g. induction evs as [| e evs IH]; intros g Hno.
  - exists g. simpl. repeat split; tauto.
  - assert (Hno' : ~ In (KEYDOWN K_r) evs) by (intros H; apply Hno; now right).
    cbn [processar_eventos].
    destruct e as [| [| | |] |]; cbn [processar_evento bind].
    + destruct (IH (set_rodando false g) Hno')
        as (g' & Hok & Ha & Hc & Hcs & Hp & Hr & Hn & Hb & Hq & Hnq & Hs & Hns).
      exists g'. split; [exact Hok |].
      repeat split; try assumption.
      * intros _. destruct (in_dec (fun a b : Evento =>
          ltac:(decide equality; decide equality)) QUIT evs) as [Hin | Hin];
          [now apply Hq | now rewrite (Hnq Hin)].
      * intros H. exfalso. apply H. now left.
      * intros [H | H]; [discriminate | now apply Hs].
      * intros H. apply Hns. intros Hin. apply H. now right.
    + destruct (IH (set_passaros (map (Passaro.pular cfg) (passaros g)) g)
                   Hno')
        as (g' & Hok & Ha & Hc & Hcs & Hp & Hr & Hn & Hb & Hq & Hnq & Hs & Hns).
      exists g'. split; [exact Hok |].
      repeat split; try assumption.
      * rewrite Hb. cbn [passaros set_passaros]. rewrite map_map.
        apply map_ext. reflexivity.
      * intros [H | H]; [discriminate | now apply Hq].
      * intros H. apply Hnq. intros Hin. apply H. now right.
      * intros _. destruct (in_dec (fun a b : Evento =>
          ltac:(decide equality; decide equality)) (KEYDOWN K_SPACE) evs)
          as [Hin | Hin]; [now apply Hs |].
        rewrite (Hns Hin). cbn [passaros set_passaros].
        apply Forall_forall. intros q Hq'. apply in_map_iff in Hq'.
        destruct Hq' as (p & <- & _). apply pular_impulsionado.
      * intros H. exfalso. apply H. now left.
    + exfalso. apply Hno. now left.
    + destruct (IH g Hno')
        as (g' & Hok & Ha & Hc & Hcs & Hp & Hr & Hn & Hb & Hq & Hnq & Hs & Hns).
      exists g'. split; [exact Hok |].
      repeat split; try assumption.
      * intros [H | H]; [discriminate | now apply Hq].
      * intros H. apply Hnq. intros Hin. apply H. now right.
      * intros [H | H]; [discriminate | now apply Hs].
      * intros H. apply Hns. intros Hin. apply H. now right.
    + destruct (IH g Hno')
        as (g' & Hok & Ha & Hc & Hcs & Hp & Hr & Hn & Hb & Hq & Hnq & Hs & Hns).
      exists g'. split; [exact Hok |].
      repeat split; try assumption.
      * intros [H | H]; [discriminate | now apply Hq].
      * intros H. apply Hnq. intros Hin. apply H. now right.
      * intros [H | H]; [discriminate | now apply Hs].
      * intros H. apply Hns. intros Hin. apply H. now right.
    + destruct (IH g Hno')
        as (g' & Hok & Ha & Hc & Hcs & Hp & Hr & Hn & Hb & Hq & Hnq & Hs & Hns).
      exists g'. split; [exact Hok |].
      repeat split; try assumption.
      * intros [H | H]; [discriminate | now apply Hq].
      * intros H. apply Hnq. intros Hin. apply H. now right.
      * intros [H | H]; [discriminate | now apply Hs].
      * intros H. apply Hns. intros Hin. apply H. now right.
Qed.

(** X7.  Events among which there is no R key never fail and change
    nothing of the session but the run state and the physics of the
    birds: pipes, score, ground, random source and the position, angle
    and image of every bird stay as they are; the run state becomes Over
    exactly when a QUIT event is among them; and when the space bar is
    among them every active bird ends with the impulse velocity, a tick
    count of 0 and its jump start at its position, otherwise the birds
    are untouched. *)
Theorem eventos_sem_reset (evs : list Evento) (g : Game) :
  ~ In (KEYDOWN K_r) evs ->
  exists g' : Game,
    processar_eventos CFG evs g = Ok g'
    /\ assets g' = assets g /\ chao g' = chao g /\ canos g' = canos g
    /\ pontos g' = pontos g /\ rng g' = rng g /\ next_oid g' = next_oid g
    /\ map corpo (passaros g') = map corpo (passaros g)
    /\ (In QUIT evs -> rodando g' = false)
    /\ (~ In QUIT evs -> rodando g' = rodando g)
    /\ (In (KEYDOWN K_SPACE) evs -> Forall (impulsionado CFG) (passaros g'))
    /\ (~ In (KEYDOWN K_SPACE) evs -> passaros g' = passaros g).
Proof. apply processar_eventos_sem_reset. Qed.

Lemma eventos_sem_reset_witness :
  exists g' : Game,
    processar_eventos CFG [KEYDOWN K_ESCAPE; KEYDOWN K_SPACE; OutroEvento]
                      exemplo_dois = Ok g'
    /\ canos g' = canos exemplo_dois
    /\ Forall (impulsionado CFG) (passaros g').
Proof.
  assert (Hno : ~ In (KEYDOWN K_r)
                     [KEYDOWN K_ESCAPE; KEYDOWN K_SPACE; OutroEvento]).
  { simpl. intuition discriminate. }
  destruct (eventos_sem_reset _ exemplo_dois Hno)
    as (g' & Hok & _ & _ & Hcs & _ & _ & _ & _ & _ & _ & Hs & _).
  exists g'. split; [exact Hok |]. split; [exact Hcs |].
  apply Hs. simpl. tauto.
Defined.

(** ** The end of a round *)

Lemma passaros_nil_step (g g' : Game) (s : Passo) :
  passaros g = [] -> rodando g = false -> sem_reset s ->
  passo CFG g s = Ok g' ->
  passaros g' = [] /\ rodando g' = false /\ pontos g' = pontos g.
Proof.
  intros Hp Hr Hs Hok. destruct s as [evs | |]; simpl in Hs, Hok.
  - destruct (processar_eventos_sem_reset CFG evs g Hs)
      as (g1 & Hok1 & _ & _ & _ & Hpt & _ & _ & Hb & Hq & Hnq & _ & _).
    rewrite Hok1 in Hok. injection Hok as <-.
    rewrite Hp in Hb. simpl in Hb. apply map_eq_nil in Hb.
    repeat split; try assumption.
    destruct (in_dec (fun a b : Evento =>
      ltac:(decide equality; decide equality)) QUIT evs) as [Hin | Hin].
    + now apply Hq.
    + now rewrite (Hnq Hin).
  - assert (Hnil : passaros g' = []).
    { destruct (passaros g') as [| q l] eqn:E; [reflexivity |].
      destruct (atualizar_estado_passaros CFG g g' q Hok) as (p & Hin & _).
      - rewrite E. now left.
      - rewrite Hp in Hin. destruct Hin. }
    destruct (atualizar_estado_sem_cruzar CFG g g') as (Hpt & _);
      [| exact Hok |].
    { intros c p _ Hin. rewrite Hp in Hin. destruct Hin. }
    apply atualizar_estado_inv in Hok. cbn zeta in Hok.
    destruct Hok as (_ & Hrod & _). rewrite Hnil in Hrod. auto.
  - injection Hok as <-. unfold desenhar_tela. simpl. rewrite Hp. auto.
Qed.

(** X8.  Once no bird is active and the run is over, no sequence of
    calls without a reset brings a bird back, restarts the run or changes
    the score. *)
Theorem fim_absorvente (sts : list Passo) (g g' : Game) :
  passaros g = [] -> rodando g = false ->
  Forall sem_reset sts ->
  correr CFG sts g = Ok g' ->
  passaros g' = [] /\ rodando g' = false /\ pontos g' = pontos g.
Proof.
  revert g. induction sts as [| s sts IH]; intros g Hp Hr Hs Hok.
  - injection Hok as <-. auto.
  - cbn [correr] in Hok.
    destruct (passo CFG g s) as [g1 | ex] eqn:E; simpl in Hok;
      [| discriminate].
    inversion Hs as [| ? ? Hs1 Hs2]; subst.
    destruct (passaros_nil_step g g1 s Hp Hr Hs1 E) as (Hp1 & Hr1 & Hpt1).
    destruct (IH g1 Hp1 Hr1 Hs2 Hok) as (Hp' & Hr' & Hpt').
    repeat split; congruence.
Qed.

Lemma fim_absorvente_witness :
  exists g' : Game,
    correr CFG [PAtualizar; PEventos [KEYDOWN K_SPACE]; PDesenhar;
                PAtualizar] exemplo_fim = Ok g'
    /\ passaros g' = [] /\ rodando g' = false /\ pontos g' = 3.
Proof.
  destruct (correr CFG [PAtualizar; PEventos [KEYDOWN K_SPACE]; PDesenhar;
                        PAtualizar] exemplo_fim) as [g' | ex] eqn:H.
  - exists g'. split; [reflexivity |].
    apply (fim_absorvente
             [PAtualizar; PEventos [KEYDOWN K_SPACE]; PDesenhar; PAtualizar]
             exemplo_fim g'); try reflexivity; [| exact H].
    repeat constructor. simpl. intuition discriminate.
  - exfalso. revert H. vm_compute. discriminate.
Defined.

(** ** A player who presses no key *)

Lemma passaros_singleton (l : list Passaro.t) (p : Passaro.t) :
  (forall q, In q l -> q = p) -> NoDup (map Passaro.oid l) ->
  l = [] \/ l = [p].
Proof.
  intros Hall Hnd. destruct l as [| a [| b l]].
  - now left.
  - right. f_equal. apply Hall. now left.
  - exfalso. assert (a = p) by (apply Hall; simpl; auto).
    assert (b = p) by (apply Hall; simpl; auto). subst.
    simpl in Hnd. inversion Hnd as [| ? ? Hnot _]. apply Hnot. now left.
Qed.

Lemma desenhar_imagem (p : Passaro.t) :
  Passaro.imagem (Passaro.desenhar CFG p) = bird1 (Passaro.assets p)
  \/ Passaro.imagem (Passaro.desenhar CFG p) = bird2 (Passaro.assets p)
  \/ Passaro.imagem (Passaro.desenhar CFG p) = bird3 (Passaro.assets p).
Proof.
  unfold Passaro.desenhar, imagens_passaro.
  repeat match goal with
         | |- context [if ?c then _ else _] => destruct c
         end; simpl; tauto.
Qed.

Lemma desenhar_fields (p : Passaro.t) :
  Passaro.oid (Passaro.desenhar CFG p) = Passaro.oid p
  /\ Passaro.x (Passaro.desenhar CFG p) = Passaro.x p
  /\ Passaro.y (Passaro.desenhar CFG p) = Passaro.y p
  /\ Passaro.assets (Passaro.desenhar CFG p) = Passaro.assets p
  /\ Passaro.velocidade (Passaro.desenhar CFG p) = Passaro.velocidade p
  /\ Passaro.tempo (Passaro.desenhar CFG p) = Passaro.tempo p.
Proof.
  unfold Passaro.desenhar.
  repeat match goal with
         | |- context [if ?c then _ else _] => destruct c
         end; repeat split.
Qed.

(** A tick of a session with one bird leaves no bird or that bird,
    moved; and it leaves none when the bird ends below the ground. *)
Lemma atualizar_estado_um (g g' : Game) (p : Passaro.t) :
  passaros g = [p] ->
  atualizar_estado CFG g = Ok g' ->
  (passaros g' = [] \/ passaros g' = [Passaro.mover CFG p])
  /\ ((inject_Z (Chao.y (chao g))
       < Passaro.y (Passaro.mover CFG p)
         + inject_Z (get_height (Passaro.imagem p)))%Q ->
      passaros g' = []).
Proof.
  intros Hp Hok. pose proof Hok as Hinv.
  apply atualizar_estado_inv in Hinv. cbn zeta in Hinv.
  destruct Hinv as (Hps & _). rewrite Hp in Hps. cbn [map] in Hps.
  set (p1 := Passaro.mover CFG p) in *.
  destruct (varrer_canos_spec CFG [p1] (canos g))
    as (_ & _ & _ & Hsub & Hnd).
  set (vp := v_passaros (varrer_canos CFG [p1] (canos g))) in *.
  assert (Hvp : vp = [] \/ vp = [p1]).
  { apply passaros_singleton.
    - intros q Hq. apply Hsub in Hq. destruct Hq as [<- | []]. reflexivity.
    - apply Hnd. repeat constructor. simpl. tauto. }
  split.
  - apply passaros_singleton.
    + intros q Hq. rewrite Hps in Hq. apply verificar_limites_In in Hq.
      destruct Hvp as [E | E]; rewrite E in Hq; [destruct Hq |].
      destruct Hq as [<- | []]. reflexivity.
    + rewrite Hps. apply verificar_limites_NoDup.
      destruct Hvp as [-> | ->]; repeat constructor. simpl. tauto.
  - intros Hlow. rewrite Hps.
    destruct Hvp as [-> | ->]; [reflexivity |].
    unfold verificar_limites. cbn [fold_left]. unfold verificar_limite.
    assert (E : Qltb (inject_Z (Chao.y (Chao.mover (chao g))))
                     (Passaro.y p1 + inject_Z (get_height (Passaro.imagem p1)))
                = true).
    { apply Qltb_lt. exact Hlow. }
    rewrite E. cbn [orb]. unfold contem_passaro, remover_passaro.
    cbn [existsb remove_first]. unfold Passaro.same.
    rewrite Nat.eqb_refl. reflexivity.
Qed.

Lemma desenhar_tela_antes (k : Z) (g : Game) :
  antes_do_cano k g -> antes_do_cano k (desenhar_tela CFG g).
Proof.
  intros (Hp & Hb & Hc). repeat split; try assumption.
  intros q Hin. unfold desenhar_tela in Hin. cbn [passaros set_passaros] in Hin.
  apply in_map_iff in Hin. destruct Hin as (p & <- & Hin).
  destruct (desenhar_fields p) as (_ & Hx & _). rewrite Hx. now apply Hb.
Qed.

(** One frame with no event. *)
Lemma run_quadro_ocioso (a : Assets) (n : nat) (g : Game) :
  0 <= get_height (bird1 a) -> 0 <= get_height (bird2 a) ->
  0 <= get_height (bird3 a) ->
  ocioso a n g ->
  exists g' : Game,
    run_quadro CFG [] g = Ok g'
    /\ ocioso a (S n) g'
    /\ ((730 < 350 + trajetoria CFG 0 (S n))%Q ->
        passaros g' = [] /\ rodando g' = false)
    /\ (forall k, 0 <= k <= 94 -> antes_do_cano k g ->
                  antes_do_cano (k + 1) g').
Proof.
  intros H1 H2 H3 (Ha & Hy & Hcase).
  unfold run_quadro. cbn [processar_eventos bind].
  destruct (atualizar_estado_ok CFG g CFG_range) as (g1 & Hok).
  rewrite Hok. cbn [bind]. eexists. split; [reflexivity |].
  pose proof Hok as Hinv. apply atualizar_estado_inv in Hinv.
  cbn zeta in Hinv. destruct Hinv as (_ & Hrod & _).
  assert (Hchao : Chao.y (chao g1) = 730).
  { pose proof Hok as Hc. unfold atualizar_estado in Hc. cbn zeta in Hc.
    destruct (v_adicionar _) in Hc.
    - destruct (Cano.init _ _ _ _ _) as [[c r] | ex] in Hc; simpl in Hc;
        [| discriminate].
      injection Hc as <-. exact Hy.
    - simpl in Hc. injection Hc as <-. exact Hy. }
  assert (Hassets : assets g1 = a).
  { pose proof Hok as Hc. unfold atualizar_estado in Hc. cbn zeta in Hc.
    destruct (v_adicionar _) in Hc.
    - destruct (Cano.init _ _ _ _ _) as [[c r] | ex] in Hc; simpl in Hc;
        [| discriminate].
      injection Hc as <-. exact Ha.
    - simpl in Hc. injection Hc as <-. exact Ha. }
  assert (Hant : forall k, 0 <= k <= 94 -> antes_do_cano k g ->
                           antes_do_cano (k + 1) (desenhar_tela CFG g1)).
  { intros k Hk Hak. apply desenhar_tela_antes.
    now apply (atualizar_estado_antes k g). }
  destruct Hcase as [[Hnil Hr] | (p & Hp & Hpa & Hv & Ht & Hpy & Himg)].
  - assert (Hnil1 : passaros g1 = []).
    { destruct (passaros g1) as [| q l] eqn:E; [reflexivity |].
      destruct (atualizar_estado_passaros CFG g g1 q Hok) as (p & Hin & _).
      - rewrite E. now left.
      - rewrite Hnil in Hin. destruct Hin. }
    rewrite Hnil1 in Hrod.
    assert (Hfin : passaros (desenhar_tela CFG g1) = []
                   /\ rodando (desenhar_tela CFG g1) = false).
    { unfold desenhar_tela. cbn [passaros rodando set_passaros].
      now rewrite Hnil1. }
    split; [| split; [intros _; exact Hfin | exact Hant]].
    split; [exact Hassets | split; [exact Hchao | now left]].
  - destruct (atualizar_estado_um g g1 p Hp Hok) as [Hone Hlow].
    set (p1 := Passaro.mover CFG p) in *.
    assert (Hy1 : Passaro.y p1 == 350 + trajetoria CFG 0 (S n)).
    { change (Passaro.y p1)
        with (Passaro.y p + Passaro.deslocamento CFG (Passaro.velocidade p)
                                                 (Passaro.tempo p + 1))%Q.
      cbn [trajetoria]. rewrite Hpy, Hv, Ht.
      replace (Z.of_nat n + 1) with (Z.of_nat (S n)) by lia. ring. }
    assert (Hh : 0 <= get_height (Passaro.imagem p)).
    { destruct Himg as [-> | [-> | ->]]; assumption. }
    assert (HhQ : (0 <= inject_Z (get_height (Passaro.imagem p)))%Q).
    { change 0%Q with (inject_Z 0). now rewrite <- Zle_Qle. }
    split; [| split; [| exact Hant]].
    + split; [exact Hassets | split; [exact Hchao |]].
      destruct Hone as [Hnil1 | Hone1].
      * left. rewrite Hnil1 in Hrod. unfold desenhar_tela.
        cbn [passaros rodando set_passaros]. now rewrite Hnil1.
      * right. exists (Passaro.desenhar CFG p1).
        unfold desenhar_tela. cbn [passaros set_passaros]. rewrite Hone1.
        destruct (desenhar_fields p1) as (_ & _ & Ey & Ea & Ev & Et).
        split; [reflexivity |].
        rewrite Ea, Ev, Et, Ey.
        change (Passaro.assets p1) with (Passaro.assets p).
        change (Passaro.velocidade p1) with (Passaro.velocidade p).
        change (Passaro.tempo p1) with (Passaro.tempo p + 1).
        repeat split; try assumption; try lia.
        pose proof (desenhar_imagem p1) as Hi.
        change (Passaro.assets p1) with (Passaro.assets p) in Hi.
        now rewrite Hpa in Hi.
    + intros Hbelow.
      assert (Hnil1 : passaros g1 = []).
      { apply Hlow. rewrite Hy. change (inject_Z 730) with 730%Q.
        rewrite Hy1. lra. }
      rewrite Hnil1 in Hrod. unfold desenhar_tela.
      cbn [passaros rodando set_passaros]. now rewrite Hnil1.
Qed.

Lemma quadros_ocioso (a : Assets) (k n : nat) (g : Game) :
  0 <= get_height (bird1 a) -> 0 <= get_height (bird2 a) ->
  0 <= get_height (bird3 a) ->
  ocioso a n g ->
  exists g' : Game,
    quadros CFG k g = Ok g'
    /\ ocioso a (n + k) g'
    /\ ((1 <= k)%nat -> (730 < 350 + trajetoria CFG 0 (n + k))%Q ->
        passaros g' = [] /\ rodando g' = false)
    /\ (forall j, 0 <= j -> j + Z.of_nat k <= 95 -> antes_do_cano j g ->
                  antes_do_cano (j + Z.of_nat k) g').
Proof.
  intros H1 H2 H3. revert n g. induction k as [| k IH]; intros n g Ho.
  - exists g. rewrite Nat.add_0_r. split; [reflexivity |].
    split; [exact Ho |]. split; [lia |].
    intros j _ _ Hj. now rewrite Z.add_0_r.
  - destruct (run_quadro_ocioso a n g H1 H2 H3 Ho)
      as (g1 & Hq & Ho1 & Hend1 & Hant1).
    destruct (IH (S n) g1 Ho1) as (g' & Hqs & Ho' & Hend' & Hant').
    exists g'. cbn [quadros]. rewrite Hq. cbn [bind].
    replace (n + S k)%nat with (S n + k)%nat by lia.
    split; [exact Hqs |]. split; [exact Ho' |]. split.
    + intros _ Hlow. destruct k as [| k'].
      * cbn [quadros] in Hqs. injection Hqs as <-.
        apply Hend1. now rewrite Nat.add_0_r in Hlow.
      * apply Hend'; [lia | exact Hlow].
    + intros j Hj Hjk Haj.
      replace (j + Z.of_nat (S k)) with (j + 1 + Z.of_nat k) by lia.
      apply Hant'; try lia. apply Hant1; [lia | exact Haj].
Qed.

(** X9.  A player who presses no key loses within 26 frames and scores
    nothing: whatever the images (of non-negative height) and the random
    source, after 26 frames without events no bird is active, the run is
    over and the score is 0. *)
Theorem ocioso_perde (a : Assets) (r : Rng) :
  0 <= get_height (bird1 a) -> 0 <= get_height (bird2 a) ->
  0 <= get_height (bird3 a) ->
  exists g : Game,
    (g0 <- Game_init CFG a r ;; quadros CFG 26 g0) = Ok g
    /\ passaros g = [] /\ rodando g = false /\ pontos g = 0.
Proof.
  intros H1 H2 H3. unfold Game_init.
  match goal with
  | |- context [reset CFG ?g0] =>
      destruct (reset_ok CFG g0 CFG_range) as (c & r1 & Hc & Hr);
      pose proof (reset_antes 0 g0 _ (Z.le_refl 0) Hr) as Hant0
  end.
  rewrite Hr. cbn [bind].
  match goal with
  | |- context [quadros CFG 26 ?g0] =>
      destruct (quadros_ocioso a 26 0 g0 H1 H2 H3)
        as (g & Hq & _ & Hend & Hant)
  end.
  { split; [reflexivity |]. split; [reflexivity |]. right.
    eexists. split; [reflexivity |]. simpl. repeat split; tauto. }
  exists g. split; [exact Hq |].
  destruct Hend as [Hp Hrod]; [lia | vm_compute; reflexivity |].
  split; [exact Hp |]. split; [exact Hrod |].
  destruct (Hant 0) as (Hpt & _); [lia | simpl; lia | exact Hant0 |].
  exact Hpt.
Qed.

Lemma ocioso_perde_witness :
  exists g : Game,
    (g0 <- Game_init CFG exemplo_assets exemplo_rng ;; quadros CFG 26 g0)
    = Ok g
    /\ passaros g = [] /\ rodando g = false /\ pontos g = 0.
Proof.
  apply ocioso_perde; simpl; lia.
Defined.

(** ** The pipe ahead *)

Lemma Cano_init_topo (cfg : Config) (o : nat) (x0 : Z) (a : Assets)
  (r r' : Rng) (c : Cano.t) :
  Cano.init cfg o x0 a r = Ok (c, r') ->
  Cano.CANO_TOPO c = flip_vertical (pipe a).
Proof.
  unfold Cano.init, Cano.definir_altura.
  destruct (randrange _ _ _) as [[h r1] | ex]; simpl; [| discriminate].
  intros [= <- _]. reflexivity.
Qed.

Lemma evolui_topo (cfg : Config) (c c' : Cano.t) :
  evolui cfg c c' ->
  Cano.CANO_TOPO c' = Cano.CANO_TOPO c
  /\ (Cano.passou c' = false ->
      Cano.passou c = false /\ Cano.x c' = Cano.x c - VELOCIDADE_CANO cfg).
Proof.
  intros [-> | [Hp ->]]; split; try reflexivity; simpl.
  - auto.
  - discriminate.
Qed.

Lemma atualizar_estado_assets (cfg : Config) (g g' : Game) :
  atualizar_estado cfg g = Ok g' -> assets g' = assets g.
Proof.
  unfold atualizar_estado. cbn zeta.
  destruct (v_adicionar _).
  - destruct (Cano.init _ _ _ _ _) as [[c r] | ex]; simpl; [| discriminate].
    now intros [= <-].
  - simpl. now intros [= <-].
Qed.

Lemma reset_regular (g g' : Game) :
  0 <= get_width (pipe (assets g)) ->
  reset CFG g = Ok g' -> sessao_regular g'.
Proof.
  intros Hw Hr. pose proof (reset_bem_formado CFG g g' Hr) as Hbf.
  destruct (reset_ok CFG g CFG_range) as (c & r & Hc & Hr').
  rewrite Hr' in Hr. injection Hr as <-.
  pose proof (Cano_init_topo _ _ _ _ _ _ _ Hc) as Ht.
  apply Cano_init_inv in Hc. destruct Hc as (_ & Hx & Hp & _).
  split; [exact Hbf |]. cbn [passaros canos assets].
  split; [intros p [<- | []]; reflexivity |].
  split; [exact Hw |].
  split; [intros c' [<- | []]; rewrite Ht; reflexivity |].
  intros _. unfold nao_passados. cbn [filter]. rewrite Hp. cbn [negb length].
  split; [reflexivity |]. intros c' [<- | []] _. lia.
Qed.

Lemma processar_eventos_regular (evs : list Evento) (g g' : Game) :
  sessao_regular g ->
  processar_eventos CFG evs g = Ok g' -> sessao_regular g'.
Proof.
  revert g. induction evs as [| e evs IH]; simpl; intros g Hreg H.
  - now injection H as <-.
  - destruct (processar_evento CFG g e) as [g1 | ex] eqn:He; simpl in H;
      [| discriminate].
    apply (IH g1); [| exact H].
    destruct e as [| [| | |] |]; simpl in He;
      try (injection He as <-; exact Hreg).
    + injection He as <-.
      destruct Hreg as (Hbf & Hb & Hw & Ht & Hone).
      split; [| split; [| split; [exact Hw | split; [exact Ht |]]]].
      * destruct Hbf as (Hp & Hrest). split; [| exact Hrest].
        change (NoDup (map Passaro.oid
                           (map (Passaro.pular CFG) (passaros g)))).
        now rewrite map_oid_pular.
      * intros q Hin. cbn [passaros set_passaros] in Hin.
        apply in_map_iff in Hin. destruct Hin as (p & <- & Hin).
        change (Passaro.x p = 230). now apply Hb.
      * intros Hne. apply Hone. intros E. apply Hne.
        cbn [passaros set_passaros]. now rewrite E.
    + apply (reset_regular g); [| exact He]. now destruct Hreg as (_ & _ & Hw & _).
Qed.

Lemma filter_length_pos {A : Type} (f : A -> bool) (l : list A) (a : A) :
  In a l -> f a = true -> (1 <= length (filter f l))%nat.
Proof.
  intros Hin Hf.
  assert (H : In a (filter f l)) by (apply filter_In; auto).
  destruct (filter f l); [destruct H | simpl; lia].
Qed.

Lemma atualizar_estado_regular (g g' : Game) :
  sessao_regular g ->
  atualizar_estado CFG g = Ok g' -> sessao_regular g'.
Proof.
  intros (Hbf & Hb & Hw & Ht & Hone) Hok.
  destruct (atualizar_estado_step CFG g g' Hbf Hok) as (Hbf' & _ & Hle & _).
  pose proof (atualizar_estado_canos CFG g g' Hbf Hok) as Hcs.
  pose proof (atualizar_estado_assets CFG g g' Hok) as Has.
  pose proof Hok as Hinv. apply atualizar_estado_inv in Hinv.
  cbn zeta in Hinv. destruct Hinv as (Hps & _ & _).
  unfold canos_varridos, cano_novo in *.
  set (ps := map (Passaro.mover CFG) (passaros g)) in *.
  set (v := varrer_canos CFG ps (canos g)) in *.
  destruct (varrer_canos_spec CFG ps (canos g)) as (Hev & Had & _).
  fold v in Hev, Had.
  pose proof (evolui_nao_passados CFG _ _ Hev) as Hcount.
  (* the new pipe *)
  assert (Hnovo : forall c, In c (if v_adicionar v
                    then match Cano.init CFG (next_oid g)
                                 (TELA_LARGURA CFG + 100) (assets g) (rng g)
                         with Ok (novo, _) => [novo] | Raise _ => [] end
                    else []) ->
            Cano.x c = 600 /\ Cano.passou c = false
            /\ Cano.CANO_TOPO c = flip_vertical (pipe (assets g))).
  { intros c Hin. destruct (v_adicionar v); [| destruct Hin].
    destruct (Cano.init _ _ _ _ _) as [[novo r] | ex] eqn:Hi; [| destruct Hin].
    destruct Hin as [<- | []].
    pose proof (Cano_init_topo _ _ _ _ _ _ _ Hi) as Htp.
    apply Cano_init_inv in Hi. destruct Hi as (_ & Hx & Hp & _). auto. }
  assert (Hold : forall c', In c' (v_canos v) ->
            exists c, In c (canos g) /\ evolui CFG c c').
  { intros c' Hin. exact (evolui_In CFG (canos g) (v_canos v) c' Hev Hin). }
  split; [exact Hbf' |].
  split.
  { intros q Hq.
    destruct (atualizar_estado_passaros CFG g g' q Hok Hq) as (p & Hin & ->).
    change (Passaro.x p = 230). now apply Hb. }
  split; [now rewrite Has |].
  split.
  { intros c' Hin. rewrite Has. rewrite Hcs in Hin.
    apply in_app_or in Hin. destruct Hin as [Hin | Hin].
    - apply filter_In in Hin. destruct Hin as [Hin _].
      destruct (Hold c' Hin) as (c & Hc & He).
      destruct (evolui_topo CFG c c' He) as [-> _]. now apply Ht.
    - destruct (Hnovo c' Hin) as (_ & _ & ->). reflexivity. }
  intros Hne.
  (* a bird is left: it was in the list all along the sweep *)
  destruct (passaros g') as [| q l] eqn:Eq; [congruence |]. clear Hne.
  assert (Hq : In q (v_passaros v)).
  { apply (verificar_limites_In (Chao.mover (chao g))).
    rewrite <- Hps. now left. }
  assert (Hq' : In q (passaros g')) by (rewrite Eq; now left).
  destruct (atualizar_estado_passaros CFG g g' q Hok Hq') as (p & Hp & Hqp).
  assert (Hxq : Passaro.x q = 230)
    by (rewrite Hqp; change (Passaro.x p = 230); now apply Hb).
  assert (Hne : passaros g <> []) by (intros E; rewrite E in Hp; destruct Hp).
  destruct (Hone Hne) as [Hc1 Hx].
  rewrite Hc1 in Hcount.
  (* the pipes swept and still not passed are ahead and visible *)
  assert (HA : forall c', In c' (v_canos v) -> Cano.passou c' = false ->
            225 <= Cano.x c' /\ fora_da_tela c' = false).
  { intros c' Hin Hnp. destruct (Hold c' Hin) as (c & Hc & He).
    destruct (evolui_topo CFG c c' He) as [Htp Hst].
    destruct (Hst Hnp) as [Hcp Hcx].
    assert (Hnp1 : (1 <= length (nao_passados (v_canos v)))%nat).
    { apply (filter_length_pos _ _ c' Hin). now rewrite Hnp. }
    assert (Hno : v_adicionar v = false).
    { rewrite Had. apply Nat.ltb_ge. lia. }
    assert (H230 : 230 <= Cano.x c).
    { destruct (Z.le_gt_cases 230 (Cano.x c)) as [H | H]; [exact H |].
      exfalso.
      assert (Hcr : cruza c q = true).
      { unfold cruza. rewrite Hcp, Hxq. simpl.
        apply Z.gtb_lt. lia. }
      pose proof (fold_verificar_cano_cruzou CFG (canos g)
                    (mkVarredura [] ps false []) c q Hc Hq Hcr) as Hyes.
      fold (varrer_canos CFG ps (canos g)) in Hyes. fold v in Hyes.
      congruence. }
    change (VELOCIDADE_CANO CFG) with 5 in Hcx.
    split; [lia |].
    unfold fora_da_tela. rewrite Htp, (Ht c Hc).
    apply Z.ltb_ge. lia. }
  assert (Hfil : nao_passados (filter (fun c => negb (fora_da_tela c))
                                      (v_canos v))
                 = nao_passados (v_canos v)).
  { unfold nao_passados. rewrite filter_filter_and.
    apply filter_ext_in. intros c' Hin.
    destruct (Cano.passou c') eqn:E; simpl.
    - now rewrite andb_false_r.
    - destruct (HA c' Hin E) as [_ ->]. reflexivity. }
  split.
  - rewrite Hcs. unfold nao_passados at 1. rewrite filter_app, length_app.
    fold (nao_passados (filter (fun c => negb (fora_da_tela c)) (v_canos v))).
    rewrite Hfil.
    destruct (v_adicionar v) eqn:Ev.
    + symmetry in Had. apply Nat.ltb_lt in Had.
      destruct (Cano_init_ok CFG (next_oid g) (TELA_LARGURA CFG + 100)
                             (assets g) (rng g) CFG_range)
        as (novo & r & -> & _ & _ & Hpn & _).
      cbn [filter]. rewrite Hpn. cbn [negb length]. lia.
    + symmetry in Had. apply Nat.ltb_ge in Had. cbn [filter length]. lia.
  - intros c' Hin Hnp. rewrite Hcs in Hin. apply in_app_or in Hin.
    destruct Hin as [Hin | Hin].
    + apply filter_In in Hin. destruct Hin as [Hin _].
      now destruct (HA c' Hin Hnp).
    + destruct (Hnovo c' Hin) as (-> & _). lia.
Qed.

Lemma passo_regular (g g' : Game) (s : Passo) :
  sessao_regular g -> passo CFG g s = Ok g' -> sessao_regular g'.
Proof.
  intros Hreg. destruct s as [evs | |]; simpl; intros H.
  - now apply (processar_eventos_regular evs g).
  - now apply (atualizar_estado_regular g).
  - injection H as <-.
    destruct Hreg as (Hbf & Hb & Hw & Ht & Hone).
    split; [| split; [| split; [exact Hw | split; [exact Ht |]]]].
    + destruct Hbf as (Hp & Hrest). split; [| exact Hrest].
      change (NoDup (map Passaro.oid
                         (map (Passaro.desenhar CFG) (passaros g)))).
      now rewrite map_oid_desenhar.
    + intros q Hin. unfold desenhar_tela in Hin.
      cbn [passaros set_passaros] in Hin.
      apply in_map_iff in Hin. destruct Hin as (p & <- & Hin).
      destruct (desenhar_fields p) as (_ & Hx & _). rewrite Hx.
      now apply Hb.
    + intros Hne. apply Hone. intros E. apply Hne.
      unfold desenhar_tela. cbn [passaros set_passaros]. now rewrite E.
Qed.

Lemma correr_regular (sts : list Passo) (g g' : Game) :
  sessao_regular g -> correr CFG sts g = Ok g' -> sessao_regular g'.
Proof.
  revert g. induction sts as [| s sts IH]; intros g Hreg H.
  - now injection H as <-.
  - cbn [correr] in H.
    destruct (passo CFG g s) as [g1 | ex] eqn:E; simpl in H; [| discriminate].
    apply (IH g1); [| exact H]. now apply (passo_regular g g1 s).
Qed.

(** X10.  In every session of a run (with a pipe image of non-negative
    width), while a bird is active exactly one pipe is not passed yet, and
    it is at x = 225 or further right: there is always one pipe ahead of
    the birds, which stay at x = 230. *)
Theorem um_cano_a_frente (a : Assets) (r : Rng) (sts : list Passo)
  (g : Game) :
  0 <= get_width (pipe a) ->
  (g0 <- Game_init CFG a r ;; correr CFG sts g0) = Ok g ->
  passaros g <> [] ->
  (forall p, In p (passaros g) -> Passaro.x p = 230)
  /\ exists c : Cano.t,
      nao_passados (canos g) = [c] /\ 225 <= Cano.x c.
Proof.
  intros Hw Hrun Hne.
  destruct (Game_init CFG a r) as [g0 | ex] eqn:Hi; simpl in Hrun;
    [| discriminate].
  assert (H0 : sessao_regular g0).
  { unfold Game_init in Hi. apply (reset_regular _ g0) in Hi; [exact Hi |].
    exact Hw. }
  pose proof (correr_regular sts g0 g H0 Hrun) as (_ & Hb & _ & _ & Hone).
  split; [exact Hb |].
  destruct (Hone Hne) as [Hc Hx].
  destruct (nao_passados (canos g)) as [| c [| d l]] eqn:E;
    try discriminate.
  exists c. split; [reflexivity |].
  assert (Hin : In c (nao_passados (canos g))) by (rewrite E; now left).
  apply filter_In in Hin. destruct Hin as [Hin Hp].
  apply Hx; [exact Hin |]. now destruct (Cano.passou c).
Qed.

Lemma um_cano_a_frente_witness :
  exists (g : Game) (c : Cano.t),
    (g0 <- Game_init CFG exemplo_assets exemplo_rng_150 ;;
     correr CFG exemplo_jogada g0) = Ok g
    /\ nao_passados (canos g) = [c] /\ 225 <= Cano.x c.
Proof.
  destruct (g0 <- Game_init CFG exemplo_assets exemplo_rng_150 ;;
            correr CFG exemplo_jogada g0) as [g | ex] eqn:H.
  - assert (Hne : passaros g <> []).
    { revert H. vm_compute. intros [= <-]. discriminate. }
    assert (Hw : 0 <= get_width (pipe exemplo_assets)) by (simpl; lia).
    destruct (um_cano_a_frente _ _ _ _ Hw H Hne) as (_ & c & Hc & Hx).
    exists g, c. auto.
  - exfalso. revert H. vm_compute. discriminate.
Defined.

(** ** Leaving the program *)

Lemma esperar_retorna (cfg : Config) (evs : list Evento) (g : Game)
  (espera : bool) :
  esperar cfg evs g espera = Ok Retorna ->
  In QUIT evs \/ In (KEYDOWN K_ESCAPE) evs.
Proof.
  revert g espera. induction evs as [| e evs IH]; intros g espera H.
  - discriminate.
  - destruct e as [| [| | |] |]; cbn [esperar] in H.
    + left. now left.
    + destruct (IH _ _ H); [left | right]; now right.
    + destruct (reset cfg g) as [g1 | ex]; simpl in H; [| discriminate].
      destruct (IH _ _ H); [left | right]; now right.
    + right. now left.
    + destruct (IH _ _ H); [left | right]; now right.
    + destruct (IH _ _ H); [left | right]; now right.
Qed.

Lemma run_de_retornou (cfg : Config) (script : list (list Evento))
  (f : Fase) (g : Game) :
  run_de cfg script f g = Ok Retornou ->
  exists (pre : list (list Evento)) (evs : list Evento)
         (post : list (list Evento)),
    script = pre ++ evs :: post
    /\ (In QUIT evs \/ In (KEYDOWN K_ESCAPE) evs)
    /\ (f = NoJogo -> pre <> []).
Proof.
  revert f g. induction script as [| evs rest IH]; intros f g H.
  - discriminate.
  - destruct f; cbn [run_de] in H.
    + destruct (run_quadro cfg evs g) as [g1 | ex]; simpl in H;
        [| discriminate].
      assert (Hrec : exists f1, run_de cfg rest f1 g1 = Ok Retornou).
      { destruct (rodando g1); eauto. }
      destruct Hrec as (f1 & Hrec).
      destruct (IH f1 g1 Hrec) as (pre & evs1 & post & -> & Hq & _).
      exists (evs :: pre), evs1, post. repeat split; try assumption.
      discriminate.
    + destruct (esperar cfg evs g true) as [[| g1 [|]] | ex] eqn:E;
        simpl in H; try discriminate.
      * exists [], evs, rest. split; [reflexivity |].
        split; [now apply (esperar_retorna cfg evs g true) | discriminate].
      * destruct (IH _ _ H) as (pre & evs1 & post & -> & Hq & _).
        exists (evs :: pre), evs1, post. repeat split; try assumption.
        discriminate.
      * destruct (IH _ _ H) as (pre & evs1 & post & -> & Hq & _).
        exists (evs :: pre), evs1, post. repeat split; try assumption.
        discriminate.
Qed.

Lemma run_quadro_QUIT (g : Game) :
  exists g1 : Game, run_quadro CFG [QUIT] g = Ok g1 /\ rodando g1 = false.
Proof.
  unfold run_quadro. cbn [processar_eventos processar_evento bind].
  destruct (atualizar_estado_ok CFG (set_rodando false g) CFG_range)
    as (g1 & Hok).
  rewrite Hok. cbn [bind]. eexists. split; [reflexivity |].
  apply atualizar_estado_inv in Hok. cbn zeta in Hok.
  destruct Hok as (_ & Hrod & _).
  unfold desenhar_tela. cbn [rodando set_passaros]. rewrite Hrod.
  now destruct (passaros g1).
Qed.

(** X11.  [run] returns only from the game-over screen: when it returns,
    some poll of the events after the first one holds a QUIT event or the
    Escape key; in particular it never returns on its first poll,
    whatever the events.  Closing the window during play only ends the
    round: a second QUIT event, on the game-over screen, makes [run]
    return. *)
Theorem run_returns_from_game_over :
  (forall (script : list (list Evento)) (g : Game),
      run CFG script g = Ok Retornou ->
      exists (pre : list (list Evento)) (evs : list Evento)
             (post : list (list Evento)),
        script = pre ++ evs :: post
        /\ pre <> []
        /\ (In QUIT evs \/ In (KEYDOWN K_ESCAPE) evs))
  /\ (forall (evs : list Evento) (g : Game),
         run CFG [evs] g <> Ok Retornou)
  /\ (forall g : Game, run CFG [[QUIT]; [QUIT]] g = Ok Retornou).
Proof.
  split; [| split].
  - intros script g H. unfold run in H.
    destruct (run_de_retornou CFG script NoJogo _ H)
      as (pre & evs & post & Hs & Hq & Hpre).
    exists pre, evs, post. auto.
  - intros evs g H. unfold run in H.
    destruct (run_de_retornou CFG [evs] NoJogo _ H)
      as (pre & evs1 & post & Hs & _ & Hpre).
    specialize (Hpre eq_refl).
    destruct pre as [| a [| b pre]]; [congruence | |]; discriminate.
  - intros g. unfold run. cbn [run_de].
    destruct (run_quadro_QUIT (set_rodando true g)) as (g1 & -> & Hr).
    cbn [bind]. rewrite Hr. reflexivity.
Qed.

Lemma run_returns_from_game_over_witness :
  exists (pre : list (list Evento)) (evs : list Evento)
         (post : list (list Evento)),
    [[QUIT]; [QUIT]] = pre ++ evs :: post
    /\ pre <> []
    /\ (In QUIT evs \/ In (KEYDOWN K_ESCAPE) evs).
Proof.
  destruct run_returns_from_game_over as (H1 & _ & H3).
  exact (H1 [[QUIT]; [QUIT]] exemplo_dois (H3 exemplo_dois)).
Defined.

(** ** Collisions and bounding boxes *)

Lemma overlap_box (a b : Mask) (dx dy : Z) :
  truthy (overlap a b (dx, dy)) = true ->
  exists px py : Z,
    (0 <= px < mask_w a /\ 0 <= py < mask_h a)
    /\ (0 <= px - dx < mask_w b /\ 0 <= py - dy < mask_h b).
Proof.
  intros H. apply overlap_iff in H.
  destruct H as (px & py & Ha & _ & Hb & _).
  apply inside_iff in Ha, Hb. exists px, py. auto.
Qed.

(** X12.  [colidir] reports no collision when the bounding box of the
    bird's image, at the bird's position with the height rounded, is
    wholly to the left of the pipe, wholly to the right of both barriers,
    or vertically between the lower edge of the upper barrier and the
    upper edge of the lower one. *)
Theorem colidir_needs_contact (c : Cano.t) (p : Passaro.t) :
  let ry := py_round (Passaro.y p) in
  let wb := get_width (Passaro.imagem p) in
  let hb := get_height (Passaro.imagem p) in
  Passaro.x p + wb <= Cano.x c
  \/ (Cano.x c + get_width (Cano.CANO_TOPO c) <= Passaro.x p
      /\ Cano.x c + get_width (Cano.CANO_BASE c) <= Passaro.x p)
  \/ (Cano.borda_topo c <= ry /\ ry + hb <= Cano.borda_base c) ->
  Cano.colidir c p = false.
Proof.
  intros ry wb hb Hfree. unfold Cano.colidir.
  fold ry. apply orb_false_iff. split.
  - destruct (truthy (overlap _ _ _)) eqn:E; [| reflexivity].
    exfalso. apply overlap_box in E.
    destruct E as (px & py & [Hx Hy] & [Hx' Hy']).
    cbn [mask_w mask_h from_surface Passaro.get_mask] in *.
    unfold Cano.borda_topo, Cano.borda_base in Hfree.
    fold wb in Hx. fold hb in Hy. lia.
  - destruct (truthy (overlap _ _ _)) eqn:E; [| reflexivity].
    exfalso. apply overlap_box in E.
    destruct E as (px & py & [Hx Hy] & [Hx' Hy']).
    cbn [mask_w mask_h from_surface Passaro.get_mask] in *.
    unfold Cano.borda_topo, Cano.borda_base in Hfree.
    fold wb in Hx. fold hb in Hy. lia.
Qed.

Lemma colidir_needs_contact_witness :
  Cano.colidir exemplo_cano (Passaro.mover CFG exemplo_passaro) = false.
Proof.
  apply colidir_needs_contact. right. right. vm_compute.
  split; discriminate.
Defined.

(** ** The angle after an impulse *)

Lemma trajetoria_impulso_below_50 (n : nat) :
  (n <= 16)%nat -> (trajetoria CFG (IMPULSO_PULO CFG) n < 50)%Q.
Proof.
  intros Hn.
  do 17 (destruct n as [| n]; [vm_compute; reflexivity |]). lia.
Qed.

Lemma iter_mover_pular_angulo (p : Passaro.t) (n : nat) :
  Passaro.angulo p <= ROTACAO_MAXIMA CFG ->
  (1 <= n <= 16)%nat ->
  Passaro.angulo (Nat.iter n (Passaro.mover CFG) (Passaro.pular CFG p))
  = ROTACAO_MAXIMA CFG.
Proof.
  intros Hang. induction n as [| n IH]; [lia |]. intros Hn.
  change (Nat.iter (S n) (Passaro.mover CFG) (Passaro.pular CFG p))
    with (Passaro.mover CFG
            (Nat.iter n (Passaro.mover CFG) (Passaro.pular CFG p))).
  set (q := Nat.iter n (Passaro.mover CFG) (Passaro.pular CFG p)) in *.
  assert (Hq : Passaro.angulo q <= ROTACAO_MAXIMA CFG).
  { destruct n as [| n']; [exact Hang |]. rewrite IH by lia. lia. }
  assert (Hy : Passaro.y (Passaro.mover CFG q)
               == Passaro.y p + trajetoria CFG (IMPULSO_PULO CFG) (S n)).
  { change (Passaro.mover CFG q)
      with (Nat.iter (S n) (Passaro.mover CFG) (Passaro.pular CFG p)).
    rewrite iter_mover_y by reflexivity. reflexivity. }
  destruct (iter_mover_fields CFG n (Passaro.pular CFG p))
    as (_ & _ & Hini & _).
  cbn zeta in Hini. fold q in Hini.
  change (Passaro.altura_inicio_pulo (Passaro.pular CFG p))
    with (Passaro.y p) in Hini.
  change (Passaro.angulo (Passaro.mover CFG q))
    with (Passaro.girar CFG
            (Passaro.deslocamento CFG (Passaro.velocidade q)
                                  (Passaro.tempo q + 1))
            (Passaro.y (Passaro.mover CFG q))
            (Passaro.altura_inicio_pulo q) (Passaro.angulo q)).
  unfold Passaro.girar.
  assert (E : Qltb (Passaro.y (Passaro.mover CFG q))
                   (Passaro.altura_inicio_pulo q + 50) = true).
  { apply Qltb_lt. rewrite Hy, Hini.
    pose proof (trajetoria_impulso_below_50 (S n)) as Hlow.
    assert (Hn16 : (S n <= 16)%nat) by lia. specialize (Hlow Hn16). lra. }
  rewrite E, orb_true_r.
  destruct (Z.ltb_spec (Passaro.angulo q) (ROTACAO_MAXIMA CFG)); lia.
Qed.

(** X13.  After an impulse on a bird whose angle is at most the maximum,
    the angle is the maximum 25 at each of the next 16 ticks, and 5 at the
    seventeenth: the bird points up for 16 ticks, whatever its height and
    fall before the impulse. *)
Theorem pular_holds_angle (p : Passaro.t) (n : nat) :
  Passaro.angulo p <= ROTACAO_MAXIMA CFG ->
  ((1 <= n <= 16)%nat ->
   Passaro.angulo (Nat.iter n (Passaro.mover CFG) (Passaro.pular CFG p))
   = 25)
  /\ Passaro.angulo (Nat.iter 17 (Passaro.mover CFG) (Passaro.pular CFG p))
     = 5.
Proof.
  intros Hang. split.
  - intros Hn. now apply iter_mover_pular_angulo.
  - assert (Hgen : forall m : nat, m = 16%nat ->
             Passaro.angulo
               (Nat.iter (S m) (Passaro.mover CFG) (Passaro.pular CFG p))
             = 5); [| exact (Hgen 16%nat eq_refl)].
    intros m Hm.
    change (Nat.iter (S m) (Passaro.mover CFG) (Passaro.pular CFG p))
      with (Passaro.mover CFG
              (Nat.iter m (Passaro.mover CFG) (Passaro.pular CFG p))).
    assert (Hq : Passaro.angulo
                   (Nat.iter m (Passaro.mover CFG) (Passaro.pular CFG p))
                 = 25).
    { apply iter_mover_pular_angulo; [exact Hang | lia]. }
    pose proof (iter_mover_y CFG (S m) (Passaro.pular CFG p) eq_refl) as Hy.
    change (Nat.iter (S m) (Passaro.mover CFG) (Passaro.pular CFG p))
      with (Passaro.mover CFG
              (Nat.iter m (Passaro.mover CFG) (Passaro.pular CFG p))) in Hy.
    destruct (iter_mover_fields CFG m (Passaro.pular CFG p))
      as (Ht & Hv & Hini & _).
    cbn zeta in Ht, Hv, Hini.
    set (q := Nat.iter m (Passaro.mover CFG) (Passaro.pular CFG p)) in *.
    change (Passaro.altura_inicio_pulo (Passaro.pular CFG p))
      with (Passaro.y p) in Hini.
    change (Passaro.velocidade (Passaro.pular CFG p))
      with (IMPULSO_PULO CFG) in Hv, Hy.
    change (Passaro.tempo (Passaro.pular CFG p)) with 0 in Ht.
    change (Passaro.y (Passaro.pular CFG p)) with (Passaro.y p) in Hy.
    change (Passaro.angulo (Passaro.mover CFG q))
      with (Passaro.girar CFG
              (Passaro.deslocamento CFG (Passaro.velocidade q)
                                    (Passaro.tempo q + 1))
              (Passaro.y (Passaro.mover CFG q))
              (Passaro.altura_inicio_pulo q) (Passaro.angulo q)).
    unfold Passaro.girar. rewrite Hv, Ht, Hq.
    assert (E1 : Qltb (Passaro.deslocamento CFG (IMPULSO_PULO CFG)
                                            (0 + Z.of_nat m + 1)) 0
                 = false) by (rewrite Hm; vm_compute; reflexivity).
    assert (E2 : Qltb (Passaro.y (Passaro.mover CFG q))
                      (Passaro.altura_inicio_pulo q + 50) = false).
    { apply Qltb_ge. rewrite Hy, Hini.
      assert (H60 : trajetoria CFG (IMPULSO_PULO CFG) (S m) == 60)
        by (rewrite Hm; vm_compute; reflexivity).
      rewrite H60. lra. }
    rewrite E1, E2. reflexivity.
Qed.

Lemma pular_holds_angle_witness :
  Passaro.angulo (Nat.iter 16 (Passaro.mover CFG)
                           (Passaro.pular CFG exemplo_passaro)) = 25.
Proof.
  apply (proj1 (pular_holds_angle exemplo_passaro 16
                  ltac:(vm_compute; discriminate))).
  lia.
Defined.

(** ** The image cache *)

Lemma cache_get_cons_same (k : String.string) (v : Surface)
  (cache : list (String.string * Surface)) :
  cache_get k ((k, v) :: cache) = Some v.
Proof. unfold cache_get. simpl. now rewrite String.eqb_refl. Qed.

Lemma cache_get_cons_other (k k' : String.string) (v : Surface)
  (cache : list (String.string * Surface)) :
  k' <> k -> cache_get k ((k', v) :: cache) = cache_get k cache.
Proof.
  intros Hne. unfold cache_get. simpl.
  destruct (String.eqb_spec k' k); [contradiction | reflexivity].
Qed.

Lemma carregar_hit
  (join : String.string -> String.string -> String.string)
  (load : String.string -> option Surface) (scale2x : Surface -> Surface)
  (f : String.string) (dobrar : bool) (s : Carregador) (surf : Surface) :
  cache_get (join (imgs_dir s) f) (_cache s) = Some surf ->
  _carregar join load scale2x f dobrar s = Some (surf, s).
Proof. intros H. unfold _carregar. cbn zeta. now rewrite H. Qed.

Lemma carregar_cached
  (join : String.string -> String.string -> String.string)
  (load : String.string -> option Surface) (scale2x : Surface -> Surface)
  (f : String.string) (dobrar : bool) (s s1 : Carregador) (surf : Surface) :
  _carregar join load scale2x f dobrar s = Some (surf, s1) ->
  imgs_dir s1 = imgs_dir s
  /\ cache_get (join (imgs_dir s) f) (_cache s1) = Some surf
  /\ forall (k : String.string) (v : Surface),
      cache_get k (_cache s) = Some v -> cache_get k (_cache s1) = Some v.
Proof.
  unfold _carregar. cbn zeta.
  destruct (cache_get (join (imgs_dir s) f) (_cache s)) as [v0 |] eqn:E.
  - intros [= <- <-]. auto.
  - destruct (load (join (imgs_dir s) f)) as [img |]; [| discriminate].
    intros [= <- <-]. cbn [imgs_dir _cache].
    split; [reflexivity |]. split; [apply cache_get_cons_same |].
    intros k v Hk. rewrite cache_get_cons_other; [exact Hk |].
    intros Heq. rewrite <- Heq in Hk. congruence.
Qed.

(** X14.  [_carregar] is memoised by path alone: once a file has been
    loaded, every later call for the same file name returns the very same
    surface and leaves the cache as it is, whatever the [scale2x] flag of
    the later call and whatever the disk then holds; and a load never
    drops or replaces the image cached for another path. *)
Theorem carregar_memo
  (join : String.string -> String.string -> String.string)
  (load load' : String.string -> option Surface)
  (scale2x scale2x' : Surface -> Surface)
  (f : String.string) (dobrar dobrar' : bool) (s s1 : Carregador)
  (surf : Surface) :
  _carregar join load scale2x f dobrar s = Some (surf, s1) ->
  _carregar join load' scale2x' f dobrar' s1 = Some (surf, s1)
  /\ forall (k : String.string) (v : Surface),
      cache_get k (_cache s) = Some v -> cache_get k (_cache s1) = Some v.
Proof.
  intros H. destruct (carregar_cached _ _ _ _ _ _ _ _ H) as (Hd & Hc & Hk).
  split; [| exact Hk].
  apply carregar_hit. now rewrite Hd.
Qed.

(** A file loaded at its own size is still at that size when it is asked
    for doubled, and the other way round. *)
Lemma carregar_memo_witness :
  exists (surf : Surface) (s1 : Carregador),
    _carregar exemplo_join exemplo_load exemplo_scale2x "bg.png"%string
              false (mkCarregador "imgs"%string []) = Some (surf, s1)
    /\ _carregar exemplo_join exemplo_load_vazio exemplo_scale2x
                 "bg.png"%string true s1 = Some (surf, s1)
    /\ get_width surf = 2.
Proof.
  do 2 eexists. split; [reflexivity |]. split; [| reflexivity].
  refine (proj1 (carregar_memo exemplo_join exemplo_load exemplo_load_vazio
                   exemplo_scale2x exemplo_scale2x "bg.png"%string false true
                   (mkCarregador "imgs"%string []) _ _ _)).
  reflexivity.
Defined.

Lemma Assets_init_steps
  (join : String.string -> String.string -> String.string)
  (load : String.string -> option Surface) (scale2x : Surface -> Surface)
  (dir : String.string) (a : Assets) (s : Carregador) :
  Assets_init join load scale2x dir = Some (a, s) ->
  exists s1 s2 s3 s4 s5 : Carregador,
    _carregar join load scale2x "pipe.png"%string true
              (mkCarregador dir []) = Some (pipe a, s1)
    /\ _carregar join load scale2x "base.png"%string true s1
       = Some (base a, s2)
    /\ _carregar join load scale2x "bg.png"%string true s2 = Some (bg a, s3)
    /\ _carregar join load scale2x "bird1.png"%string true s3
       = Some (bird1 a, s4)
    /\ _carregar join load scale2x "bird2.png"%string true s4
       = Some (bird2 a, s5)
    /\ _carregar join load scale2x "bird3.png"%string true s5
       = Some (bird3 a, s).
Proof.
  unfold Assets_init. cbn zeta.
  destruct (_carregar join load scale2x "pipe.png"%string true
              (mkCarregador dir [])) as [[i1 s1] |] eqn:E1; [| discriminate].
  destruct (_carregar join load scale2x "base.png"%string true s1)
    as [[i2 s2] |] eqn:E2; [| discriminate].
  destruct (_carregar join load scale2x "bg.png"%string true s2)
    as [[i3 s3] |] eqn:E3; [| discriminate].
  destruct (_carregar join load scale2x "bird1.png"%string true s3)
    as [[i4 s4] |] eqn:E4; [| discriminate].
  destruct (_carregar join load scale2x "bird2.png"%string true s4)
    as [[i5 s5] |] eqn:E5; [| discriminate].
  destruct (_carregar join load scale2x "bird3.png"%string true s5)
    as [[i6 s6] |] eqn:E6; [| discriminate].
  intros [= <- <-]. cbn [pipe base bg bird1 bird2 bird3].
  exists s1, s2, s3, s4, s5. repeat split; assumption.
Qed.

(** X15.  When [Assets.__init__] succeeds, each of its six images is in
    the cache under the path of its file, and asking [_carregar] again for
    any of the six files returns that image and changes nothing. *)
Theorem Assets_init_cached
  (join : String.string -> String.string -> String.string)
  (load : String.string -> option Surface) (scale2x : Surface -> Surface)
  (dir : String.string) (a : Assets) (s : Carregador) :
  Assets_init join load scale2x dir = Some (a, s) ->
  imgs_dir s = dir
  /\ forall (load' : String.string -> option Surface) (dobrar : bool),
      _carregar join load' scale2x "pipe.png"%string dobrar s
      = Some (pipe a, s)
      /\ _carregar join load' scale2x "base.png"%string dobrar s
         = Some (base a, s)
      /\ _carregar join load' scale2x "bg.png"%string dobrar s
         = Some (bg a, s)
      /\ _carregar join load' scale2x "bird1.png"%string dobrar s
         = Some (bird1 a, s)
      /\ _carregar join load' scale2x "bird2.png"%string dobrar s
         = Some (bird2 a, s)
      /\ _carregar join load' scale2x "bird3.png"%string dobrar s
         = Some (bird3 a, s).
Proof.
  intros H. apply Assets_init_steps in H.
  destruct H as (s1 & s2 & s3 & s4 & s5 & H1 & H2 & H3 & H4 & H5 & H6).
  destruct (carregar_cached _ _ _ _ _ _ _ _ H1) as (D1 & C1 & K1).
  destruct (carregar_cached _ _ _ _ _ _ _ _ H2) as (D2 & C2 & K2).
  destruct (carregar_cached _ _ _ _ _ _ _ _ H3) as (D3 & C3 & K3).
  destruct (carregar_cached _ _ _ _ _ _ _ _ H4) as (D4 & C4 & K4).
  destruct (carregar_cached _ _ _ _ _ _ _ _ H5) as (D5 & C5 & K5).
  destruct (carregar_cached _ _ _ _ _ _ _ _ H6) as (D6 & C6 & K6).
  cbn [imgs_dir] in D1, C1.
  assert (Hd : imgs_dir s = dir) by congruence.
  split; [exact Hd |].
  intros load' dobrar.
  repeat split; apply carregar_hit; rewrite Hd.
  - apply K6, K5, K4, K3, K2. exact C1.
  - apply K6, K5, K4, K3. rewrite <- D1. exact C2.
  - apply K6, K5, K4. replace dir with (imgs_dir s2) by congruence. exact C3.
  - apply K6, K5. replace dir with (imgs_dir s3) by congruence. exact C4.
  - apply K6. replace dir with (imgs_dir s4) by congruence. exact C5.
  - replace dir with (imgs_dir s5) by congruence. exact C6.
Qed.

Lemma Assets_init_cached_witness :
  exists (a : Assets) (s : Carregador),
    Assets_init exemplo_join exemplo_load exemplo_scale2x "imgs"%string
    = Some (a, s)
    /\ _carregar exemplo_join exemplo_load_vazio exemplo_scale2x
                 "bird2.png"%string false s = Some (bird2 a, s).
Proof.
  do 2 eexists. split; [reflexivity |].
  refine (proj1 (proj2 (proj2 (proj2 (proj2
    (proj2 (Assets_init_cached exemplo_join exemplo_load exemplo_scale2x
              "imgs"%string _ _ _) exemplo_load_vazio false)))))).
  reflexivity.
Defined.

(** ** The birds a tick keeps *)

Lemma verificar_limite_In (ch : Chao.t) (vivos : list Passaro.t)
  (p q : Passaro.t) :
  In q (verificar_limite ch vivos p) -> In q vivos.
Proof.
  unfold verificar_limite, remover_passaro.
  destruct (_ || _); [| tauto].
  destruct (contem_passaro p vivos); [| tauto].
  apply remove_first_In.
Qed.

Lemma verificar_limite_NoDup (ch : Chao.t) (vivos : list Passaro.t)
  (p : Passaro.t) :
  NoDup (map Passaro.oid vivos) ->
  NoDup (map Passaro.oid (verificar_limite ch vivos p)).
Proof.
  unfold verificar_limite, remover_passaro. intros Hnd.
  destruct (_ || _); [| exact Hnd].
  destruct (contem_passaro p vivos); [| exact Hnd].
  now apply remove_first_NoDup.
Qed.

Lemma fold_verificar_limite_gone (ch : Chao.t)
  (copia vivos : list Passaro.t) (p : Passaro.t) :
  NoDup (map Passaro.oid vivos) ->
  In p copia ->
  fora_dos_limites ch p = true ->
  ~ In (Passaro.oid p)
       (map Passaro.oid (fold_left (verificar_limite ch) copia vivos)).
Proof.
  revert vivos. induction copia as [| q copia IH]; simpl;
    intros vivos Hnd Hin Hf; [tauto |].
  destruct Hin as [-> | Hin].
  - intros H. apply in_map_iff in H. destruct H as (q & Hq & H).
    apply fold_verificar_limite_In in H.
    unfold verificar_limite in H. fold (fora_dos_limites ch p) in H.
    rewrite Hf in H.
    destruct (contem_passaro p vivos) eqn:E.
    + apply (remover_passaro_gone p vivos Hnd). rewrite <- Hq.
      now apply in_map.
    + apply (contem_passaro_false p vivos E). rewrite <- Hq.
      now apply in_map.
  - apply IH; [now apply verificar_limite_NoDup | exact Hin | exact Hf].
Qed.

Lemma fold_verificar_limite_keeps (ch : Chao.t)
  (copia vivos : list Passaro.t) (p : Passaro.t) :
  In p vivos ->
  (forall q, In q copia -> Passaro.oid q = Passaro.oid p ->
             fora_dos_limites ch q = false) ->
  In p (fold_left (verificar_limite ch) copia vivos).
Proof.
  revert vivos. induction copia as [| q copia IH]; simpl;
    intros vivos Hin Hsafe; [exact Hin |].
  apply IH; [| intros; apply Hsafe; auto].
  unfold verificar_limite. fold (fora_dos_limites ch q).
  destruct (fora_dos_limites ch q) eqn:Hf; [| exact Hin].
  destruct (contem_passaro q vivos); [| exact Hin].
  apply remove_first_keeps; [exact Hin |].
  unfold Passaro.same.
  destruct (Nat.eqb_spec (Passaro.oid q) (Passaro.oid p)) as [E | E];
    [| reflexivity].
  rewrite (Hsafe q (or_introl eq_refl) E) in Hf. discriminate.
Qed.

(** A bird still active after the sweep collides with none of the pipes
    swept. *)
Lemma fold_verificar_cano_livre (cfg : Config) (cs : list Cano.t)
  (v : Varredura) (q : Passaro.t) (c : Cano.t) :
  NoDup (map Passaro.oid (v_passaros v)) ->
  In q (v_passaros (fold_left (verificar_cano cfg) cs v)) ->
  In c cs -> Cano.colidir c q = false.
Proof.
  revert v. induction cs as [| d cs IH]; intros v Hnd Hq Hc; [destruct Hc |].
  cbn [fold_left] in Hq.
  assert (Hnd1 : NoDup (map Passaro.oid
                            (v_passaros (verificar_cano cfg v d)))).
  { rewrite verificar_cano_eq. cbn zeta. cbn [v_passaros].
    now apply fold_retirar_NoDup. }
  destruct Hc as [-> | Hc]; [| now apply (IH _ Hnd1 Hq Hc)].
  destruct (Cano.colidir c q) eqn:Hcol; [| reflexivity]. exfalso.
  destruct (fold_verificar_cano cfg cs (verificar_cano cfg v c))
    as (cs' & rs & _ & _ & _ & _ & _ & Hps & _).
  cbn zeta in Hps. apply Hps in Hq.
  rewrite verificar_cano_eq in Hq. cbn zeta in Hq. cbn [v_passaros] in Hq.
  pose proof Hq as Hq0. apply fold_retirar_In in Hq0.
  apply (fold_retirar_gone c (v_passaros v) (v_passaros v) q Hnd Hq0 Hcol).
  now apply in_map.
Qed.

Lemma fora_dos_limites_mover (ch : Chao.t) (p : Passaro.t) :
  fora_dos_limites (Chao.mover ch) p = fora_dos_limites ch p.
Proof. reflexivity. Qed.

(** X16.  The birds a tick leaves are exactly the birds it found, moved,
    that collide with no pipe of the session and are neither below the
    ground nor above the window: no bird in contact or out of bounds stays
    active, and no other bird is removed. *)
Theorem atualizar_estado_survivors (g g' : Game) (q : Passaro.t) :
  NoDup (map Passaro.oid (passaros g)) ->
  atualizar_estado CFG g = Ok g' ->
  In q (passaros g')
  <-> exists p : Passaro.t,
      In p (passaros g)
      /\ q = Passaro.mover CFG p
      /\ (forall c, In c (canos g) -> Cano.colidir c q = false)
      /\ fora_dos_limites (chao g) q = false.
Proof.
  intros Hnd Hok. pose proof Hok as Hinv.
  apply atualizar_estado_inv in Hinv. cbn zeta in Hinv.
  destruct Hinv as (Hps & _).
  set (ps := map (Passaro.mover CFG) (passaros g)) in *.
  assert (Hnd1 : NoDup (map Passaro.oid ps))
    by (unfold ps; now rewrite map_oid_mover).
  set (v0 := mkVarredura [] ps false []).
  assert (Hv : varrer_canos CFG ps (canos g)
               = fold_left (verificar_cano CFG) (canos g) v0) by reflexivity.
  destruct (varrer_canos_spec CFG ps (canos g)) as (_ & _ & _ & Hsub & Hnd2).
  specialize (Hnd2 Hnd1).
  set (vp := v_passaros (varrer_canos CFG ps (canos g))) in *.
  split.
  - intros Hq.
    destruct (atualizar_estado_passaros CFG g g' q Hok Hq) as (p & Hp & Hqp).
    exists p. split; [exact Hp |]. split; [exact Hqp |].
    rewrite Hps in Hq. pose proof Hq as Hq1.
    apply verificar_limites_In in Hq1.
    split.
    + intros c Hc.
      apply (fold_verificar_cano_livre CFG (canos g) v0 q c); try assumption.
    + rewrite <- fora_dos_limites_mover.
      destruct (fora_dos_limites (Chao.mover (chao g)) q) eqn:Hf;
        [| reflexivity].
      exfalso.
      apply (fold_verificar_limite_gone (Chao.mover (chao g)) vp vp q
               Hnd2 Hq1 Hf).
      now apply in_map.
  - intros (p & Hp & -> & Hfree & Hin).
    set (q := Passaro.mover CFG p) in *.
    assert (Hq0 : In q ps) by (unfold ps, q; now apply in_map).
    destruct (fold_verificar_cano_keeps CFG (canos g) v0 q Hnd1 Hq0 Hfree)
      as [Hq1 _].
    rewrite <- Hv in Hq1. fold vp in Hq1.
    rewrite Hps. unfold verificar_limites.
    apply fold_verificar_limite_keeps; [exact Hq1 |].
    intros q' Hq' Ho.
    rewrite (passaro_oid_inj vp q' q Hnd2 Hq' Hq1 Ho).
    now rewrite fora_dos_limites_mover.
Qed.

Lemma atualizar_estado_survivors_witness :
  exists g' : Game,
    atualizar_estado CFG exemplo_dois = Ok g'
    /\ In (Passaro.mover CFG exemplo_passaro) (passaros g')
    /\ ~ In (Passaro.mover CFG exemplo_passaro_alto) (passaros g').
Proof.
  destruct (atualizar_estado_ok CFG exemplo_dois CFG_range) as (g' & Hok).
  exists g'. split; [exact Hok |].
  assert (Hnd : NoDup (map Passaro.oid (passaros exemplo_dois))).
  { simpl. repeat constructor; simpl; intuition discriminate. }
  split.
  - apply (atualizar_estado_survivors exemplo_dois g' _ Hnd Hok).
    exists exemplo_passaro. split; [simpl; tauto |].
    split; [reflexivity |]. split.
    + intros c [<- | []]. vm_compute. reflexivity.
    + vm_compute. reflexivity.
  - intros Hin.
    apply (atualizar_estado_survivors exemplo_dois g' _ Hnd Hok) in Hin.
    destruct Hin as (p & _ & _ & Hfree & _).
    specialize (Hfree exemplo_cano (or_introl eq_refl)).
    revert Hfree. vm_compute. discriminate.
Defined.

(** ** A bird that collides and crosses in the same iteration *)

(** C10.  Let a bird, once moved, collide with a pipe not passed yet whose
    horizontal position is below its own, and with no pipe visited before
    that one.  Then the iteration of the inner loop for that bird and that
    pipe removes the bird from the active list and, after that, sets the
    flag [passou] of the pipe to true; after the tick the bird is active
    no more, the loop has left the pipe with its flag true, the score is
    one more, and in a well-formed session the pipe of that identity has
    its flag true wherever the session still holds it, which it does
    unless the pipe has left the window.  This holds when the colliding
    bird is the only bird of the session. *)
Theorem colidiu_e_passou (g g' : Game) (pre post : list Cano.t)
  (c : Cano.t) (p : Passaro.t) :
  NoDup (map Passaro.oid (passaros g)) ->
  canos g = pre ++ c :: post ->
  In p (passaros g) ->
  (forall d, In d pre -> Cano.colidir d (Passaro.mover CFG p) = false) ->
  Cano.colidir c (Passaro.mover CFG p) = true ->
  Cano.passou c = false ->
  Passaro.x p > Cano.x c ->
  atualizar_estado CFG g = Ok g' ->
  (forall (vivos : list Passaro.t) (adicionar : bool),
      contem_passaro (Passaro.mover CFG p) vivos = true ->
      exists c1 : Cano.t,
        verificar_passaro (vivos, c, adicionar) (Passaro.mover CFG p)
        = (remover_passaro (Passaro.mover CFG p) vivos, c1, true)
        /\ c1 = Cano.marcar_passou c
        /\ Cano.passou c1 = true
        /\ Cano.oid c1 = Cano.oid c)
  /\ ~ In (Passaro.oid p) (map Passaro.oid (passaros g'))
  /\ (exists c2 : Cano.t,
         c2 = Cano.mover CFG (Cano.marcar_passou c)
         /\ In c2 (canos_varridos CFG g)
         /\ Cano.passou c2 = true
         /\ Cano.oid c2 = Cano.oid c
         /\ (bem_formado g -> fora_da_tela c2 = false -> In c2 (canos g')))
  /\ pontos g' = pontos g + 1
  /\ (bem_formado g ->
      forall c' : Cano.t,
        In c' (canos g') -> Cano.oid c' = Cano.oid c ->
        Cano.passou c' = true).
Proof.
  intros Hnd Hcs Hp Hsafe Hcol Hpas Hx Hok.
  set (p1 := Passaro.mover CFG p) in *.
  assert (Hcruza : cruza c p1 = true).
  { unfold cruza. rewrite Hpas. simpl. apply Z.gtb_lt. simpl. lia. }
  split.
  { intros vivos adicionar Hcont. exists (Cano.marcar_passou c).
    split; [| repeat split].
    unfold verificar_passaro.
    fold (cruza c p1). rewrite Hcol, Hcont, Hcruza. reflexivity. }
  set (ps := map (Passaro.mover CFG) (passaros g)).
  assert (Hnd1 : NoDup (map Passaro.oid ps))
    by (unfold ps; now rewrite map_oid_mover).
  assert (Hp1 : In p1 ps) by (unfold ps, p1; now apply in_map).
  set (v0 := mkVarredura [] ps false []).
  destruct (fold_verificar_cano_keeps CFG pre v0 p1 Hnd1 Hp1 Hsafe)
    as [Hin1 Hnd2].
  set (v1 := fold_left (verificar_cano CFG) pre v0) in *.
  set (v2 := verificar_cano CFG v1 c).
  assert (Hv : varrer_canos CFG ps (canos g)
               = fold_left (verificar_cano CFG) post v2).
  { unfold varrer_canos. rewrite Hcs, fold_left_app. reflexivity. }
  destruct (fold_verificar_cano CFG post v2)
    as (cs' & rs & Hc3 & _ & Had3 & _ & _ & Hps3 & _).
  cbn zeta in Hc3, Had3, Hps3. rewrite <- Hv in Hc3, Had3, Hps3.
  assert (Hex : existsb (cruza c) (v_passaros v1) = true).
  { apply existsb_exists. exists p1. auto. }
  assert (Hc2 : v_canos v2
                = v_canos v1 ++ [Cano.mover CFG (Cano.marcar_passou c)]).
  { unfold v2. rewrite verificar_cano_eq. cbn zeta. cbn [v_canos].
    unfold cano_apos. rewrite Hex. reflexivity. }
  assert (Had2 : v_adicionar v2 = true).
  { unfold v2. rewrite verificar_cano_eq. cbn zeta. cbn [v_adicionar].
    rewrite Hex. apply orb_true_r. }
  assert (Hgone2 : ~ In (Passaro.oid p1) (map Passaro.oid (v_passaros v2))).
  { unfold v2. rewrite verificar_cano_eq. cbn zeta. cbn [v_passaros].
    now apply fold_retirar_gone. }
  rewrite Had2 in Had3. simpl in Had3.
  pose proof Hok as Hinv.
  apply atualizar_estado_inv in Hinv. cbn zeta in Hinv. fold ps in Hinv.
  destruct Hinv as (Hps & _ & Hcase). rewrite Had3 in Hcase.
  destruct Hcase as (novo & r & Hnovo & Hpts & Hcanos & _).
  set (c2 := Cano.mover CFG (Cano.marcar_passou c)) in *.
  assert (Hvar : In c2 (canos_varridos CFG g)).
  { unfold canos_varridos. fold ps. rewrite Hc3, Hc2.
    apply in_or_app. left. apply in_or_app. right. now left. }
  assert (Hnd3 : bem_formado g ->
                 NoDup (map Cano.oid (canos_varridos CFG g))).
  { intros (_ & Hndc & _).
    destruct (varrer_canos_spec CFG ps (canos g)) as (Hev & _).
    unfold canos_varridos. fold ps.
    now rewrite (evolui_oids CFG _ _ Hev). }
  split; [| split; [| split; [exact Hpts |]]].
  - intros Hin. apply in_map_iff in Hin. destruct Hin as (q & Hq & Hin).
    rewrite Hps in Hin. apply verificar_limites_In in Hin.
    apply Hps3 in Hin. apply Hgone2.
    apply in_map_iff. exists q. split; [exact Hq | exact Hin].
  - exists c2. repeat split; try assumption.
    intros Hbf Hfora.
    rewrite (atualizar_estado_canos CFG g g' Hbf Hok).
    apply in_or_app. left. apply filter_In. split; [exact Hvar |].
    now rewrite Hfora.
  - intros Hbf c' Hin Ho.
    pose proof Hbf as (_ & _ & Hlt & _).
    rewrite Hcanos in Hin. apply remover_canos_In in Hin.
    fold (canos_varridos CFG g) in Hin.
    apply in_app_or in Hin. destruct Hin as [Hin | [<- | []]].
    + assert (E : c' = c2).
      { apply (cano_oid_inj (canos_varridos CFG g)); auto. }
      now rewrite E.
    + exfalso. apply Cano_init_inv in Hnovo. destruct Hnovo as (Hon & _).
      rewrite Forall_forall in Hlt.
      assert (Hc : In c (canos g))
        by (rewrite Hcs; apply in_or_app; right; now left).
      specialize (Hlt c Hc). lia.
Qed.

(** The theorem on the session [exemplo_colisao], whose only bird hits the
    upper barrier of the pipe: the bird is removed, the score is 1 and the
    session holds the pipe with its flag true. *)
Lemma colidiu_e_passou_witness :
  exists g' : Game,
    atualizar_estado CFG exemplo_colisao = Ok g'
    /\ map Passaro.oid (passaros exemplo_colisao)
       = [Passaro.oid exemplo_passaro_alto]
    /\ ~ In (Passaro.oid exemplo_passaro_alto)
            (map Passaro.oid (passaros g'))
    /\ pontos g' = 1
    /\ In (Cano.mover CFG (Cano.marcar_passou exemplo_cano)) (canos g')
    /\ Cano.passou (Cano.mover CFG (Cano.marcar_passou exemplo_cano))
       = true.
Proof.
  destruct (atualizar_estado_ok CFG exemplo_colisao CFG_range)
    as (g' & Hok).
  exists g'. split; [exact Hok |]. split; [reflexivity |].
  assert (H : NoDup (map Passaro.oid (passaros exemplo_colisao))).
  { simpl. repeat constructor; simpl; intuition. }
  destruct (colidiu_e_passou exemplo_colisao g' [] [] exemplo_cano
              exemplo_passaro_alto H eq_refl)
    as (_ & H2 & (c2 & -> & _ & H3 & _ & H5) & H4 & _).
  - simpl. now left.
  - intros d [].
  - vm_compute. reflexivity.
  - reflexivity.
  - vm_compute. reflexivity.
  - exact Hok.
  - split; [exact H2 |]. split; [exact H4 |]. split; [| exact H3].
    apply H5; [exact exemplo_colisao_bem_formado |].
    vm_compute. reflexivity.
Defined.
